(** * agni_tf_tools: EulerProperty and RotationProperty

    A shallow embedding of [src/plugin/euler_property.cpp] and
    [src/plugin/rotation_property.cpp].

    Conventions of the embedding:
    - a [QString] is a [string] of Latin-1 characters; the [const char*]
      obtained through [toLatin1().constData()] is the part of it before the
      first NUL character;
    - [double] and [float] values are idealised as real numbers ([R]), so
      casts between them are the identity and rounding is not modelled;
    - Qt signals that reach observers outside the two classes are appended
      to a log; signals connected to slots of the two classes run the slot
      synchronously, as a direct Qt connection does;
    - a C++ exception is an outcome [Raised] carrying the message and the
      state at the throw. *)

From Stdlib Require Import Reals Lra Lia List String Ascii Bool ZArith.
Import ListNotations.

Local Open Scope string_scope.

(* ===================================================================== *)
(** ** Axis specifications: the parsing part of [setEulerAxes] *)
(* ===================================================================== *)

Module AxisSpec.

(** The three [what()] messages of [EulerProperty::invalid_axes]. *)
Definition invalid_axes_default : string :=
  "invalid axes string: expecting 3 axis specs from x,y,z".

Definition invalid_axes_msg (msg : string) : string := msg.

(** boost::format("invalid axis char: %c (only xyz allowed)") % axis *)
Definition invalid_axes_char (axis : ascii) : string :=
  "invalid axis char: " ++ String axis " (only xyz allowed)".

Definition NUL : ascii := Ascii.zero.

(** [sAxes.toLatin1().constData()]: the characters up to the first NUL. *)
Fixpoint constData (s : string) : string :=
  match s with
  | EmptyString => EmptyString
  | String c r => if Ascii.eqb c NUL then EmptyString else String c (constData r)
  end.

Definition strlen (pc : string) : nat := String.length pc.

(** [*pc] *)
Definition deref (pc : string) : ascii :=
  match pc with
  | EmptyString => NUL
  | String c _ => c
  end.

(** [pc[i]], for [i <= strlen pc]. *)
Definition at_index (pc : string) (i : nat) : ascii :=
  match String.get i pc with
  | Some c => c
  | None => NUL
  end.

(** [++pc] *)
Definition advance (pc : string) : string :=
  match pc with
  | EmptyString => EmptyString
  | String _ r => r
  end.

(** [pc[i] - 'x'] in [int] arithmetic.  With a signed [char] a Latin-1
    character above 127 is negative and with an unsigned one it is above
    'z'; both ways the index is outside 0..2, so the unsigned code is used. *)
Definition axis_idx (c : ascii) : Z :=
  (Z.of_nat (nat_of_ascii c) - Z.of_nat (nat_of_ascii "x"%char))%Z.

(** The [for] loop of lines 153-158, at iteration [i] with [n] iterations
    left; [axes] holds [axes[0..i-1]]. *)
Fixpoint axes_loop (pc : string) (n i : nat) (axes : list Z)
  : string + list Z :=
  match n with
  | O => inr axes
  | S n' =>
      let idx := axis_idx (at_index pc i) in
      if ((idx <? 0) || (idx >? 2))%Z then
        inl (invalid_axes_char (deref pc))
      else if (0 <? i)%nat && (nth (i - 1) axes 0 =? idx)%Z then
        inl (invalid_axes_msg "consecutive axes need to be different")
      else axes_loop pc n' (S i) (axes ++ [idx])
  end.

(** Lines 133-158 of [setEulerAxes]: everything between the early return
    and "everything OK: accept changes".  [inl msg] is a thrown
    [invalid_axes], [inr (fixed, axes)] the values to accept. *)
Definition parse (axes_spec : string) : string + (bool * list nat) :=
  let sAxes := if String.eqb axes_spec "rpy" then "sxyz" else axes_spec in
  let pc := constData sAxes in
  let '(fixed, pc) :=
    if Ascii.eqb (deref pc) "s" then (true, advance pc)
    else if Ascii.eqb (deref pc) "r" then (false, advance pc)
    else (false, pc) in
  if String.eqb axes_spec "" || negb (strlen pc =? 3)%nat then
    inl invalid_axes_default
  else
    match axes_loop pc 3 0 [] with
    | inl msg => inl msg
    | inr axes => inr (fixed, map Z.to_nat axes)
    end.

(** *** The specification's grammar, from the spec's words

    [[sr]?[xyz]{3}] with no two consecutive letters equal; a leading [s]
    is the fixed frame, [r] or no prefix the rotating one; x, y, z are the
    indices 0, 1, 2. *)

Definition letter_index (c : ascii) : option nat :=
  if Ascii.eqb c "x" then Some 0
  else if Ascii.eqb c "y" then Some 1
  else if Ascii.eqb c "z" then Some 2
  else None.

Definition three_letters (s : string) : option (list nat) :=
  match s with
  | String a (String b (String c EmptyString)) =>
      match letter_index a, letter_index b, letter_index c with
      | Some i, Some j, Some k =>
          if (i =? j)%nat || (j =? k)%nat then None else Some [i; j; k]
      | _, _, _ => None
      end
  | _ => None
  end.

(** The expected result of a well-formed spec, [None] when the string is not
    in the grammar. *)
Definition expected (s : string) : option (bool * list nat) :=
  match s with
  | String p rest =>
      if Ascii.eqb p "s" then option_map (pair true) (three_letters rest)
      else if Ascii.eqb p "r" then option_map (pair false) (three_letters rest)
      else option_map (pair false) (three_letters s)
  | EmptyString => None
  end.

End AxisSpec.

(* ===================================================================== *)
(** ** The numeric substrate: Eigen's geometry types and ROS [angles] *)
(* ===================================================================== *)

Module Eigen.

Local Open Scope R_scope.

(** [Eigen::Quaterniond], coefficients w, x, y, z. *)
Record Quaterniond : Type := Quat { qw : R; qx : R; qy : R; qz : R }.

(** [Eigen::Vector3d]; also the [double euler[3]] arrays of the source. *)
Record Vector3d : Type := Vec3 { v0 : R; v1 : R; v2 : R }.

(** [Eigen::Matrix3d], row by row. *)
Record Matrix3d : Type := Mat3 {
  m00 : R; m01 : R; m02 : R;
  m10 : R; m11 : R; m12 : R;
  m20 : R; m21 : R; m22 : R }.

Definition vget (v : Vector3d) (i : nat) : R :=
  match i with
  | O => v0 v
  | S O => v1 v
  | _ => v2 v
  end.

Definition vset (v : Vector3d) (i : nat) (a : R) : Vector3d :=
  match i with
  | O => Vec3 a (v1 v) (v2 v)
  | S O => Vec3 (v0 v) a (v2 v)
  | _ => Vec3 (v0 v) (v1 v) a
  end.

(** [Eigen::Vector3d::Unit(i)]: the i-th basis vector. *)
Definition Unit (i : nat) : Vector3d :=
  Vec3 (if (i =? 0)%nat then 1 else 0)
       (if (i =? 1)%nat then 1 else 0)
       (if (i =? 2)%nat then 1 else 0).

(** [Eigen::AngleAxisd(angle, axis)] converted to a quaternion:
    w = cos(angle/2), vec = sin(angle/2) * axis. *)
Definition AngleAxisd (angle : R) (axis : Vector3d) : Quaterniond :=
  let ha := 0.5 * angle in
  Quat (cos ha) (sin ha * v0 axis) (sin ha * v1 axis) (sin ha * v2 axis).

(** Quaternion product (the [operator*] of rotations). *)
Definition qmul (a b : Quaterniond) : Quaterniond :=
  Quat (qw a * qw b - qx a * qx b - qy a * qy b - qz a * qz b)
       (qw a * qx b + qx a * qw b + qy a * qz b - qz a * qy b)
       (qw a * qy b + qy a * qw b + qz a * qx b - qx a * qz b)
       (qw a * qz b + qz a * qw b + qx a * qy b - qy a * qx b).

(** [Quaterniond::matrix()], i.e. [toRotationMatrix()]. *)
Definition matrix (q : Quaterniond) : Matrix3d :=
  let tx := 2 * qx q in
  let ty := 2 * qy q in
  let tz := 2 * qz q in
  let twx := tx * qw q in
  let twy := ty * qw q in
  let twz := tz * qw q in
  let txx := tx * qx q in
  let txy := ty * qx q in
  let txz := tz * qx q in
  let tyy := ty * qy q in
  let tyz := tz * qy q in
  let tzz := tz * qz q in
  Mat3 (1 - (tyy + tzz)) (txy - twz) (txz + twy)
       (txy + twz) (1 - (txx + tzz)) (tyz - twx)
       (txz - twy) (tyz + twx) (1 - (txx + tyy)).

Definition squaredNorm (q : Quaterniond) : R :=
  qw q * qw q + qx q * qx q + qy q * qy q + qz q * qz q.

Definition qsub (a b : Quaterniond) : Quaterniond :=
  Quat (qw a - qw b) (qx a - qx b) (qy a - qy b) (qz a - qz b).

Definition qneg (a : Quaterniond) : Quaterniond :=
  Quat (- qw a) (- qx a) (- qy a) (- qz a).

(** [a.isApprox(b, prec)]: the coefficient vectors are compared by
    |a - b|^2 <= prec^2 * min(|a|^2, |b|^2). *)
Definition isApproxPrec (prec : R) (a b : Quaterniond) : bool :=
  if Rle_dec (squaredNorm (qsub a b))
             (prec * prec * Rmin (squaredNorm a) (squaredNorm b))
  then true else false.

(** [NumTraits<double>::dummy_precision()] *)
Definition dummy_precision : R := / 1000000000000.

(** [a.isApprox(b)] with the default precision. *)
Definition isApprox (a b : Quaterniond) : bool :=
  isApproxPrec dummy_precision a b.

(** [NumTraits<float>::dummy_precision()], the default precision of
    [isApprox] between two [Eigen::Quaternion<Ogre::Real>]. *)
Definition dummy_precision_float : R := / 100000.

Definition isApproxf (a b : Quaterniond) : bool :=
  isApproxPrec dummy_precision_float a b.

(** [Ogre::Quaternion::operator!=], negated: exact equality of the four
    coefficients. *)
Definition quat_eqb (a b : Quaterniond) : bool :=
  if Req_dec_T (qw a) (qw b) then
    if Req_dec_T (qx a) (qx b) then
      if Req_dec_T (qy a) (qy b) then
        if Req_dec_T (qz a) (qz b) then true else false
      else false
    else false
  else false.

Definition mmul (a b : Matrix3d) : Matrix3d :=
  Mat3 (m00 a * m00 b + m01 a * m10 b + m02 a * m20 b)
       (m00 a * m01 b + m01 a * m11 b + m02 a * m21 b)
       (m00 a * m02 b + m01 a * m12 b + m02 a * m22 b)
       (m10 a * m00 b + m11 a * m10 b + m12 a * m20 b)
       (m10 a * m01 b + m11 a * m11 b + m12 a * m21 b)
       (m10 a * m02 b + m11 a * m12 b + m12 a * m22 b)
       (m20 a * m00 b + m21 a * m10 b + m22 a * m20 b)
       (m20 a * m01 b + m21 a * m11 b + m22 a * m21 b)
       (m20 a * m02 b + m21 a * m12 b + m22 a * m22 b).

(** The right-handed rotation of [angle] radians about the basis vector
    [axis] (0 = x, 1 = y, 2 = z), as the specification words it. *)
Definition Rot (axis : nat) (angle : R) : Matrix3d :=
  let c := cos angle in
  let s := sin angle in
  match axis with
  | O => Mat3 1 0 0
              0 c (- s)
              0 s c
  | S O => Mat3 c 0 s
                0 1 0
                (- s) 0 c
  | _ => Mat3 c (- s) 0
              s c 0
              0 0 1
  end.

End Eigen.

Module angles.

Local Open Scope R_scope.

(** [angles::from_degrees] and [angles::to_degrees] of the ROS package. *)
Definition from_degrees (degrees : R) : R := degrees * PI / 180.
Definition to_degrees (radians : R) : R := radians * 180 / PI.

End angles.

Export Eigen.

(** What the two classes take from their libraries and the embedding
    leaves open: Eigen's Euler decomposition and Qt's conversions between
    numbers and text. *)
Class Runtime : Type := {
  (** [MatrixBase::eulerAngles(a0, a1, a2)] *)
  eulerAngles : Matrix3d -> nat -> nat -> nat -> Vector3d;
  (** [QString::toDouble(&ok)]: [None] when [ok] is false *)
  toDouble : string -> option R;
  (** [QString::arg(double, 0, 'f', 1)] *)
  arg_f1 : R -> string;
  (** the summary string [rviz::QuaternionProperty] shows for its value *)
  quaternion_text : Quaterniond -> string
}.

(* ===================================================================== *)
(** ** State of the two properties *)
(* ===================================================================== *)

(** Fields of [rviz::EulerProperty].  [euler_] holds the values (degrees) of
    the three child [FloatProperty]s and [euler_names_] their names;
    [value_] is the summary string of the property. *)
Record EulerProperty : Type := mkEuler {
  quaternion_ : Quaterniond;
  euler_ : Vector3d;
  euler_names_ : list string;
  axes_string_ : string;
  fixed_ : bool;
  axes_ : list nat;
  ignore_child_updates_ : bool;
  value_ : string }.

(** Fields of [agni_tf_tools::RotationProperty].  [quaternion_property_] is
    the [Ogre::Quaternion] held by the child [rviz::QuaternionProperty];
    the class's own [ignore_child_updates_] and [value_] carry the prefix
    [rot_] here. *)
Record RotationProperty : Type := mkRot {
  euler_property_ : EulerProperty;
  quaternion_property_ : Quaterniond;
  rot_ignore_child_updates_ : bool;
  show_euler_string_ : bool;
  rot_value_ : string }.

(** Signals delivered to observers outside the two classes. *)
Inductive Signal : Type :=
| aboutToChange                              (* EulerProperty::aboutToChange() *)
| quaternionChanged (q : Quaterniond)        (* EulerProperty::quaternionChanged(q) *)
| changed                                    (* EulerProperty::changed() *)
| rot_aboutToChange                          (* RotationProperty::aboutToChange() *)
| rot_changed.                               (* RotationProperty::changed() *)

(** A rotation property with everything its observers have received so far,
    oldest first. *)
Record World : Type := mkWorld {
  rotation : RotationProperty;
  emitted : list Signal }.

Definition eul (w : World) : EulerProperty := euler_property_ (rotation w).

(** [RotationProperty::getQuaternion] *)
Definition getQuaternion (w : World) : Quaterniond := quaternion_ (eul w).

Definition on_rotation (f : RotationProperty -> RotationProperty) (w : World)
  : World :=
  mkWorld (f (rotation w)) (emitted w).

Definition on_euler (f : EulerProperty -> EulerProperty) (w : World) : World :=
  on_rotation (fun r =>
    mkRot (f (euler_property_ r)) (quaternion_property_ r)
          (rot_ignore_child_updates_ r) (show_euler_string_ r) (rot_value_ r)) w.

Definition with_quaternion (q : Quaterniond) (e : EulerProperty) :=
  mkEuler q (euler_ e) (euler_names_ e) (axes_string_ e) (fixed_ e) (axes_ e)
          (ignore_child_updates_ e) (value_ e).

Definition with_euler (v : Vector3d) (e : EulerProperty) :=
  mkEuler (quaternion_ e) v (euler_names_ e) (axes_string_ e) (fixed_ e)
          (axes_ e) (ignore_child_updates_ e) (value_ e).

Definition with_axes (s : string) (fixed : bool) (axes : list nat)
  (names : list string) (e : EulerProperty) :=
  mkEuler (quaternion_ e) (euler_ e) names s fixed axes
          (ignore_child_updates_ e) (value_ e).

Definition with_ignore (b : bool) (e : EulerProperty) :=
  mkEuler (quaternion_ e) (euler_ e) (euler_names_ e) (axes_string_ e)
          (fixed_ e) (axes_ e) b (value_ e).

Definition with_value (s : string) (e : EulerProperty) :=
  mkEuler (quaternion_ e) (euler_ e) (euler_names_ e) (axes_string_ e)
          (fixed_ e) (axes_ e) (ignore_child_updates_ e) s.

Definition with_quaternion_property (q : Quaterniond) (r : RotationProperty) :=
  mkRot (euler_property_ r) q (rot_ignore_child_updates_ r)
        (show_euler_string_ r) (rot_value_ r).

Definition with_rot_ignore (b : bool) (r : RotationProperty) :=
  mkRot (euler_property_ r) (quaternion_property_ r) b
        (show_euler_string_ r) (rot_value_ r).

Definition with_show_euler_string (b : bool) (r : RotationProperty) :=
  mkRot (euler_property_ r) (quaternion_property_ r)
        (rot_ignore_child_updates_ r) b (rot_value_ r).

Definition with_rot_value (s : string) (r : RotationProperty) :=
  mkRot (euler_property_ r) (quaternion_property_ r)
        (rot_ignore_child_updates_ r) (show_euler_string_ r) s.

(* ===================================================================== *)
(** ** Operations as state transformers *)
(* ===================================================================== *)

(** How a call ends: normally, by a thrown [invalid_axes], or cut off by
    the fuel of [exec] below. *)
Inductive Outcome : Type :=
| Done (w : World)
| Raised (msg : string) (w : World)
| OutOfFuel.

Definition Op : Type := World -> Outcome.

Definition skip : Op := Done.

Definition throw (msg : string) : Op := Raised msg.

Definition andThen (a b : Op) : Op :=
  fun w =>
    match a w with
    | Done w' => b w'
    | o => o
    end.

Declare Scope op_scope.
Delimit Scope op_scope with op.
Bind Scope op_scope with Op.
Notation "a ;; b" := (andThen a b)
  (at level 61, right associativity) : op_scope.
Local Open Scope op_scope.

Definition modify (f : World -> World) : Op := fun w => Done (f w).

(** Read a value of the current state and continue with it. *)
Definition read {A : Type} (f : World -> A) (k : A -> Op) : Op :=
  fun w => k (f w) w.

(** [Q_EMIT s] for a signal with outside observers only. *)
Definition emit (s : Signal) : Op :=
  modify (fun w => mkWorld (rotation w) (emitted w ++ [s])).

(** [for (int i = 0; i < 3; ++i) body(i)] *)
Definition for3 (body : nat -> Op) : Op := body 0%nat ;; body 1%nat ;; body 2%nat.

(** The calls between member functions and slots that go through [exec]. *)
Inductive Call : Type :=
| E_setQuaternion (q : Quaterniond)
| E_setEulerAngles (euler : Vector3d) (normalize : bool)
| E_setEulerAxes (axes_spec : string)
| E_updateFromChildren
| E_emitAboutToChange
| E_updateAngles
| F_setValue (i : nat) (v : R)               (* euler_[i]->setValue(v) *)
| Q_setQuaternion (q : Quaterniond)          (* quaternion_property_->setQuaternion(q) *)
| R_setQuaternion (q : Quaterniond)
| R_updateFromEuler (q : Quaterniond)
| R_updateFromQuaternion
| R_setEulerAngles (euler : Vector3d) (normalize : bool)
| R_setEulerAxes (axes_spec : string).

(** Lines 91-99 of [setEulerAngles]: the quaternion of three angles. *)
Definition compose (fixed : bool) (axes : list nat) (euler : Vector3d)
  : Quaterniond :=
  if fixed then
    qmul (qmul (AngleAxisd (v2 euler) (Unit (nth 2 axes 0%nat)))
               (AngleAxisd (v1 euler) (Unit (nth 1 axes 0%nat))))
         (AngleAxisd (v0 euler) (Unit (nth 0 axes 0%nat)))
  else
    qmul (qmul (AngleAxisd (v0 euler) (Unit (nth 0 axes 0%nat)))
               (AngleAxisd (v1 euler) (Unit (nth 1 axes 0%nat))))
         (AngleAxisd (v2 euler) (Unit (nth 2 axes 0%nat))).

(** [QString::replace(".0", "")] *)
Fixpoint replace_dot0 (s : string) : string :=
  match s with
  | String "." (String "0" r) => replace_dot0 r
  | String c r => String c (replace_dot0 r)
  | EmptyString => EmptyString
  end.

(** [xyzNames] of [setEulerAxes]. *)
Definition xyzNames : list string := ["x"; "y"; "z"]%string.

Section Bodies.

Context {RT : Runtime}.

(** The dispatcher for nested calls; [exec] ties the knot. *)
Variable call : Call -> Op.

(** Lines 219-224 of [updateAngles]: the angles of a quaternion. *)
Definition decompose (fixed : bool) (axes : list nat) (q : Quaterniond)
  : Vector3d :=
  if fixed then
    let e := eulerAngles (matrix q) (nth 2 axes 0%nat) (nth 1 axes 0%nat)
                         (nth 0 axes 0%nat) in
    Vec3 (v2 e) (v1 e) (v0 e)
  else
    eulerAngles (matrix q) (nth 0 axes 0%nat) (nth 1 axes 0%nat)
                (nth 2 axes 0%nat).

(** The string [updateString] builds: "%1: %2; %3; %4" filled with the axes
    string and the three child values, then every ".0" removed. *)
Definition summary (e : EulerProperty) : string :=
  replace_dot0 (axes_string_ e ++ ": " ++ arg_f1 (v0 (euler_ e)) ++ "; "
                ++ arg_f1 (v1 (euler_ e)) ++ "; "
                ++ arg_f1 (v2 (euler_ e)))%string.

(** [EulerProperty::updateString] *)
Definition EulerProperty_updateString : Op :=
  modify (on_euler (fun e => with_value (summary e) e)).

(** [EulerProperty::setQuaternion] *)
Definition EulerProperty_setQuaternion (q : Quaterniond) : Op :=
  read (fun w => isApprox (quaternion_ (eul w)) q) (fun same =>
  if same then skip
  else
    modify (on_euler (with_quaternion q)) ;;
    call E_updateAngles).

(** [EulerProperty::setEulerAngles(double euler[], bool normalize)] *)
Definition EulerProperty_setEulerAngles (euler : Vector3d) (normalize : bool)
  : Op :=
  read (fun w => compose (fixed_ (eul w)) (axes_ (eul w)) euler) (fun q =>
  if normalize then call (E_setQuaternion q)
  else
    read (fun w => ignore_child_updates_ (eul w)) (fun ign =>
      if negb ign then
        modify (on_euler (with_ignore true)) ;;
        for3 (fun i => call (F_setValue i (angles.to_degrees (vget euler i)))) ;;
        modify (on_euler (with_ignore false))
      else skip) ;;
    emit aboutToChange ;;
    read (fun w => isApprox (quaternion_ (eul w)) q) (fun same =>
      if negb same then
        modify (on_euler (with_quaternion q)) ;;
        emit (quaternionChanged q) ;;
        call (R_updateFromEuler q)
      else skip) ;;
    EulerProperty_updateString ;;
    emit changed).

(** [EulerProperty::setEulerAxes] *)
Definition EulerProperty_setEulerAxes (axes_spec : string) : Op :=
  read (fun w => String.eqb (axes_string_ (eul w)) axes_spec) (fun same =>
  if same then skip
  else
    match AxisSpec.parse axes_spec with
    | inl msg => throw msg
    | inr (fixed, axes) =>
        modify (on_euler (fun e =>
          with_axes axes_spec fixed axes
            (map (fun a => nth a xyzNames ""%string) axes) e)) ;;
        call E_updateAngles
    end).

(** [EulerProperty::updateFromChildren] *)
Definition EulerProperty_updateFromChildren : Op :=
  read (fun w => ignore_child_updates_ (eul w)) (fun ign =>
  if ign then skip
  else
    read (fun w => euler_ (eul w)) (fun deg =>
      let euler := Vec3 (angles.from_degrees (v0 deg))
                        (angles.from_degrees (v1 deg))
                        (angles.from_degrees (v2 deg)) in
      modify (on_euler (with_ignore true)) ;;
      call (E_setEulerAngles euler false) ;;
      modify (on_euler (with_ignore false)))).

(** [EulerProperty::emitAboutToChange] *)
Definition EulerProperty_emitAboutToChange : Op :=
  read (fun w => ignore_child_updates_ (eul w)) (fun ign =>
  if ign then skip else emit aboutToChange).

(** [EulerProperty::updateAngles] *)
Definition EulerProperty_updateAngles : Op :=
  read (fun w => decompose (fixed_ (eul w)) (axes_ (eul w))
                           (quaternion_ (eul w))) (fun e =>
  call (E_setEulerAngles e false)).

(** [rviz::FloatProperty::setValue] on the child [euler_[i]]: when the value
    differs, the child's [aboutToChange] runs [emitAboutToChange], the value
    is stored, and the child's [changed] runs [updateFromChildren].  The
    child holds a [float]; the narrowing of [v] to it is not modelled. *)
Definition FloatProperty_setValue (i : nat) (v : R) : Op :=
  read (fun w => vget (euler_ (eul w)) i) (fun old =>
  if Req_dec_T v old then skip
  else
    call E_emitAboutToChange ;;
    modify (on_euler (fun e => with_euler (vset (euler_ e) i v) e)) ;;
    call E_updateFromChildren).

(** [RotationProperty::updateString] *)
Definition RotationProperty_updateString : Op :=
  read (fun w =>
          let euler := value_ (eul w) in
          let quat := ("quat: " ++
                       quaternion_text (quaternion_property_ (rotation w)))%string in
          if show_euler_string_ (rotation w) then euler else quat) (fun s =>
  read (fun w => String.eqb (rot_value_ (rotation w)) s) (fun same =>
  if negb same then
    emit rot_aboutToChange ;;
    modify (on_rotation (with_rot_value s)) ;;
    emit rot_changed
  else skip)).

(** [rviz::QuaternionProperty::setQuaternion] on [quaternion_property_]:
    when the value differs it is stored and the property's [changed] runs
    [updateFromQuaternion]. *)
Definition QuaternionProperty_setQuaternion (q : Quaterniond) : Op :=
  read (fun w => quat_eqb q (quaternion_property_ (rotation w))) (fun same =>
  if same then skip
  else
    modify (on_rotation (with_quaternion_property q)) ;;
    call R_updateFromQuaternion).

(** [RotationProperty::setQuaternion] *)
Definition RotationProperty_setQuaternion (q : Quaterniond) : Op :=
  read (fun w => isApprox (getQuaternion w) q) (fun same =>
  if same then skip
  else
    modify (on_rotation (with_rot_ignore true)) ;;
    call (E_setQuaternion q) ;;
    call (Q_setQuaternion q) ;;
    modify (on_rotation (with_rot_ignore false))).

(** [RotationProperty::updateFromEuler] *)
Definition RotationProperty_updateFromEuler (q : Quaterniond) : Op :=
  call (Q_setQuaternion q) ;;
  read (fun w => rot_ignore_child_updates_ (rotation w)) (fun ign =>
  if ign then skip
  else
    modify (on_rotation (with_show_euler_string true)) ;;
    RotationProperty_updateString).

(** [RotationProperty::updateFromQuaternion] *)
Definition RotationProperty_updateFromQuaternion : Op :=
  read (fun w => rot_ignore_child_updates_ (rotation w)) (fun ign =>
  if ign then skip
  else
    read (fun w => quaternion_property_ (rotation w)) (fun eigen_q =>
    read (fun w => isApproxf eigen_q (getQuaternion w)) (fun same =>
    if same then skip
    else
      call (R_setQuaternion eigen_q) ;;
      modify (on_rotation (with_show_euler_string false)) ;;
      RotationProperty_updateString))).

(** One call, with its nested calls left to [call]. *)
Definition body (c : Call) : Op :=
  match c with
  | E_setQuaternion q => EulerProperty_setQuaternion q
  | E_setEulerAngles euler normalize => EulerProperty_setEulerAngles euler normalize
  | E_setEulerAxes axes_spec => EulerProperty_setEulerAxes axes_spec
  | E_updateFromChildren => EulerProperty_updateFromChildren
  | E_emitAboutToChange => EulerProperty_emitAboutToChange
  | E_updateAngles => EulerProperty_updateAngles
  | F_setValue i v => FloatProperty_setValue i v
  | Q_setQuaternion q => QuaternionProperty_setQuaternion q
  | R_setQuaternion q => RotationProperty_setQuaternion q
  | R_updateFromEuler q => RotationProperty_updateFromEuler q
  | R_updateFromQuaternion => RotationProperty_updateFromQuaternion
  | R_setEulerAngles euler normalize => call (E_setEulerAngles euler normalize)
  | R_setEulerAxes axes_spec => call (E_setEulerAxes axes_spec)
  end.

End Bodies.

(** Running a call with nesting depth at most [fuel]. *)
Fixpoint exec {RT : Runtime} (fuel : nat) (c : Call) : Op :=
  match fuel with
  | O => fun _ => OutOfFuel
  | S n => body (exec n) c
  end.

(* ===================================================================== *)
(** ** Free-text edits: [EulerProperty::setValue] *)
(* ===================================================================== *)

Module Text.

(** [QChar::isSpace] on a Latin-1 character: what \s matches. *)
Definition isSpace (c : ascii) : bool :=
  let n := nat_of_ascii c in
  (((9 <=? n) && (n <=? 13)) || (n =? 32) || (n =? 133) || (n =? 160))%nat.

(** The character class [a-z]. *)
Definition isLower (c : ascii) : bool :=
  let n := nat_of_ascii c in
  ((97 <=? n) && (n <=? 122))%nat.

(** The longest prefix of characters satisfying [p], and the rest. *)
Fixpoint span (p : ascii -> bool) (s : string) : string * string :=
  match s with
  | EmptyString => (EmptyString, EmptyString)
  | String c r =>
      if p c then let '(a, b) := span p r in (String c a, b)
      else (EmptyString, s)
  end.

(** A match of [\s*([a-z]+)\s*:?] starting at the first character of [s]:
    the text of capture group 1 and the length of the match.  The
    quantifiers are greedy and none of them ever has to give a character
    back. *)
Definition match_here (s : string) : option (string * nat) :=
  let '(ws1, s1) := span isSpace s in
  let '(cap1, s2) := span isLower s1 in
  match cap1 with
  | EmptyString => None
  | _ =>
      let '(ws2, s3) := span isSpace s2 in
      let colon :=
        match s3 with
        | String ":" _ => 1%nat
        | _ => 0%nat
        end in
      Some (cap1,
            (String.length ws1 + String.length cap1 + String.length ws2
             + colon)%nat)
  end.

(** [axesSpec.indexIn(s)]: the leftmost match, searched from every start
    position; [None] is the result -1, otherwise [cap(1)] and
    [matchedLength()]. *)
Fixpoint indexIn (s : string) : option (string * nat) :=
  match match_here s with
  | Some m => Some m
  | None =>
      match s with
      | EmptyString => None
      | String _ r => indexIn r
      end
  end.

(** [s.mid(n)] *)
Fixpoint mid (s : string) (n : nat) : string :=
  match n, s with
  | O, _ => s
  | S n', String _ r => mid r n'
  | S _, EmptyString => EmptyString
  end.

(** [s.split(sep)], empty parts kept. *)
Fixpoint split (sep : ascii) (s : string) : list string :=
  match s with
  | EmptyString => [EmptyString]
  | String c r =>
      if Ascii.eqb c sep then EmptyString :: split sep r
      else
        match split sep r with
        | h :: t => String c h :: t
        | [] => [String c EmptyString]
        end
  end.

End Text.

(** How [setValue] ends.  The function has no [return] after its last
    statement, so an applied edit ends without a return value. *)
Inductive SetValueResult : Type :=
| ReturnsFalse (w : World)
| EndsWithoutReturn (w : World)
| Propagates (msg : string) (w : World)
| SetValueOutOfFuel.

Section Entry.

Context {RT : Runtime}.

(** Lines 186-196 of [setValue]: the angles part. *)
Definition setValue_angles (fuel : nat) (s : string) (w : World)
  : SetValueResult :=
  let strings := Text.split ";" s in
  if (List.length strings <? 3)%nat then ReturnsFalse w
  else
    match toDouble (nth 0 strings ""%string) with
    | None => ReturnsFalse w
    | Some d0 =>
        match toDouble (nth 1 strings ""%string) with
        | None => ReturnsFalse w
        | Some d1 =>
            match toDouble (nth 2 strings ""%string) with
            | None => ReturnsFalse w
            | Some d2 =>
                let euler := Vec3 (angles.from_degrees d0)
                                  (angles.from_degrees d1)
                                  (angles.from_degrees d2) in
                match exec fuel (E_setEulerAngles euler false) w with
                | Done w' => EndsWithoutReturn w'
                | Raised msg w' => Propagates msg w'
                | OutOfFuel => SetValueOutOfFuel
                end
            end
        end
    end.

(** [EulerProperty::setValue] on the string of the variant. *)
Definition EulerProperty_setValue (fuel : nat) (value : string) (w : World)
  : SetValueResult :=
  let s := value in
  match Text.indexIn s with
  | Some (cap1, matchedLength) =>
      match exec fuel (E_setEulerAxes cap1) w with
      | Raised _ w' => ReturnsFalse w'
      | Done w' => setValue_angles fuel (Text.mid s matchedLength) w'
      | OutOfFuel => SetValueOutOfFuel
      end
  | None => setValue_angles fuel s w
  end.

(** A value of an [rviz::Config] map node. *)
Inductive QVariant : Type :=
| VString (s : string)
| VDouble (d : R)
| VOther.

(** An [rviz::Config] map node. *)
Definition Config : Type := list (string * QVariant).

Fixpoint mapGetValue (config : Config) (key : string) : option QVariant :=
  match config with
  | [] => None
  | (k, v) :: rest => if String.eqb k key then Some v else mapGetValue rest key
  end.

(** [Config::mapGetString]: the key must hold a string. *)
Definition mapGetString (config : Config) (key : string) : option string :=
  match mapGetValue config key with
  | Some (VString s) => Some s
  | _ => None
  end.

(** [Config::mapGetFloat]: the key must hold a number or a string that
    converts to one. *)
Definition mapGetFloat (config : Config) (key : string) : option R :=
  match mapGetValue config key with
  | Some (VDouble d) => Some d
  | Some (VString s) => toDouble s
  | _ => None
  end.

(** [EulerProperty::load].  The source reads the three angles into a
    [float euler[3]]; the narrowing is not modelled. *)
Definition EulerProperty_load (fuel : nat) (config : Config) : Op :=
  match mapGetString config "axes" with
  | Some axes =>
      match mapGetFloat config "e1" with
      | Some e1 =>
          match mapGetFloat config "e2" with
          | Some e2 =>
              match mapGetFloat config "e3" with
              | Some e3 =>
                  (exec fuel (E_setEulerAxes axes) ;;
                   exec fuel (E_setEulerAngles
                                (Vec3 (angles.from_degrees e1)
                                      (angles.from_degrees e2)
                                      (angles.from_degrees e3)) true))%op
              | None => skip
              end
          | None => skip
          end
      | None => skip
      end
  | None => skip
  end.

(** [RotationProperty::load] *)
Definition RotationProperty_load (fuel : nat) (config : Config) : Op :=
  EulerProperty_load fuel config.

(** *** Construction *)

(** The dispatcher while the constructors run: the slots of the two
    classes are connected only after [setEulerAxes("rpy")] has run, so the
    signals of the children and [quaternionChanged] reach nobody. *)
Fixpoint exec_unconnected (fuel : nat) (c : Call) : Op :=
  match fuel with
  | O => fun _ => OutOfFuel
  | S n =>
      match c with
      | E_emitAboutToChange | E_updateFromChildren | R_updateFromEuler _ => skip
      | _ => body (exec_unconnected n) c
      end
  end.

(** The members as the initialiser list of [EulerProperty] leaves them.
    [fixed_] and [axes_] are not initialised there; [setEulerAxes("rpy")]
    writes them before anything reads them. *)
Definition EulerProperty_init (value : Quaterniond) : EulerProperty :=
  mkEuler value (Vec3 0 0 0) [""; ""; ""]%string ""%string false
          [0; 0; 0]%nat false ""%string.

(** [RotationProperty::RotationProperty]: the Euler child is constructed
    (its signals have no observer yet), then the quaternion child from the
    same [value], then the summary string is set. *)
Definition RotationProperty_new (fuel : nat) (value : Quaterniond) : Outcome :=
  match exec_unconnected fuel (E_setEulerAxes "rpy")
          (mkWorld (mkRot (EulerProperty_init value) value false true ""%string) [])
  with
  | Done w =>
      RotationProperty_updateString
        (mkWorld (mkRot (eul w) value false true ""%string) [])
  | o => o
  end.

End Entry.

(* ===================================================================== *)
(** ** The effect of a call on the Euler property, in closed form

    The functions of this section are not part of the embedding: they state
    what [exec] is proved to compute ([exec_sound] below), so that the
    properties of the operations can be read off without fuel. *)
(* ===================================================================== *)

Section ClosedForm.

Context {RT : Runtime}.

Definition eflag (w : World) : bool := ignore_child_updates_ (eul w).
Definition rflag (w : World) : bool := rot_ignore_child_updates_ (rotation w).

Definition degrees (e : Vector3d) : Vector3d :=
  Vec3 (angles.to_degrees (v0 e)) (angles.to_degrees (v1 e))
       (angles.to_degrees (v2 e)).

Definition radians (d : Vector3d) : Vector3d :=
  Vec3 (angles.from_degrees (v0 d)) (angles.from_degrees (v1 d))
       (angles.from_degrees (v2 d)).

(** [setEulerAngles(euler, false)] on the fields. *)
Definition angles_applied (euler : Vector3d) (e : EulerProperty)
  : EulerProperty :=
  let q := compose (fixed_ e) (axes_ e) euler in
  let e1 := if ignore_child_updates_ e then e
            else with_euler (degrees euler) e in
  let e2 := if isApprox (quaternion_ e1) q then e1 else with_quaternion q e1 in
  with_value (summary e2) e2.

(** The signals of [setEulerAngles(euler, false)]. *)
Definition angles_signals (euler : Vector3d) (e : EulerProperty)
  : list Signal :=
  let q := compose (fixed_ e) (axes_ e) euler in
  aboutToChange
    :: (if isApprox (quaternion_ e) q then [] else [quaternionChanged q])
    ++ [changed].

(** [updateAngles()] on the fields, and its signals. *)
Definition angles_updated (e : EulerProperty) : EulerProperty :=
  angles_applied (decompose (fixed_ e) (axes_ e) (quaternion_ e)) e.

Definition update_signals (e : EulerProperty) : list Signal :=
  angles_signals (decompose (fixed_ e) (axes_ e) (quaternion_ e)) e.

Definition quaternion_set (q : Quaterniond) (e : EulerProperty)
  : EulerProperty :=
  if isApprox (quaternion_ e) q then e else angles_updated (with_quaternion q e).

Definition quaternion_signals (q : Quaterniond) (e : EulerProperty)
  : list Signal :=
  if isApprox (quaternion_ e) q then [] else update_signals (with_quaternion q e).

Definition axes_set (s : string) (e : EulerProperty) : EulerProperty :=
  if String.eqb (axes_string_ e) s then e
  else
    match AxisSpec.parse s with
    | inl _ => e
    | inr (fixed, axes) =>
        angles_updated
          (with_axes s fixed axes (map (fun a => nth a xyzNames ""%string) axes) e)
    end.

Definition axes_signals (s : string) (e : EulerProperty) : list Signal :=
  if String.eqb (axes_string_ e) s then []
  else
    match AxisSpec.parse s with
    | inl _ => []
    | inr (fixed, axes) =>
        update_signals
          (with_axes s fixed axes (map (fun a => nth a xyzNames ""%string) axes) e)
    end.

Definition children_read (e : EulerProperty) : EulerProperty :=
  if ignore_child_updates_ e then e
  else with_ignore false
         (angles_applied (radians (euler_ e)) (with_ignore true e)).

Definition children_signals (e : EulerProperty) : list Signal :=
  if ignore_child_updates_ e then []
  else angles_signals (radians (euler_ e)) (with_ignore true e).

(** The Euler property after a call. *)
Definition E_spec (c : Call) (e : EulerProperty) : EulerProperty :=
  match c with
  | E_setQuaternion q | R_setQuaternion q => quaternion_set q e
  | E_setEulerAngles euler normalize | R_setEulerAngles euler normalize =>
      if normalize then quaternion_set (compose (fixed_ e) (axes_ e) euler) e
      else angles_applied euler e
  | E_setEulerAxes s | R_setEulerAxes s => axes_set s e
  | E_updateFromChildren => children_read e
  | E_emitAboutToChange => e
  | E_updateAngles => angles_updated e
  | F_setValue i v =>
      if Req_dec_T v (vget (euler_ e) i) then e
      else children_read (with_euler (vset (euler_ e) i v) e)
  | Q_setQuaternion _ | R_updateFromEuler _ | R_updateFromQuaternion => e
  end.

(** The signals of the Euler property during a call. *)
Definition E_log (c : Call) (e : EulerProperty) : list Signal :=
  match c with
  | E_setQuaternion q | R_setQuaternion q => quaternion_signals q e
  | E_setEulerAngles euler normalize | R_setEulerAngles euler normalize =>
      if normalize then quaternion_signals (compose (fixed_ e) (axes_ e) euler) e
      else angles_signals euler e
  | E_setEulerAxes s | R_setEulerAxes s => axes_signals s e
  | E_updateFromChildren => children_signals e
  | E_emitAboutToChange =>
      if ignore_child_updates_ e then [] else [aboutToChange]
  | E_updateAngles => update_signals e
  | F_setValue i v =>
      if Req_dec_T v (vget (euler_ e) i) then []
      else (if ignore_child_updates_ e then [] else [aboutToChange])
           ++ children_signals (with_euler (vset (euler_ e) i v) e)
  | Q_setQuaternion _ | R_updateFromEuler _ | R_updateFromQuaternion => []
  end.

(** The message of the [invalid_axes] a call throws, if it throws. *)
Definition raises (c : Call) (e : EulerProperty) : option string :=
  match c with
  | E_setEulerAxes s | R_setEulerAxes s =>
      if String.eqb (axes_string_ e) s then None
      else
        match AxisSpec.parse s with
        | inl msg => Some msg
        | inr _ => None
        end
  | _ => None
  end.

Definition rot_signal (s : Signal) : bool :=
  match s with
  | rot_aboutToChange | rot_changed => true
  | _ => false
  end.

(** The signals of the Euler property among [l]. *)
Definition euler_signals (l : list Signal) : list Signal :=
  filter (fun s => negb (rot_signal s)) l.

(** From [w] to [w'] the observers received more signals, those of the
    Euler property among them being [l]. *)
Definition appended (w w' : World) (l : list Signal) : Prop :=
  exists s, emitted w' = (emitted w ++ s)%list /\ euler_signals s = l.

(** Nesting depth of a call, by the two suppression flags at its start. *)
Definition rank (c : Call) (e r : bool) : nat :=
  match c with
  | E_emitAboutToChange => 1
  | R_updateFromQuaternion => if r then 1 else 8
  | Q_setQuaternion _ => if r then 2 else 9
  | R_updateFromEuler _ => if r then 3 else 10
  | E_setEulerAngles _ false => if r then 4 else 11
  | E_updateFromChildren => if e then 1 else if r then 5 else 12
  | F_setValue _ _ => if e then 2 else if r then 6 else 13
  | E_updateAngles => if r then 5 else 12
  | E_setQuaternion _ => if r then 6 else 13
  | E_setEulerAngles _ true => if r then 7 else 14
  | E_setEulerAxes _ => if r then 6 else 13
  | R_setQuaternion _ => 7
  | R_setEulerAngles _ false => if r then 5 else 12
  | R_setEulerAngles _ true => if r then 8 else 15
  | R_setEulerAxes _ => if r then 7 else 14
  end.

(** [RotationProperty::setQuaternion] sets its flag without looking at it;
    the other calls are specified from any state. *)
Definition entry_ok (c : Call) (w : World) : Prop :=
  match c with
  | R_setQuaternion _ => rflag w = false
  | _ => True
  end.

(** A slot of the rotation property finds nothing to do. *)
Definition quiet (q : Quaterniond) (w : World) : Prop :=
  rflag w = true \/ isApproxf q (getQuaternion w) = true.

Definition post (c : Call) (w w' : World) : Prop :=
  eflag w' = eflag w /\ rflag w' = rflag w /\
  match c with
  | R_updateFromQuaternion =>
      quiet (quaternion_property_ (rotation w)) w -> w' = w
  | Q_setQuaternion q | R_updateFromEuler q =>
      quiet q w -> eul w' = eul w /\ appended w w' []
  | _ => eul w' = E_spec c (eul w) /\ appended w w' (E_log c (eul w))
  end.

(** What [exec] is proved to return. *)
Definition sound (c : Call) (w : World) (o : Outcome) : Prop :=
  match o with
  | Done w' => raises c (eul w) = None /\ post c w w'
  | Raised msg w' => raises c (eul w) = Some msg /\ w' = w
  | OutOfFuel => False
  end.

End ClosedForm.

Arguments isApprox : simpl never.
Arguments isApproxf : simpl never.
Arguments compose : simpl never.
Arguments decompose : simpl never.
Arguments AxisSpec.parse : simpl never.
Arguments quat_eqb : simpl never.
Arguments summary : simpl never.
Arguments String.eqb : simpl never.
Arguments angles.to_degrees : simpl never.
Arguments angles.from_degrees : simpl never.

(** ** A weakest-precondition reading of operations *)

Definition wp (a : Op) (Q : World -> Prop) (X : string -> World -> Prop)
  (w : World) : Prop :=
  match a w with
  | Done w' => Q w'
  | Raised msg w' => X msg w'
  | OutOfFuel => False
  end.


(** ** Reachable states *)

(** The calls a client or the user makes from outside: the public member
    functions, an edit of an angle field ([F_setValue]) and an edit of the
    quaternion field ([Q_setQuaternion]). *)
Inductive public : Call -> Prop :=
| public_E_setQuaternion q : public (E_setQuaternion q)
| public_E_setEulerAngles euler normalize :
    public (E_setEulerAngles euler normalize)
| public_E_setEulerAxes axes_spec : public (E_setEulerAxes axes_spec)
| public_F_setValue i v : (i < 3)%nat -> public (F_setValue i v)
| public_Q_setQuaternion q : public (Q_setQuaternion q)
| public_R_setQuaternion q : public (R_setQuaternion q)
| public_R_setEulerAngles euler normalize :
    public (R_setEulerAngles euler normalize)
| public_R_setEulerAxes axes_spec : public (R_setEulerAxes axes_spec).

(** The states a rotation property can be in between two calls. *)
Inductive reachable {RT : Runtime} : World -> Prop :=
| reachable_new fuel value w :
    RotationProperty_new fuel value = Done w -> reachable w
| reachable_done fuel c w w' :
    reachable w -> public c -> exec fuel c w = Done w' -> reachable w'
| reachable_raised fuel c msg w w' :
    reachable w -> public c -> exec fuel c w = Raised msg w' -> reachable w'.

(** The state [setValue] leaves behind, however it ends. *)
Definition state_after (r : SetValueResult) : option World :=
  match r with
  | ReturnsFalse w | EndsWithoutReturn w | Propagates _ w => Some w
  | SetValueOutOfFuel => None
  end.

(** The identity rotation and its other quaternion. *)
Definition q_one : Quaterniond := Quat 1 0 0 0.
Definition q_minus_one : Quaterniond := Quat (-1) 0 0 0.

(** The axis fields agree with the axes string: parsing the string again
    gives the stored frame flag and axis order. *)
Definition consistent (e : EulerProperty) : Prop :=
  AxisSpec.parse (axes_string_ e) = inr (fixed_ e, axes_ e).

(** The fields of the Euler property that only [setEulerAxes] writes,
    with the suppression flag. *)
Definition frame (e : EulerProperty) : string * bool * list nat * bool :=
  (axes_string_ e, fixed_ e, axes_ e, ignore_child_updates_ e).

(** What the constructor establishes and every call keeps, as long as the
    axes are not changed. *)
Definition constructed (w : World) : Prop :=
  eflag w = false /\ rflag w = false /\
  axes_string_ (eul w) = "rpy"%string /\ fixed_ (eul w) = true /\
  axes_ (eul w) = [0; 1; 2]%nat.

(** ** A runtime and a state for examples *)

Fixpoint digits (s : string) (acc : nat) : option nat :=
  match s with
  | EmptyString => Some acc
  | String c r =>
      let n := nat_of_ascii c in
      if ((48 <=? n) && (n <=? 57))%nat then digits r (10 * acc + (n - 48))%nat
      else None
  end.

(** Unsigned decimal integers, leading white space allowed. *)
Definition example_toDouble (s : string) : option R :=
  match snd (Text.span Text.isSpace s) with
  | EmptyString => None
  | t => option_map INR (digits t 0)
  end.

(** A decomposition that always answers (0, 0, 0), a reader of unsigned
    integers, and constant texts for numbers. *)
Definition example_runtime : Runtime :=
  {| eulerAngles := fun _ _ _ _ => Vec3 0 0 0;
     toDouble := example_toDouble;
     arg_f1 := fun _ => "0.0"%string;
     quaternion_text := fun _ => "0; 0; 0; 1"%string |}.

(** The state after construction from the identity under
    [example_runtime]. *)
Definition example_world : World :=
  mkWorld
    (mkRot
       (mkEuler q_one (Vec3 0 0 0) ["x"; "y"; "z"]%string "rpy"%string true
                [0; 1; 2]%nat false "rpy: 0; 0; 0"%string)
       q_one false true "rpy: 0; 0; 0"%string)
    [].

(** The quaternion that the angles of [q] compose to under the axes of
    [e]: what [updateAngles] computes when [q] is the stored quaternion. *)
Definition recomposed {RT : Runtime} (q : Quaterniond) (e : EulerProperty)
  : Quaterniond :=
  compose (fixed_ e) (axes_ e) (decompose (fixed_ e) (axes_ e) q).

(** The signals the observers received between [w] and [w']. *)
Definition news (w w' : World) : list Signal :=
  skipn (List.length (emitted w)) (emitted w').

(** [quaternionChanged] is among the signals [l]. *)
Definition notified (l : list Signal) : Prop :=
  exists q, In (quaternionChanged q) l.

(** A persisted state whose axes string is not an axis spec. *)
Definition bad_axes_config : Config :=
  [("axes"%string, VString "abc"); ("e1"%string, VDouble 0);
   ("e2"%string, VDouble 0); ("e3"%string, VDouble 0)].

(** ** Rotation matrices of quaternions *)

Local Open Scope R_scope.

(** The rotation matrix of a quaternion in its homogeneous form; for a unit
    quaternion it is [matrix]. *)
Definition homogeneous (q : Quaterniond) : Matrix3d :=
  let w := qw q in
  let x := qx q in
  let y := qy q in
  let z := qz q in
  Mat3 (w * w + x * x - y * y - z * z) (2 * (x * y - w * z)) (2 * (x * z + w * y))
       (2 * (x * y + w * z)) (w * w - x * x + y * y - z * z) (2 * (y * z - w * x))
       (2 * (x * z - w * y)) (2 * (y * z + w * x)) (w * w - x * x - y * y + z * z).

(** The contract of Eigen's [eulerAngles(b0, b1, b2)] at the matrix [m]:
    the three rotations by the returned angles multiply to [m]. *)
Definition exact_at {RT : Runtime} (m : Matrix3d) (b0 b1 b2 : nat) : Prop :=
  let r := eulerAngles m b0 b1 b2 in
  mmul (mmul (Rot b0 (v0 r)) (Rot b1 (v1 r))) (Rot b2 (v2 r)) = m.

(** The same for the call [updateAngles] makes under the axes
    [a0, a1, a2]: in the fixed frame the axes are passed in reverse. *)
Definition decomposition_exact {RT : Runtime} (fixed : bool) (a0 a1 a2 : nat)
  (q : Quaterniond) : Prop :=
  if fixed then exact_at (matrix q) a2 a1 a0 else exact_at (matrix q) a0 a1 a2.

(** The tolerance of the round-trip property, 1e-6. *)
Definition roundtrip_precision : R := / 1000000.

Local Close Scope R_scope.

(** The operations of [EulerProperty] that may replace the stored
    quaternion. *)
Inductive Operation : Type :=
| SetQuaternion (q : Quaterniond)
| SetEulerAngles (euler : Vector3d) (normalize : bool)
| SetAxes (axes_spec : string)
| UpdateAngles.

Definition call_of (o : Operation) : Call :=
  match o with
  | SetQuaternion q => E_setQuaternion q
  | SetEulerAngles euler normalize => E_setEulerAngles euler normalize
  | SetAxes axes_spec => E_setEulerAxes axes_spec
  | UpdateAngles => E_updateAngles
  end.

(* ===================================================================== *)
(** ** Persisted state: [save] *)
(* ===================================================================== *)

(** [Config::mapSetValue]: the value of the key is replaced, or the key is
    added to the map. *)
Fixpoint mapSetValue (config : Config) (key : string) (v : QVariant) : Config :=
  match config with
  | [] => [(key, v)]
  | (k, x) :: rest =>
      if String.eqb k key then (k, v) :: rest
      else (k, x) :: mapSetValue rest key v
  end.

(** [EulerProperty::save]: the axes string and the values of the three
    angle fields. *)
Definition EulerProperty_save (e : EulerProperty) (config : Config) : Config :=
  let config := mapSetValue config "axes" (VString (axes_string_ e)) in
  let config := mapSetValue config "e1" (VDouble (v0 (euler_ e))) in
  let config := mapSetValue config "e2" (VDouble (v1 (euler_ e))) in
  mapSetValue config "e3" (VDouble (v2 (euler_ e))).

(** [RotationProperty::save] *)
Definition RotationProperty_save (r : RotationProperty) (config : Config)
  : Config :=
  EulerProperty_save (euler_property_ r) config.

(* ===================================================================== *)
(** ** The effect of a call on the whole state, in closed form

    As the closed forms of the Euler property above, the functions of this
    section are not part of the embedding: [exec] is proved to compute
    them, and the behaviour of the rotation property is read off them. *)
(* ===================================================================== *)

Section WorldForm.

Context {RT : Runtime}.

(** The state after [Q_EMIT s]. *)
Definition emits (s : Signal) (w : World) : World :=
  mkWorld (rotation w) (emitted w ++ [s]).

(** The text [RotationProperty::updateString] decides on. *)
Definition shown (w : World) : string :=
  if show_euler_string_ (rotation w) then value_ (eul w)
  else ("quat: " ++ quaternion_text (quaternion_property_ (rotation w)))%string.

(** [RotationProperty::updateString] *)
Definition string_updated (w : World) : World :=
  if String.eqb (rot_value_ (rotation w)) (shown w) then w
  else emits rot_changed
         (on_rotation (with_rot_value (shown w)) (emits rot_aboutToChange w)).

(** [quaternion_property_->setQuaternion(q)] when the slot
    [updateFromQuaternion] finds nothing to do. *)
Definition child_set (q : Quaterniond) (w : World) : World :=
  if quat_eqb q (quaternion_property_ (rotation w)) then w
  else on_rotation (with_quaternion_property q) w.

(** [updateFromEuler(q)] when the Euler property holds [q]. *)
Definition euler_followed (q : Quaterniond) (w : World) : World :=
  let w1 := child_set q w in
  if rflag w1 then w1
  else string_updated (on_rotation (with_show_euler_string true) w1).

(** The three angle fields written by [setEulerAngles]. *)
Definition children_set (euler : Vector3d) (w : World) : World :=
  if eflag w then w else on_euler (with_euler (degrees euler)) w.

(** [EulerProperty::updateString] *)
Definition summary_updated (w : World) : World :=
  on_euler (fun e => with_value (summary e) e) w.

(** [setEulerAngles(euler, false)] *)
Definition angles_world (euler : Vector3d) (w : World) : World :=
  let q := compose (fixed_ (eul w)) (axes_ (eul w)) euler in
  let w1 := emits aboutToChange (children_set euler w) in
  let w2 :=
    if isApprox (quaternion_ (eul w1)) q then w1
    else euler_followed q
           (emits (quaternionChanged q) (on_euler (with_quaternion q) w1)) in
  emits changed (summary_updated w2).

(** [updateAngles()] *)
Definition update_world (w : World) : World :=
  angles_world (decompose (fixed_ (eul w)) (axes_ (eul w))
                          (quaternion_ (eul w))) w.

(** [EulerProperty::setQuaternion(q)] *)
Definition quaternion_world (q : Quaterniond) (w : World) : World :=
  if isApprox (quaternion_ (eul w)) q then w
  else update_world (on_euler (with_quaternion q) w).

(** [RotationProperty::setQuaternion(q)] *)
Definition rotation_world (q : Quaterniond) (w : World) : World :=
  if isApprox (getQuaternion w) q then w
  else
    on_rotation (with_rot_ignore false)
      (child_set q
         (quaternion_world q (on_rotation (with_rot_ignore true) w))).

(** An edit of the quaternion field: [quaternion_property_->setQuaternion(q)]
    with [updateFromQuaternion] run by its [changed]. *)
Definition field_world (q : Quaterniond) (w : World) : World :=
  if quat_eqb q (quaternion_property_ (rotation w)) then w
  else
    let w1 := on_rotation (with_quaternion_property q) w in
    if rflag w1 then w1
    else if isApproxf q (getQuaternion w1) then w1
    else string_updated
           (on_rotation (with_show_euler_string false) (rotation_world q w1)).

(** [updateFromChildren()] *)
Definition children_world (w : World) : World :=
  if eflag w then w
  else on_euler (with_ignore false)
         (angles_world (radians (euler_ (eul w)))
            (on_euler (with_ignore true) w)).

(** An edit of the angle field [i]: [euler_[i]->setValue(v)] with
    [emitAboutToChange] and [updateFromChildren] run by its signals. *)
Definition angle_field_world (i : nat) (v : R) (w : World) : World :=
  if Req_dec_T v (vget (euler_ (eul w)) i) then w
  else
    children_world
      (on_euler (fun e => with_euler (vset (euler_ e) i v) e)
         (if eflag w then w else emits aboutToChange w)).

(** [setEulerAngles(euler, false)] while the constructor runs: nothing is
    connected to [quaternionChanged] yet. *)
Definition angles_unconnected (euler : Vector3d) (w : World) : World :=
  let q := compose (fixed_ (eul w)) (axes_ (eul w)) euler in
  let w1 := emits aboutToChange (children_set euler w) in
  let w2 :=
    if isApprox (quaternion_ (eul w1)) q then w1
    else emits (quaternionChanged q) (on_euler (with_quaternion q) w1) in
  emits changed (summary_updated w2).

(** The state the constructors leave. *)
Definition constructed_world (value : Quaterniond) : World :=
  let w0 := mkWorld (mkRot (EulerProperty_init value) value false true ""%string)
                    [] in
  let w1 := on_euler (with_axes "rpy" true [0; 1; 2]%nat ["x"; "y"; "z"]%string)
                     w0 in
  let w2 := angles_unconnected
              (decompose true [0; 1; 2]%nat value) w1 in
  string_updated (mkWorld (mkRot (eul w2) value false true ""%string) []).

End WorldForm.

(** ** Invariants of the Euler property *)

(** Three axis indices in 0..2, consecutive ones different. *)
Definition valid_axes (axes : list nat) : Prop :=
  exists a0 a1 a2 : nat,
    axes = [a0; a1; a2] /\ (a0 < 3)%nat /\ (a1 < 3)%nat /\ (a2 < 3)%nat /\
    a0 <> a1 /\ a1 <> a2.

(** What the constructor establishes and every call from outside keeps. *)
Definition coherent {RT : Runtime} (e : EulerProperty) : Prop :=
  ignore_child_updates_ e = false /\
  consistent e /\
  euler_names_ e = map (fun a => nth a xyzNames ""%string) (axes_ e) /\
  value_ e = summary e.

(** More fuel gives the same result: [b] ends as [a] does wherever [a]
    is not cut off. *)
Definition extends (a b : Op) : Prop :=
  forall w : World, a w <> OutOfFuel -> b w = a w.

(** The signals of the rotation property among [l]. *)
Definition rotation_signals (l : list Signal) : list Signal :=
  filter rot_signal l.

(** No character of [s] is a lowercase letter a..z. *)
Fixpoint no_lowercase (s : string) : bool :=
  match s with
  | EmptyString => true
  | String c r => negb (Text.isLower c) && no_lowercase r
  end.

(** Every character of [s] is a lowercase letter a..z. *)
Fixpoint all_lowercase (s : string) : bool :=
  match s with
  | EmptyString => true
  | String c r => Text.isLower c && all_lowercase r
  end.

(** The state after construction from the identity under
    [example_runtime]: [example_world] with the two signals of the
    constructor's [updateString]. *)
Definition example_constructed : World :=
  mkWorld (rotation example_world) [rot_aboutToChange; rot_changed].

(** What the rotation property shows of itself: its display flag, its
    summary string and the signals it has emitted. *)
Definition face (w : World) : bool * string * list Signal :=
  (show_euler_string_ (rotation w), rot_value_ (rotation w),
   rotation_signals (emitted w)).

(** ** Accuracy of the decomposition

    Eigen's [eulerAngles] works in floating point; what can be asked of it
    is that the three rotations by the returned angles multiply to the
    matrix it was given within a tolerance. *)

(** The squared Frobenius distance of two matrices. *)
Definition mdist2 (a b : Matrix3d) : R :=
  ((m00 a - m00 b) * (m00 a - m00 b) + (m01 a - m01 b) * (m01 a - m01 b) +
   (m02 a - m02 b) * (m02 a - m02 b) + (m10 a - m10 b) * (m10 a - m10 b) +
   (m11 a - m11 b) * (m11 a - m11 b) + (m12 a - m12 b) * (m12 a - m12 b) +
   (m20 a - m20 b) * (m20 a - m20 b) + (m21 a - m21 b) * (m21 a - m21 b) +
   (m22 a - m22 b) * (m22 a - m22 b))%R.

(** [exact_at] within the tolerance [tol] (Frobenius norm). *)
Definition accurate_at {RT : Runtime} (tol : R) (m : Matrix3d)
  (b0 b1 b2 : nat) : Prop :=
  let r := eulerAngles m b0 b1 b2 in
  (mdist2 (mmul (mmul (Rot b0 (v0 r)) (Rot b1 (v1 r))) (Rot b2 (v2 r))) m
   <= tol * tol)%R.

(** [decomposition_exact] within the tolerance [tol]. *)
Definition decomposition_accurate {RT : Runtime} (tol : R) (fixed : bool)
  (a0 a1 a2 : nat) (q : Quaterniond) : Prop :=
  if fixed then accurate_at tol (matrix q) a2 a1 a0
  else accurate_at tol (matrix q) a0 a1 a2.

(** [a] is within the squared distance [t] of [b] or of [-b], the two
    quaternions of one rotation. *)
Definition near_up_to_sign (t : R) (a b : Quaterniond) : Prop :=
  (squaredNorm (qsub a b) <= t)%R \/ (squaredNorm (qsub a (qneg b)) <= t)%R.

(** ** A second runtime and state for examples: a half turn about x *)

Definition q_half : Quaterniond := Quat 0 1 0 0.

(** A decomposition that knows the identity and the half turn about x:
    the matrix of the half turn has -1 in its centre; its angle pi goes to
    the slot of the x axis. *)
Definition turn_eulerAngles (m : Matrix3d) (b0 b1 b2 : nat) : Vector3d :=
  if Req_dec_T (m11 m) (-1) then
    if (b0 =? 0)%nat then Vec3 PI 0 0
    else if (b2 =? 0)%nat then Vec3 0 0 PI
    else Vec3 0 0 0
  else Vec3 0 0 0.

Definition turn_runtime : Runtime :=
  {| eulerAngles := turn_eulerAngles;
     toDouble := example_toDouble;
     arg_f1 := fun _ => "0.0"%string;
     quaternion_text := fun _ => "0; 0; 0; 1"%string |}.

(** A state that holds the half turn about x, with angle fields
    (180, 0, 0) under "rpy". *)
Definition example_world_half : World :=
  mkWorld
    (mkRot
       (mkEuler q_half (Vec3 180 0 0) ["x"; "y"; "z"]%string "rpy"%string true
                [0; 1; 2]%nat false "rpy: 0; 0; 0"%string)
       q_half false true "rpy: 0; 0; 0"%string)
    [].
(* ===================================================================== *)
(** * Properties *)
(* ===================================================================== *)

Local Open Scope R_scope.


(** ** Examples *)

Example parse_sxyz : AxisSpec.parse "sxyz" = inr (true, [0; 1; 2]%nat).
Proof. reflexivity. Qed.

Example parse_ryxz : AxisSpec.parse "ryxz" = inr (false, [1; 0; 2]%nat).
Proof. reflexivity. Qed.

Example parse_zxz : AxisSpec.parse "zxz" = inr (false, [2; 0; 2]%nat).
Proof. reflexivity. Qed.

Example parse_rpy : AxisSpec.parse "rpy" = inr (true, [0; 1; 2]%nat).
Proof. reflexivity. Qed.

Example parse_empty : AxisSpec.parse "" = inl AxisSpec.invalid_axes_default.
Proof. reflexivity. Qed.

Example parse_xy : AxisSpec.parse "xy" = inl AxisSpec.invalid_axes_default.
Proof. reflexivity. Qed.

Example parse_xxz :
  AxisSpec.parse "xxz" = inl "consecutive axes need to be different"%string.
Proof. reflexivity. Qed.

Example parse_qyz :
  AxisSpec.parse "qyz" = inl "invalid axis char: q (only xyz allowed)"%string.
Proof. reflexivity. Qed.

Example indexIn_axes :
  Text.indexIn "xyz: 10; 20; 30" = Some ("xyz"%string, 4%nat).
Proof. reflexivity. Qed.

Example indexIn_spaces :
  Text.indexIn "  sxyz : 1;2;3" = Some ("sxyz"%string, 8%nat).
Proof. reflexivity. Qed.

Example indexIn_none : Text.indexIn "10; 20; 30" = None.
Proof. reflexivity. Qed.

(** The expression is not anchored: the exponent of a number is taken for
    an axis token. *)
Example indexIn_exponent : Text.indexIn "1e3;2;3" = Some ("e"%string, 1%nat).
Proof. reflexivity. Qed.

Example split_three :
  Text.split ";" " 10; 20; 30" = [" 10"; " 20"; " 30"]%string.
Proof. reflexivity. Qed.

Example split_empty : Text.split ";" "" = [""%string].
Proof. reflexivity. Qed.

Example replace_dot0_summary :
  replace_dot0 "rpy: 10.0; 20.5; 0.0" = "rpy: 10; 20.5; 0"%string.
Proof. reflexivity. Qed.
(** ** Numbers *)

Lemma squaredNorm_nonneg (q : Quaterniond) : 0 <= squaredNorm q.
Proof. unfold squaredNorm. nra. Qed.

Lemma dummy_precision_pos : 0 < dummy_precision.
Proof. unfold dummy_precision. apply Rinv_0_lt_compat. lra. Qed.

Lemma Rmin_nonneg (a b : R) : 0 <= a -> 0 <= b -> 0 <= Rmin a b.
Proof. intros Ha Hb. unfold Rmin. destruct (Rle_dec a b); assumption. Qed.

Lemma isApproxPrec_refl (prec : R) (q : Quaterniond) :
  isApproxPrec prec q q = true.
Proof.
  unfold isApproxPrec.
  destruct (Rle_dec _ _) as [_ | H]; [reflexivity | exfalso; apply H].
  assert (Hz : squaredNorm (qsub q q) = 0)
    by (unfold squaredNorm, qsub; simpl; ring).
  rewrite Hz.
  pose proof (Rmin_nonneg _ _ (squaredNorm_nonneg q) (squaredNorm_nonneg q)).
  nra.
Qed.

Lemma isApprox_refl (q : Quaterniond) : isApprox q q = true.
Proof. apply isApproxPrec_refl. Qed.

Lemma isApproxf_refl (q : Quaterniond) : isApproxf q q = true.
Proof. apply isApproxPrec_refl. Qed.

Lemma isApproxPrec_sym (prec : R) (a b : Quaterniond) :
  isApproxPrec prec a b = isApproxPrec prec b a.
Proof.
  unfold isApproxPrec.
  assert (Hs : squaredNorm (qsub a b) = squaredNorm (qsub b a))
    by (unfold squaredNorm, qsub; simpl; ring).
  rewrite Hs, (Rmin_comm (squaredNorm a)). reflexivity.
Qed.

Lemma isApprox_sym (a b : Quaterniond) : isApprox a b = isApprox b a.
Proof. apply isApproxPrec_sym. Qed.

Lemma vset_vget (v : Vector3d) (i : nat) : vset v i (vget v i) = v.
Proof. destruct v, i as [| [| i]]; reflexivity. Qed.

Lemma vset_all (v : Vector3d) (a b c : R) :
  vset (vset (vset v 0 a) 1 b) 2 c = Vec3 a b c.
Proof. reflexivity. Qed.

(** ** Signals *)

Section Engine.

Context {RT : Runtime}.

Lemma appended_refl (w : World) : appended w w [].
Proof. exists []. split; [now rewrite app_nil_r | reflexivity]. Qed.

Lemma appended_same (w w' : World) :
  emitted w' = emitted w -> appended w w' [].
Proof. intros H. exists []. split; [now rewrite app_nil_r | reflexivity]. Qed.

Lemma appended_trans (w1 w2 w3 : World) (l1 l2 : list Signal) :
  appended w1 w2 l1 -> appended w2 w3 l2 -> appended w1 w3 (l1 ++ l2).
Proof.
  intros (s1 & H1 & E1) (s2 & H2 & E2). exists (s1 ++ s2)%list. split.
  - rewrite H2, H1, app_assoc. reflexivity.
  - unfold euler_signals in *. rewrite filter_app, E1, E2. reflexivity.
Qed.

Lemma appended_emit (w : World) (s : Signal) :
  appended w (mkWorld (rotation w) (emitted w ++ [s]))
           (if rot_signal s then [] else [s]).
Proof.
  exists [s]. split; [reflexivity |].
  unfold euler_signals. simpl. destruct (rot_signal s); reflexivity.
Qed.

Lemma sound_wp (c : Call) (w : World) (a : Op) :
  wp a (fun w' => raises c (eul w) = None /\ post c w w')
       (fun msg w' => raises c (eul w) = Some msg /\ w' = w) w ->
  sound c w (a w).
Proof. unfold wp, sound. destruct (a w); auto. Qed.

Lemma wp_call (n : nat) (c : Call) Q X w :
  sound c w (exec n c w) ->
  raises c (eul w) = None ->
  (forall w', post c w w' -> Q w') ->
  wp (exec n c) Q X w.
Proof.
  unfold wp, sound. destruct (exec n c w); intros H Hr HQ.
  - apply HQ, H.
  - destruct H. congruence.
  - assumption.
Qed.

Lemma rank_pos (c : Call) (e r : bool) : (1 <= rank c e r)%nat.
Proof. destruct c as [| ? [] | | | | | | | | | | ? [] |], e, r; simpl; lia. Qed.

Lemma F_spec_ignored (i : nat) (v : R) (e : EulerProperty) :
  ignore_child_updates_ e = true ->
  E_spec (F_setValue i v) e = with_euler (vset (euler_ e) i v) e /\
  E_log (F_setValue i v) e = [].
Proof.
  intros H. simpl. unfold children_read, children_signals. simpl. rewrite H.
  destruct (Req_dec_T v (vget (euler_ e) i)) as [-> |]; split; try reflexivity.
  rewrite vset_vget. destruct e; reflexivity.
Qed.

Lemma appended_pre (w w0 w1 : World) (l : list Signal) :
  emitted w0 = emitted w -> appended w0 w1 l -> appended w w1 l.
Proof. intros E (s & H & F). exists s. now rewrite <- E. Qed.

Lemma appended_post (w w0 w1 : World) (l : list Signal) :
  appended w w0 l -> emitted w1 = emitted w0 -> appended w w1 l.
Proof. intros (s & H & F) E. exists s. now rewrite E. Qed.

Lemma appended_snoc (w w0 w1 : World) (l : list Signal) (s : Signal) :
  appended w w0 l -> emitted w1 = (emitted w0 ++ [s])%list ->
  appended w w1 (l ++ (if rot_signal s then [] else [s])).
Proof.
  intros H E. eapply appended_trans; [exact H |].
  exists [s]. split; [exact E |].
  unfold euler_signals. simpl. destruct (rot_signal s); reflexivity.
Qed.

End Engine.


Lemma wp_seq (a b : Op) Q X w :
  wp a (fun w1 => wp b Q X w1) X w -> wp (a ;; b)%op Q X w.
Proof. unfold wp, andThen. destruct (a w); auto. Qed.

Lemma wp_modify (f : World -> World) Q X w :
  (forall w1, w1 = f w -> Q w1) -> wp (modify f) Q X w.
Proof. unfold wp, modify. auto. Qed.

Lemma wp_emit (s : Signal) Q X w :
  (forall w1, w1 = mkWorld (rotation w) (emitted w ++ [s]) -> Q w1) ->
  wp (emit s) Q X w.
Proof. unfold emit, wp, modify. auto. Qed.

Lemma wp_read {A : Type} (f : World -> A) (k : A -> Op) Q X w :
  wp (k (f w)) Q X w -> wp (read f k) Q X w.
Proof. unfold wp, read. auto. Qed.

Lemma wp_skip Q X w : Q w -> wp skip Q X w.
Proof. unfold wp, skip. auto. Qed.

Lemma wp_throw (msg : string) Q X w : X msg w -> wp (throw msg) Q X w.
Proof. unfold wp, throw. auto. Qed.

Lemma wp_for3 (body : nat -> Op) Q X w :
  wp (body 0%nat ;; body 1%nat ;; body 2%nat)%op Q X w -> wp (for3 body) Q X w.
Proof. auto. Qed.


(** ** Stepping through an operation *)

Ltac norm :=
  unfold entry_ok in *;
  unfold eflag, rflag, getQuaternion, eul, quiet in *; simpl in *.

Ltac flags :=
  repeat match goal with
  | H : ignore_child_updates_ ?x = _ |- context [ignore_child_updates_ ?x] =>
      rewrite H
  | H : rot_ignore_child_updates_ ?x = _
    |- context [rot_ignore_child_updates_ ?x] => rewrite H
  end.

Ltac split_ifs :=
  repeat match goal with
  | |- context [if ?b then _ else _] => destruct b eqn:?
  | H : context [if ?b then _ else _] |- _ => destruct b eqn:?
  end.

Ltac rank_tac := subst; norm; flags; split_ifs; simpl in *; try lia; try congruence.

Ltac flag_tac := subst; norm; flags; try reflexivity; try congruence.

Ltac wp_step IH :=
  lazymatch goal with
  | |- wp (andThen _ _) _ _ _ => apply wp_seq
  | |- wp (modify _) _ _ _ =>
      let w1 := fresh "w" in let E := fresh "Ew" in
      apply wp_modify; intros w1 E
  | |- wp (emit _) _ _ _ =>
      let w1 := fresh "w" in let E := fresh "Ew" in
      apply wp_emit; intros w1 E
  | |- wp (read _ _) _ _ _ => apply wp_read; cbv beta
  | |- wp skip _ _ _ => apply wp_skip
  | |- wp (throw _) _ _ _ => apply wp_throw
  | |- wp (for3 _) _ _ _ => apply wp_for3; cbv beta
  | |- wp EulerProperty_updateString _ _ _ =>
      unfold EulerProperty_updateString
  | |- wp RotationProperty_updateString _ _ _ =>
      unfold RotationProperty_updateString
  | |- wp (exec _ _) _ _ _ =>
      let w1 := fresh "w" in let Hp := fresh "Hp" in
      apply wp_call;
      [ apply IH; [ | try exact I ] | try reflexivity
      | intros w1 Hp; destruct Hp as (?Fe & ?Fr & Hp); cbv beta iota in Hp ]
  end.

Ltac finish :=
  split; [try reflexivity | unfold post; split; [flag_tac | split; [flag_tac |]]].

Ltac open_logs :=
  repeat match goal with
  | H : appended _ _ _ |- _ =>
      let s := fresh "s" in
      let Hs := fresh "Hs" in
      let Fs := fresh "Fs" in
      destruct H as (s & Hs & Fs)
  end.

Ltac log_tac :=
  open_logs; eexists; split;
  [ subst; norm;
    repeat match goal with
    | H : emitted ?x = _ |- context [emitted ?x] => rewrite H
    end;
    norm; rewrite <- ?app_assoc; reflexivity
  | unfold euler_signals in *; rewrite ?filter_app; simpl;
    repeat match goal with
    | H : filter _ ?s = _ |- context [filter _ ?s] => rewrite H
    end ].

Section Soundness.

Context {RT : Runtime}.

Lemma exec_sound (n : nat) : forall (c : Call) (w : World),
  (rank c (eflag w) (rflag w) <= n)%nat -> entry_ok c w ->
  sound c w (exec n c w).
Proof.
  induction n as [| n IH]; intros c w Hrank Hentry.
  { pose proof (rank_pos c (eflag w) (rflag w)). lia. }
  destruct c; cbn [exec body].
  - (* EulerProperty::setQuaternion *)
    apply sound_wp. unfold EulerProperty_setQuaternion. wp_step IH.
    destruct (isApprox (quaternion_ (eul w)) q) eqn:Ha.
    + wp_step IH. finish.
      simpl. unfold quaternion_set, quaternion_signals. rewrite Ha.
      split; [reflexivity | apply appended_refl].
    + do 3 wp_step IH. { rank_tac. }
      finish. destruct Hp as [Hp1 Hp2].
      simpl. unfold quaternion_set, quaternion_signals. rewrite Ha.
      subst w0. split; [exact Hp1 |].
      eapply appended_pre; [| exact Hp2]. reflexivity.
  - (* EulerProperty::setEulerAngles *)
    apply sound_wp. unfold EulerProperty_setEulerAngles. wp_step IH.
    destruct normalize.
    + wp_step IH. { rank_tac. }
      finish. exact Hp.
    + set (q := compose (fixed_ (eul w)) (axes_ (eul w)) euler).
      wp_step IH. wp_step IH.
      destruct (ignore_child_updates_ (eul w)) eqn:Ee; cbn [negb].
      * (* called from updateFromChildren: the children are left alone *)
        repeat wp_step IH.
        assert (E0 : eul w0 = eul w) by (subst; reflexivity).
        rewrite E0.
        destruct (isApprox (quaternion_ (eul w)) q) eqn:Ha; cbn [negb].
        -- repeat wp_step IH. finish.
           simpl. unfold angles_applied, angles_signals. fold q.
           rewrite Ee, Ha. split; [subst; reflexivity |].
           log_tac. reflexivity.
        -- repeat wp_step IH.
           { rank_tac. }
           { destruct Hp as [Hp1 Hp2].
             { right. subst. simpl. apply isApproxf_refl. }
             repeat wp_step IH. finish.
             simpl. unfold angles_applied, angles_signals. fold q.
             rewrite Ee, Ha. split.
             ++ subst w5 w4. simpl. unfold eul in Hp1. rewrite Hp1.
                subst. reflexivity.
             ++ log_tac. reflexivity. }
      * repeat wp_step IH; try solve [rank_tac].
        assert (I0 : ignore_child_updates_ (eul w0) = true)
          by (subst; reflexivity).
        assert (I1 : ignore_child_updates_ (eul w1) = true)
          by (unfold eflag in *; congruence).
        assert (I2 : ignore_child_updates_ (eul w2) = true)
          by (unfold eflag in *; congruence).
        destruct (F_spec_ignored 0 (angles.to_degrees (vget euler 0)) _ I0)
          as [S0 L0].
        destruct (F_spec_ignored 1 (angles.to_degrees (vget euler 1)) _ I1)
          as [S1 L1].
        destruct (F_spec_ignored 2 (angles.to_degrees (vget euler 2)) _ I2)
          as [S2 L2].
        rewrite S0, L0 in Hp. rewrite S1, L1 in Hp0. rewrite S2, L2 in Hp1.
        destruct Hp as [Hp Lp], Hp0 as [Hp0 Lp0], Hp1 as [Hp1 Lp1].
        assert (E5 : eul w5 = with_euler (degrees euler) (eul w)).
        { subst w5 w4. simpl. unfold eul in *. rewrite Hp1, Hp0, Hp.
          subst w0. simpl. unfold with_euler, with_ignore. simpl.
          rewrite <- Ee. destruct (euler_property_ (rotation w)).
          reflexivity. }
        rewrite E5. cbn [quaternion_ with_euler].
        destruct (isApprox (quaternion_ (eul w)) q) eqn:Ha; cbn [negb].
        -- repeat wp_step IH. finish.
           simpl. unfold angles_applied, angles_signals. fold q.
           rewrite Ee. cbn [quaternion_ with_euler]. rewrite Ha. split.
           ++ subst w7 w6. simpl. unfold eul in E5. rewrite E5. reflexivity.
           ++ log_tac. reflexivity.
        -- repeat wp_step IH.
           { rank_tac. }
           { destruct Hp2 as [Hp2 Lp2].
             { right. subst. simpl. apply isApproxf_refl. }
             repeat wp_step IH. finish.
             simpl. unfold angles_applied, angles_signals. fold q.
             rewrite Ee. cbn [quaternion_ with_euler]. rewrite Ha. split.
             ++ subst w10 w9. simpl. unfold eul in Hp2. rewrite Hp2.
                subst w7 w6. simpl. unfold eul in E5. rewrite E5. reflexivity.
             ++ log_tac. reflexivity. }
  - (* EulerProperty::setEulerAxes *)
    apply sound_wp. unfold EulerProperty_setEulerAxes. wp_step IH.
    destruct (String.eqb (axes_string_ (eul w)) axes_spec) eqn:Es.
    + wp_step IH. split; [simpl; now rewrite Es |].
      unfold post; split; [flag_tac | split; [flag_tac |]].
      simpl. unfold axes_set, axes_signals. rewrite Es.
      split; [reflexivity | apply appended_refl].
    + destruct (AxisSpec.parse axes_spec) as [msg | [fixed axes]] eqn:Ep.
      * wp_step IH. simpl. rewrite Es, Ep. now split.
      * repeat wp_step IH. { rank_tac. }
        split; [simpl; now rewrite Es, Ep |].
        unfold post; split; [flag_tac | split; [flag_tac |]].
        destruct Hp as [Hp Lp].
        simpl. unfold axes_set, axes_signals. rewrite Es, Ep.
        subst w0. split; [exact Hp |].
        eapply appended_pre; [| exact Lp]. reflexivity.
  - (* EulerProperty::updateFromChildren *)
    apply sound_wp. unfold EulerProperty_updateFromChildren. wp_step IH.
    destruct (ignore_child_updates_ (eul w)) eqn:Ee.
    + wp_step IH. finish.
      simpl. unfold children_read, children_signals. rewrite Ee.
      split; [reflexivity | apply appended_refl].
    + repeat wp_step IH. { rank_tac. }
      finish. destruct Hp as [Hp Lp].
      simpl. unfold children_read, children_signals. rewrite Ee. split.
      * subst w2. unfold eul in *. simpl. rewrite Hp. subst w0. reflexivity.
      * subst w0. log_tac; reflexivity.
  - (* EulerProperty::emitAboutToChange *)
    apply sound_wp. unfold EulerProperty_emitAboutToChange. wp_step IH.
    destruct (ignore_child_updates_ (eul w)) eqn:Ee.
    + wp_step IH. finish. simpl. rewrite Ee.
      split; [reflexivity | apply appended_refl].
    + wp_step IH. finish. simpl. rewrite Ee.
      split; [subst; reflexivity | log_tac; reflexivity].
  - (* EulerProperty::updateAngles *)
    apply sound_wp. unfold EulerProperty_updateAngles.
    repeat wp_step IH. { rank_tac. }
    finish. exact Hp.
  - (* FloatProperty::setValue on a child *)
    apply sound_wp. unfold FloatProperty_setValue. wp_step IH.
    destruct (Req_dec_T v (vget (euler_ (eul w)) i)) as [Ev | Ev].
    + wp_step IH. finish. simpl.
      destruct (Req_dec_T v (vget (euler_ (eul w)) i)); [| contradiction].
      split; [reflexivity | apply appended_refl].
    + repeat wp_step IH; try solve [rank_tac].
      finish. destruct Hp as [Hp Lp], Hp0 as [Hp0 Lp0]. simpl.
      destruct (Req_dec_T v (vget (euler_ (eul w)) i)); [contradiction |].
      simpl in Hp. split.
      * rewrite Hp0. subst w1. unfold eul in *. simpl. rewrite Hp.
        reflexivity.
      * simpl in Lp. subst w1.
        change (eul (on_euler (fun e => with_euler (vset (euler_ e) i v) e) w0))
          with (with_euler (vset (euler_ (eul w0)) i v) (eul w0)) in Lp0.
        rewrite Hp in Lp0.
        eapply appended_trans; [exact Lp |].
        eapply appended_pre; [| exact Lp0]. reflexivity.
  - (* QuaternionProperty::setQuaternion on the child *)
    apply sound_wp. unfold QuaternionProperty_setQuaternion. wp_step IH.
    destruct (quat_eqb q (quaternion_property_ (rotation w))) eqn:Eq.
    + wp_step IH. finish. intros _.
      split; [reflexivity | apply appended_refl].
    + repeat wp_step IH. { rank_tac. }
      finish. intros Hq.
      assert (Hw : w1 = w0).
      { apply Hp. subst w0. destruct Hq as [Hq | Hq]; [left | right];
          exact Hq. }
      subst w1 w0. split; [reflexivity | now apply appended_same].
  - (* RotationProperty::setQuaternion *)
    apply sound_wp. unfold RotationProperty_setQuaternion. wp_step IH.
    destruct (isApprox (getQuaternion w) q) eqn:Ha.
    + wp_step IH. finish. simpl. unfold quaternion_set, quaternion_signals.
      unfold getQuaternion in Ha. rewrite Ha.
      split; [reflexivity | apply appended_refl].
    + repeat wp_step IH; try solve [rank_tac].
      finish. destruct Hp as [Hp Lp].
      destruct Hp0 as [Hp0 Lp0].
      { left. subst w0. unfold rflag in *. simpl in *. congruence. }
      simpl. unfold quaternion_set, quaternion_signals.
      unfold getQuaternion, eul in *. rewrite Ha.
      subst w0. simpl in Hp, Lp.
      unfold quaternion_set in Hp. unfold quaternion_signals in Lp.
      rewrite Ha in Hp, Lp. split.
      * subst w3. simpl. rewrite Hp0. exact Hp.
      * eapply appended_post; [| subst w3; reflexivity].
        rewrite <- (app_nil_r (update_signals _)).
        eapply appended_trans; [| exact Lp0].
        eapply appended_pre; [| exact Lp]. reflexivity.
  - (* RotationProperty::updateFromEuler *)
    apply sound_wp. unfold RotationProperty_updateFromEuler.
    repeat wp_step IH. { rank_tac. }
    destruct (rot_ignore_child_updates_ (rotation w0)) eqn:Er.
    + wp_step IH. finish. exact Hp.
    + repeat wp_step IH.
      match goal with
      | |- context [if negb ?b then _ else _] => destruct b
      end; cbn [negb]; repeat wp_step IH; finish; intros Hq;
        destruct (Hp Hq) as [Hp1 Lp1]; (split; [subst; exact Hp1 |]);
        log_tac; reflexivity.
  - (* RotationProperty::updateFromQuaternion *)
    apply sound_wp. unfold RotationProperty_updateFromQuaternion. wp_step IH.
    destruct (rot_ignore_child_updates_ (rotation w)) eqn:Er.
    + wp_step IH. finish. reflexivity.
    + repeat wp_step IH.
      destruct (isApproxf (quaternion_property_ (rotation w)) (getQuaternion w))
        eqn:Ha.
      * wp_step IH. finish. reflexivity.
      * repeat wp_step IH. { rank_tac. } { exact Er. }
        match goal with
        | |- context [if negb ?b then _ else _] => destruct b
        end; cbn [negb]; repeat wp_step IH; finish;
          intros [Hq | Hq]; unfold rflag in *; congruence.
  - (* RotationProperty::setEulerAngles *)
    assert (Hs : sound (E_setEulerAngles euler normalize) w
                   (exec n (E_setEulerAngles euler normalize) w)).
    { apply IH; [| exact I]. destruct normalize; rank_tac. }
    exact Hs.
  - (* RotationProperty::setEulerAxes *)
    assert (Hs : sound (E_setEulerAxes axes_spec) w
                   (exec n (E_setEulerAxes axes_spec) w)).
    { apply IH; [| exact I]. rank_tac. }
    exact Hs.
Qed.

End Soundness.

Section Totality.

Context {RT : Runtime}.

Lemma rank_le (c : Call) (e r : bool) : (rank c e r <= 15)%nat.
Proof. destruct c as [| ? [] | | | | | | | | | | ? [] |], e, r; simpl; lia. Qed.

Lemma exec_total (n : nat) (c : Call) (w : World) :
  (15 <= n)%nat -> entry_ok c w -> sound c w (exec n c w).
Proof.
  intros Hn He. apply exec_sound; [| exact He].
  pose proof (rank_le c (eflag w) (rflag w)). lia.
Qed.

Lemma exec_done (n : nat) (c : Call) (w : World) :
  (15 <= n)%nat -> entry_ok c w -> raises c (eul w) = None ->
  exists w', exec n c w = Done w' /\ post c w w'.
Proof.
  intros Hn He Hr. pose proof (exec_total n c w Hn He) as H.
  destruct (exec n c w) as [w' | msg w' |]; simpl in H.
  - exists w'. split; [reflexivity | apply H].
  - destruct H. congruence.
  - contradiction.
Qed.

Lemma exec_raised (n : nat) (c : Call) (w : World) (msg : string) :
  (15 <= n)%nat -> entry_ok c w -> raises c (eul w) = Some msg ->
  exec n c w = Raised msg w.
Proof.
  intros Hn He Hr. pose proof (exec_total n c w Hn He) as H.
  destruct (exec n c w) as [w' | msg' w' |]; simpl in H.
  - destruct H. congruence.
  - destruct H as [H ->]. congruence.
  - contradiction.
Qed.

(** A call of the Euler property, read on its fields. *)
Lemma exec_euler (n : nat) (c : Call) (w w' : World) :
  (15 <= n)%nat -> exec n c w = Done w' -> entry_ok c w ->
  post c w w'.
Proof.
  intros Hn Hx He. pose proof (exec_total n c w Hn He) as H.
  rewrite Hx in H. apply H.
Qed.

End Totality.

(** ** Rotations *)

Lemma half_zero : 0.5 * 0 = 0.
Proof. lra. Qed.

Lemma half_two_PI : 0.5 * (2 * PI) = PI.
Proof. lra. Qed.

Lemma AngleAxisd_zero (axis : Vector3d) : AngleAxisd 0 axis = q_one.
Proof.
  unfold AngleAxisd, q_one. cbv zeta. rewrite half_zero, cos_0, sin_0.
  f_equal; ring.
Qed.

Lemma qmul_one_l (q : Quaterniond) : qmul q_one q = q.
Proof. destruct q. unfold qmul, q_one. simpl. f_equal; ring. Qed.

Lemma compose_zero (fixed : bool) (axes : list nat) :
  compose fixed axes (Vec3 0 0 0) = q_one.
Proof.
  unfold compose. simpl. rewrite !AngleAxisd_zero.
  destruct fixed; rewrite !qmul_one_l; reflexivity.
Qed.

Lemma compose_full_turn :
  compose true [0; 1; 2]%nat (Vec3 (2 * PI) 0 0) = q_minus_one.
Proof.
  unfold compose. simpl. rewrite !AngleAxisd_zero, !qmul_one_l.
  unfold AngleAxisd, q_minus_one, Unit. cbv zeta. simpl.
  rewrite half_two_PI, cos_PI, sin_PI. f_equal; ring.
Qed.

Lemma parallelogram (s a : Quaterniond) :
  squaredNorm (qsub s a) + squaredNorm (qsub s (qneg a))
  = 2 * squaredNorm s + 2 * squaredNorm a.
Proof. unfold squaredNorm, qsub, qneg. simpl. ring. Qed.

(** No quaternion is approximately equal to a unit quaternion and to its
    negative, for any precision below 1. *)
Lemma not_approx_both (prec : R) (s a : Quaterniond) :
  0 <= prec < 1 -> squaredNorm a = 1 ->
  isApproxPrec prec s a = true -> isApproxPrec prec s (qneg a) = true ->
  False.
Proof.
  intros Hp Ha H1 H2. unfold isApproxPrec in *.
  destruct (Rle_dec _ _) as [L1 |] in H1; [| discriminate].
  destruct (Rle_dec _ _) as [L2 |] in H2; [| discriminate].
  pose proof (parallelogram s a) as Hpar.
  assert (Hn : squaredNorm (qneg a) = 1)
    by (rewrite <- Ha; unfold squaredNorm, qneg; simpl; ring).
  rewrite Hn, Ha in *.
  pose proof (Rmin_r (squaredNorm s) 1) as Hm.
  pose proof (squaredNorm_nonneg s) as Hs.
  pose proof (Rmin_nonneg _ _ Hs Rle_0_1) as Hm0.
  assert (Hpp : 0 <= prec * prec < 1) by nra.
  assert (prec * prec * Rmin (squaredNorm s) 1 <= prec * prec) by nra.
  nra.
Qed.

Lemma dummy_precision_range : 0 <= dummy_precision < 1.
Proof.
  unfold dummy_precision. split.
  - left. apply Rinv_0_lt_compat. lra.
  - apply (Rmult_lt_reg_r 1000000000000); [lra |].
    rewrite Rinv_l; lra.
Qed.

Lemma q_one_unit : squaredNorm q_one = 1.
Proof. unfold squaredNorm, q_one. simpl. ring. Qed.

Lemma qneg_one : qneg q_one = q_minus_one.
Proof. unfold qneg, q_one, q_minus_one. simpl. f_equal; ring. Qed.

Lemma matrix_minus_one : matrix q_minus_one = matrix q_one.
Proof. unfold matrix, q_one, q_minus_one. simpl. f_equal; ring. Qed.

Lemma one_or_minus_one (s : Quaterniond) :
  isApprox s q_one = false \/ isApprox s q_minus_one = false.
Proof.
  destruct (isApprox s q_one) eqn:H1; [| now left].
  destruct (isApprox s q_minus_one) eqn:H2; [| now right].
  exfalso. rewrite <- qneg_one in H2.
  exact (not_approx_both _ _ _ dummy_precision_range q_one_unit H1 H2).
Qed.

Lemma one_not_minus_one : isApprox q_one q_minus_one = false.
Proof.
  destruct (one_or_minus_one q_one) as [H | H]; [| exact H].
  rewrite isApprox_refl in H. discriminate.
Qed.

(** ** Construction *)

Lemma wp_done (a : Op) (Q : World -> Prop) (w : World) :
  wp a Q (fun _ _ => False) w -> exists w', a w = Done w' /\ Q w'.
Proof.
  unfold wp. destruct (a w) as [w' | |]; intros H; try contradiction.
  now exists w'.
Qed.

Lemma wp_intro (a : Op) (Q : World -> Prop) X (w w' : World) :
  a w = Done w' -> Q w' -> wp a Q X w.
Proof. unfold wp. now intros ->. Qed.

Section Construction.

Context {RT : Runtime}.

Lemma unconnected_child (n i : nat) (v : R) (w : World) :
  exists w', exec_unconnected (S (S n)) (F_setValue i v) w = Done w' /\
             frame (eul w') = frame (eul w).
Proof.
  apply wp_done.
  change (exec_unconnected (S (S n)) (F_setValue i v))
    with (FloatProperty_setValue (exec_unconnected (S n)) i v).
  unfold FloatProperty_setValue.
  wp_step I. destruct (Req_dec_T _ _).
  - wp_step I. reflexivity.
  - change (exec_unconnected (S n) E_emitAboutToChange) with skip.
    change (exec_unconnected (S n) E_updateFromChildren) with skip.
    repeat wp_step I. subst. reflexivity.
Qed.

Lemma unconnected_angles (n : nat) (euler : Vector3d) (w : World) :
  eflag w = false ->
  exists w', exec_unconnected (S (S (S n))) (E_setEulerAngles euler false) w
             = Done w' /\
             frame (eul w') = frame (eul w).
Proof.
  intros He. apply wp_done.
  change (exec_unconnected (S (S (S n))) (E_setEulerAngles euler false))
    with (EulerProperty_setEulerAngles (exec_unconnected (S (S n))) euler false).
  unfold EulerProperty_setEulerAngles.
  do 3 wp_step I. unfold eflag in He. rewrite He. cbn [negb].
  wp_step I. wp_step I. wp_step I. wp_step I. wp_step I.
  destruct (unconnected_child n 0 (angles.to_degrees (vget euler 0)) w0)
    as (w1 & X1 & F1).
  eapply wp_intro; [exact X1 |]. wp_step I.
  destruct (unconnected_child n 1 (angles.to_degrees (vget euler 1)) w1)
    as (w2 & X2 & F2).
  eapply wp_intro; [exact X2 |].
  destruct (unconnected_child n 2 (angles.to_degrees (vget euler 2)) w2)
    as (w3 & X3 & F3).
  eapply wp_intro; [exact X3 |].
  repeat wp_step I.
  assert (F5 : frame (eul w5) = frame (eul w)).
  { subst w5 w4. unfold frame, eul in *. simpl.
    injection F3 as -> -> -> _. injection F2 as -> -> -> _.
    injection F1 as -> -> -> _. subst w0. simpl. now rewrite He. }
  destruct (isApprox (quaternion_ (eul w5)) _); cbn [negb].
  - do 4 wp_step I.
    change (exec_unconnected (S (S n)) (R_updateFromEuler ?q)) with skip.
    repeat wp_step I. subst. exact F5.
  - repeat wp_step I. subst. exact F5.
Qed.

Lemma new_world (value : Quaterniond) :
  exists w, RotationProperty_new 6 value = Done w /\ constructed w.
Proof.
  unfold RotationProperty_new.
  set (w0 := mkWorld (mkRot (EulerProperty_init value) value false true ""%string) []).
  assert (H : exists w', exec_unconnected 6 (E_setEulerAxes "rpy") w0 = Done w' /\
                         frame (eul w') = ("rpy"%string, true, [0; 1; 2]%nat, false)).
  { apply wp_done.
    change (exec_unconnected 6 (E_setEulerAxes "rpy"))
      with (EulerProperty_setEulerAxes (exec_unconnected 5) "rpy").
    unfold EulerProperty_setEulerAxes. wp_step I.
    change (String.eqb (axes_string_ (eul w0)) "rpy") with false. cbv iota.
    change (AxisSpec.parse "rpy")
      with (@inr string (bool * list nat) (true, [0; 1; 2]%nat)). cbv iota.
    wp_step I. wp_step I.
    change (exec_unconnected 5 E_updateAngles)
      with (EulerProperty_updateAngles (exec_unconnected 4)).
    unfold EulerProperty_updateAngles. wp_step I.
    match goal with
    | |- wp (exec_unconnected 4 (E_setEulerAngles ?e false)) _ _ _ =>
        destruct (unconnected_angles 1 e w) as (w1 & X1 & F1);
          [subst w; reflexivity |];
        eapply wp_intro; [exact X1 |]
    end.
    rewrite F1. subst w. reflexivity. }
  destruct H as (w' & -> & F).
  apply wp_done. repeat wp_step I.
  match goal with
  | |- context [if negb ?b then _ else _] => destruct b
  end; cbn [negb]; repeat wp_step I; subst; unfold constructed, frame in *;
    simpl in *; injection F as F1 F2 F3 F4; unfold eflag, rflag, eul; simpl;
    repeat split; assumption.
Qed.

End Construction.

(** ** States with a known quaternion *)

Section Reach.

Context {RT : Runtime}.

Lemma frame_angles_applied (euler : Vector3d) (e : EulerProperty) :
  frame (angles_applied euler e) = frame e.
Proof.
  unfold angles_applied, frame. cbv zeta.
  destruct (ignore_child_updates_ e) eqn:Hi; simpl;
    destruct (isApprox _ _); simpl; rewrite ?Hi; reflexivity.
Qed.

Lemma frame_angles_updated (e : EulerProperty) :
  frame (angles_updated e) = frame e.
Proof. apply frame_angles_applied. Qed.

Lemma frame_quaternion_set (q : Quaterniond) (e : EulerProperty) :
  frame (quaternion_set q e) = frame e.
Proof.
  unfold quaternion_set. destruct (isApprox _ _); [reflexivity |].
  now rewrite frame_angles_updated.
Qed.

Lemma reachable_step (c : Call) (w : World) :
  reachable w -> public c -> entry_ok c w -> raises c (eul w) = None ->
  exists w', exec 15 c w = Done w' /\ reachable w' /\ post c w w'.
Proof.
  intros Hr Hp He Hn.
  destruct (exec_done 15 c w (le_n _) He Hn) as (w' & Hx & Hpost).
  exists w'. repeat split; try assumption.
  - exact (reachable_done 15 c w w' Hr Hp Hx).
  - apply Hpost.
  - apply Hpost.
  - apply Hpost.
Qed.

Lemma constructed_frame (w w' : World) :
  constructed w -> frame (eul w') = frame (eul w) -> rflag w' = rflag w ->
  constructed w'.
Proof.
  unfold constructed, frame, eflag. intros (H1 & H2 & H3 & H4 & H5) F Fr.
  injection F as -> -> -> ->. rewrite Fr. auto.
Qed.

(** From a constructed state, [setEulerAngles(euler, false)]. *)
Lemma reachable_angles (euler : Vector3d) (w : World) :
  reachable w -> constructed w ->
  exists w', exec 15 (E_setEulerAngles euler false) w = Done w' /\
             reachable w' /\ constructed w' /\
             eul w' = angles_applied euler (eul w).
Proof.
  intros Hr Hc.
  destruct (reachable_step (E_setEulerAngles euler false) w Hr
              (public_E_setEulerAngles _ _) I eq_refl)
    as (w' & Hx & Hr' & Fe & Fr & Hp & Hl).
  exists w'. split; [exact Hx |]. split; [exact Hr' |]. split; [| exact Hp].
  eapply constructed_frame; [exact Hc | | exact Fr].
  rewrite Hp. apply frame_angles_applied.
Qed.

Lemma quaternion_angles_applied (euler : Vector3d) (e : EulerProperty) :
  quaternion_ (angles_applied euler e) =
  if isApprox (quaternion_ e) (compose (fixed_ e) (axes_ e) euler)
  then quaternion_ e else compose (fixed_ e) (axes_ e) euler.
Proof.
  unfold angles_applied. cbv zeta.
  destruct (ignore_child_updates_ e); simpl; destruct (isApprox _ _);
    reflexivity.
Qed.

(** A constructed state whose stored quaternion is exactly the identity,
    and one where it is exactly its negative: set the angles (360, 0, 0)
    and (0, 0, 0) degrees, in either order. *)
Lemma reachable_one :
  exists w, reachable w /\ constructed w /\ quaternion_ (eul w) = q_one.
Proof.
  destruct (new_world q_one) as (w0 & H0 & C0).
  pose proof (reachable_new 6 q_one w0 H0) as R0.
  destruct (reachable_angles (Vec3 (2 * PI) 0 0) w0 R0 C0)
    as (w1 & _ & R1 & C1 & E1).
  destruct (reachable_angles (Vec3 0 0 0) w1 R1 C1)
    as (w2 & _ & R2 & C2 & E2).
  exists w2. split; [exact R2 |]. split; [exact C2 |].
  rewrite E2, quaternion_angles_applied, compose_zero.
  assert (A1 : isApprox (quaternion_ (eul w1)) q_minus_one = true).
  { rewrite E1, quaternion_angles_applied.
    destruct C0 as (_ & _ & _ & -> & ->). rewrite compose_full_turn.
    destruct (isApprox (quaternion_ (eul w0)) q_minus_one) eqn:A;
      [exact A | apply isApprox_refl]. }
  destruct (one_or_minus_one (quaternion_ (eul w1))) as [A | A];
    [now rewrite A | congruence].
Qed.

Lemma reachable_minus_one :
  exists w, reachable w /\ constructed w /\ quaternion_ (eul w) = q_minus_one.
Proof.
  destruct (new_world q_one) as (w0 & H0 & C0).
  pose proof (reachable_new 6 q_one w0 H0) as R0.
  destruct (reachable_angles (Vec3 0 0 0) w0 R0 C0)
    as (w1 & _ & R1 & C1 & E1).
  destruct (reachable_angles (Vec3 (2 * PI) 0 0) w1 R1 C1)
    as (w2 & _ & R2 & C2 & E2).
  exists w2. split; [exact R2 |]. split; [exact C2 |].
  rewrite E2, quaternion_angles_applied.
  destruct C1 as (_ & _ & _ & -> & ->). rewrite compose_full_turn.
  assert (A1 : isApprox (quaternion_ (eul w1)) q_one = true).
  { rewrite E1, quaternion_angles_applied, compose_zero.
    destruct (isApprox (quaternion_ (eul w0)) q_one) eqn:A;
      [exact A | apply isApprox_refl]. }
  destruct (one_or_minus_one (quaternion_ (eul w1))) as [A | A];
    [congruence | now rewrite A].
Qed.

End Reach.
(** ** The half turn about x *)

Lemma half_PI : 0.5 * PI = PI / 2.
Proof. lra. Qed.

Lemma AngleAxisd_half_turn : AngleAxisd PI (Unit 0) = q_half.
Proof.
  unfold AngleAxisd, q_half, Unit. cbv zeta. simpl.
  rewrite half_PI, cos_PI2, sin_PI2. f_equal; ring.
Qed.

Lemma compose_half_turn (fixed : bool) :
  compose fixed [0; 1; 2]%nat (Vec3 PI 0 0) = q_half.
Proof.
  unfold compose. simpl. rewrite !AngleAxisd_zero, AngleAxisd_half_turn.
  destruct fixed; unfold qmul, q_one, q_half; simpl; f_equal; ring.
Qed.

Lemma q_half_unit : squaredNorm q_half = 1.
Proof. unfold squaredNorm, q_half. simpl. ring. Qed.

Lemma matrix_half : matrix q_half = Mat3 1 0 0 0 (-1) 0 0 0 (-1).
Proof. unfold matrix, q_half. simpl. f_equal; ring. Qed.

Lemma turn_eulerAngles_half (b0 b1 b2 : nat) :
  turn_eulerAngles (matrix q_half) b0 b1 b2 =
  if (b0 =? 0)%nat then Vec3 PI 0 0
  else if (b2 =? 0)%nat then Vec3 0 0 PI else Vec3 0 0 0.
Proof.
  unfold turn_eulerAngles. rewrite matrix_half. simpl.
  destruct (Req_dec_T (-1) (-1)) as [_ | N]; [reflexivity | now destruct N].
Qed.

Lemma turn_eulerAngles_one (b0 b1 b2 : nat) :
  turn_eulerAngles (matrix q_one) b0 b1 b2 = Vec3 0 0 0.
Proof.
  unfold turn_eulerAngles, matrix, q_one. simpl.
  destruct (Req_dec_T _ _) as [E | _]; [exfalso; lra | reflexivity].
Qed.

Lemma turn_decompose_half (fixed : bool) :
  @decompose turn_runtime fixed [0; 1; 2]%nat q_half = Vec3 PI 0 0.
Proof.
  unfold decompose. cbn [eulerAngles turn_runtime nth].
  rewrite !turn_eulerAngles_half. destruct fixed; reflexivity.
Qed.

Lemma turn_recomposed_half (e : EulerProperty) :
  axes_ e = [0; 1; 2]%nat -> @recomposed turn_runtime q_half e = q_half.
Proof.
  intros H. unfold recomposed. rewrite H, turn_decompose_half.
  apply compose_half_turn.
Qed.

Lemma turn_recomposed_one (e : EulerProperty) :
  @recomposed turn_runtime q_one e = q_one.
Proof.
  unfold recomposed, decompose. cbn [eulerAngles turn_runtime].
  rewrite !turn_eulerAngles_one. destruct (fixed_ e); apply compose_zero.
Qed.

(** The runtime is exact at the half turn, in both frames. *)
Lemma turn_decomposition_exact (fixed : bool) :
  @decomposition_exact turn_runtime fixed 0 1 2 q_half.
Proof.
  unfold decomposition_exact, exact_at. cbn [eulerAngles turn_runtime].
  rewrite !turn_eulerAngles_half, matrix_half.
  destruct fixed; unfold Rot, mmul; simpl;
    rewrite cos_0, sin_0, cos_PI, sin_PI; f_equal; ring.
Qed.

Lemma turn_exact_one (fixed : bool) (a0 a1 a2 : nat) :
  @decomposition_exact turn_runtime fixed a0 a1 a2 q_one.
Proof.
  unfold decomposition_exact, exact_at. cbn [eulerAngles turn_runtime].
  rewrite !turn_eulerAngles_one.
  assert (H : forall b0 b1 b2 : nat,
             mmul (mmul (Rot b0 0) (Rot b1 0)) (Rot b2 0) = matrix q_one).
  { intros b0 b1 b2. unfold Rot, mmul, matrix, q_one. rewrite cos_0, sin_0.
    destruct b0 as [| [| b0]], b1 as [| [| b1]], b2 as [| [| b2]]; simpl;
      f_equal; ring. }
  destruct fixed; simpl; apply H.
Qed.

Lemma one_not_half : isApprox q_one q_half = false.
Proof.
  unfold isApprox, isApproxPrec.
  destruct (Rle_dec _ _) as [L |]; [exfalso | reflexivity].
  pose proof dummy_precision_range as Hd.
  assert (H2 : squaredNorm (qsub q_one q_half) = 2)
    by (unfold squaredNorm, qsub, q_one, q_half; simpl; ring).
  rewrite H2, q_one_unit, q_half_unit in L.
  unfold Rmin in L. destruct (Rle_dec 1 1); nra.
Qed.

Lemma half_not_one : isApprox q_half q_one = false.
Proof. rewrite isApprox_sym. exact one_not_half. Qed.

Lemma radians_half_turn : radians (Vec3 180 0 0) = Vec3 PI 0 0.
Proof.
  unfold radians, angles.from_degrees. simpl. f_equal; field.
Qed.

(** ** Axis specifications *)

Lemma letter_index_some (c : ascii) (i : nat) :
  AxisSpec.letter_index c = Some i ->
  (c = "x"%char /\ i = 0%nat) \/ (c = "y"%char /\ i = 1%nat)
  \/ (c = "z"%char /\ i = 2%nat).
Proof.
  unfold AxisSpec.letter_index.
  destruct (Ascii.eqb c "x") eqn:Ex; [apply Ascii.eqb_eq in Ex |].
  { intros [= <-]. now left. }
  destruct (Ascii.eqb c "y") eqn:Ey; [apply Ascii.eqb_eq in Ey |].
  { intros [= <-]. right. now left. }
  destruct (Ascii.eqb c "z") eqn:Ez; [apply Ascii.eqb_eq in Ez |].
  { intros [= <-]. right. now right. }
  discriminate.
Qed.

Lemma three_letters_some (s : string) (axes : list nat) :
  AxisSpec.three_letters s = Some axes ->
  exists a b c i j k,
    s = String a (String b (String c EmptyString)) /\ axes = [i; j; k] /\
    AxisSpec.letter_index a = Some i /\ AxisSpec.letter_index b = Some j /\
    AxisSpec.letter_index c = Some k /\ i <> j /\ j <> k.
Proof.
  destruct s as [| a [| b [| c [| d s]]]]; try discriminate. simpl.
  destruct (AxisSpec.letter_index a) as [i |] eqn:Ea; [| discriminate].
  destruct (AxisSpec.letter_index b) as [j |] eqn:Eb; [| discriminate].
  destruct (AxisSpec.letter_index c) as [k |] eqn:Ec; [| discriminate].
  destruct (Nat.eqb_spec i j); [discriminate |].
  destruct (Nat.eqb_spec j k); [discriminate |]. simpl.
  intros [= <-]. exists a, b, c, i, j, k. repeat split; assumption.
Qed.

Ltac letters :=
  repeat match goal with
  | H : AxisSpec.letter_index _ = Some _ |- _ =>
      apply letter_index_some in H; destruct H as [[-> ->] | [[-> ->] | [-> ->]]]
  end.

(** Every string of the grammar parses to the expected result. *)
Lemma parse_expected (s : string) (r : bool * list nat) :
  AxisSpec.expected s = Some r -> AxisSpec.parse s = inr r.
Proof.
  destruct s as [| p rest]; [discriminate |]. unfold AxisSpec.expected.
  destruct (Ascii.eqb p "s") eqn:Es; [apply Ascii.eqb_eq in Es; subst p |].
  { destruct (AxisSpec.three_letters rest) as [axes |] eqn:T; [| discriminate].
    intros [= <-].
    destruct (three_letters_some _ _ T)
      as (a & b & c & i & j & k & -> & -> & Ha & Hb & Hc & Hij & Hjk).
    letters; try contradiction; reflexivity. }
  destruct (Ascii.eqb p "r") eqn:Er; [apply Ascii.eqb_eq in Er; subst p |].
  { destruct (AxisSpec.three_letters rest) as [axes |] eqn:T; [| discriminate].
    intros [= <-].
    destruct (three_letters_some _ _ T)
      as (a & b & c & i & j & k & -> & -> & Ha & Hb & Hc & Hij & Hjk).
    letters; try contradiction; reflexivity. }
  destruct (AxisSpec.three_letters (String p rest)) as [axes |] eqn:T;
    [| discriminate].
  intros [= <-].
  destruct (three_letters_some _ _ T)
    as (a & b & c & i & j & k & E & -> & Ha & Hb & Hc & Hij & Hjk).
  injection E as -> ->.
  letters; try contradiction; reflexivity.
Qed.

Lemma frame_fields (e e' : EulerProperty) :
  frame e' = frame e ->
  axes_string_ e' = axes_string_ e /\ fixed_ e' = fixed_ e /\
  axes_ e' = axes_ e /\ ignore_child_updates_ e' = ignore_child_updates_ e.
Proof. unfold frame. intros [= -> -> -> ->]. auto. Qed.

Section Axes.

Context {RT : Runtime}.

Lemma axes_set_fields (s : string) (e : EulerProperty) (fixed : bool)
  (axes : list nat) :
  consistent e -> AxisSpec.parse s = inr (fixed, axes) ->
  axes_string_ (axes_set s e) = s /\ fixed_ (axes_set s e) = fixed /\
  axes_ (axes_set s e) = axes.
Proof.
  intros Hc Hp. unfold axes_set.
  destruct (String.eqb_spec (axes_string_ e) s) as [Es | Es].
  - unfold consistent in Hc. rewrite Es, Hp in Hc. injection Hc as <- <-.
    auto.
  - rewrite Hp.
    destruct (frame_fields _ _
                (frame_angles_updated
                   (with_axes s fixed axes
                      (map (fun a => nth a xyzNames ""%string) axes) e)))
      as (-> & -> & -> & _).
    auto.
Qed.

End Axes.

(** C3: every string of the form [sr]?[xyz]{3} without two equal
    consecutive letters is accepted by [setEulerAxes], from any state whose
    axis fields agree with its axes string, and leaves the expected frame
    flag and axis indices: a leading s is the fixed frame, r or no prefix
    the rotating one, and x, y, z are 0, 1, 2; "sxyz" gives fixed with
    [0,1,2] and "ryxz" rotating with [1,0,2]. *)
Theorem setEulerAxes_accepts_grammar {RT : Runtime} (n : nat) (w : World)
  (s : string) (fixed : bool) (axes : list nat) :
  (15 <= n)%nat -> consistent (eul w) ->
  AxisSpec.expected s = Some (fixed, axes) ->
  AxisSpec.parse s = inr (fixed, axes) /\
  (exists w', exec n (E_setEulerAxes s) w = Done w' /\
              axes_string_ (eul w') = s /\
              fixed_ (eul w') = fixed /\ axes_ (eul w') = axes) /\
  AxisSpec.parse "sxyz" = inr (true, [0; 1; 2]%nat) /\
  AxisSpec.parse "ryxz" = inr (false, [1; 0; 2]%nat).
Proof.
  intros Hn Hc He. pose proof (parse_expected _ _ He) as Hp.
  split; [exact Hp |]. split; [| split; reflexivity].
  assert (Hr : raises (E_setEulerAxes s) (eul w) = None).
  { simpl. rewrite Hp. now destruct (String.eqb _ _). }
  destruct (exec_done n (E_setEulerAxes s) w Hn I Hr)
    as (w' & Hx & _ & _ & Hw & _).
  exists w'. split; [exact Hx |]. rewrite Hw. simpl.
  exact (axes_set_fields s (eul w) fixed axes Hc Hp).
Qed.

Lemma setEulerAxes_accepts_grammar_witness :
  ((15 <= 15)%nat /\ consistent (eul example_world) /\
   AxisSpec.expected "sxyz" = Some (true, [0; 1; 2]%nat)) /\
  (AxisSpec.parse "sxyz" = inr (true, [0; 1; 2]%nat) /\
   (exists w', @exec example_runtime 15 (E_setEulerAxes "sxyz") example_world
               = Done w' /\
               axes_string_ (eul w') = "sxyz"%string /\
               fixed_ (eul w') = true /\ axes_ (eul w') = [0; 1; 2]%nat) /\
   AxisSpec.parse "sxyz" = inr (true, [0; 1; 2]%nat) /\
   AxisSpec.parse "ryxz" = inr (false, [1; 0; 2]%nat)).
Proof.
  split.
  - split; [lia | split; reflexivity].
  - apply (@setEulerAxes_accepts_grammar example_runtime 15 example_world
             "sxyz" true [0; 1; 2]%nat); [lia | reflexivity | reflexivity].
Defined.

Lemma not_letter_idx (c : ascii) :
  AxisSpec.letter_index c = None ->
  ((AxisSpec.axis_idx c <? 0) || (AxisSpec.axis_idx c >? 2))%Z = true.
Proof.
  destruct c as [[] [] [] [] [] [] [] []]; vm_compute; congruence.
Qed.

Lemma letter_not_prefix (c : ascii) (i : nat) :
  AxisSpec.letter_index c = Some i ->
  Ascii.eqb c AxisSpec.NUL = false /\ Ascii.eqb c "s" = false /\
  Ascii.eqb c "r" = false /\
  ((AxisSpec.axis_idx c <? 0) || (AxisSpec.axis_idx c >? 2))%Z = false.
Proof.
  intros H. apply letter_index_some in H.
  destruct H as [[-> _] | [[-> _] | [-> _]]]; repeat split; reflexivity.
Qed.

Lemma constData_three (a b c : ascii) :
  a <> AxisSpec.NUL -> b <> AxisSpec.NUL -> c <> AxisSpec.NUL ->
  AxisSpec.constData (String a (String b (String c EmptyString)))
  = String a (String b (String c EmptyString)).
Proof.
  intros Ha Hb Hc. apply Ascii.eqb_neq in Ha, Hb, Hc.
  cbn [AxisSpec.constData]. now rewrite Ha, Hb, Hc.
Qed.

(** A three-character spec that starts with an axis letter goes straight
    to the loop over its characters. *)
Lemma parse_three (a b c : ascii) (i : nat) :
  AxisSpec.letter_index a = Some i ->
  b <> AxisSpec.NUL -> c <> AxisSpec.NUL ->
  AxisSpec.parse (String a (String b (String c EmptyString)))
  = match AxisSpec.axes_loop (String a (String b (String c EmptyString)))
            3 0 [] with
    | inl msg => inl msg
    | inr axes => inr (false, map Z.to_nat axes)
    end.
Proof.
  intros Ha Hb Hc.
  assert (Hn : a <> AxisSpec.NUL).
  { apply letter_index_some in Ha.
    destruct Ha as [[-> _] | [[-> _] | [-> _]]]; discriminate. }
  unfold AxisSpec.parse.
  assert (E : String.eqb (String a (String b (String c EmptyString))) "rpy"
              = false).
  { apply letter_index_some in Ha.
    destruct Ha as [[-> _] | [[-> _] | [-> _]]]; reflexivity. }
  rewrite E, (constData_three a b c Hn Hb Hc).
  cbn [AxisSpec.deref].
  destruct (letter_not_prefix a i Ha) as (_ & -> & -> & _).
  reflexivity.
Qed.

(** C4: a character outside x, y, z makes [setEulerAxes] throw the
    [invalid_axes] built from a character, but the character handed to it
    is [*pc], the first axis character, not the offending [pc[i]]: for
    "xyq" the message names x.  This holds for an offending character in
    the third position after two valid axes, and in the second position
    after one. *)
Theorem invalid_axis_char_names_first_axis :
  AxisSpec.parse "xyq" = inl "invalid axis char: x (only xyz allowed)"%string /\
  AxisSpec.parse "xyq" <> inl (AxisSpec.invalid_axes_char "q") /\
  (forall (a b c : ascii) (i j : nat),
     AxisSpec.letter_index a = Some i -> AxisSpec.letter_index b = Some j ->
     i <> j -> AxisSpec.letter_index c = None -> c <> AxisSpec.NUL ->
     AxisSpec.parse (String a (String b (String c EmptyString)))
     = inl (AxisSpec.invalid_axes_char a)) /\
  (forall (a b c : ascii) (i : nat),
     AxisSpec.letter_index a = Some i -> AxisSpec.letter_index b = None ->
     b <> AxisSpec.NUL -> c <> AxisSpec.NUL ->
     AxisSpec.parse (String a (String b (String c EmptyString)))
     = inl (AxisSpec.invalid_axes_char a)).
Proof.
  split; [reflexivity |]. split; [discriminate |]. split.
  - intros a b c i j Ha Hb Hij Hc Hn.
    assert (Hbn : b <> AxisSpec.NUL).
    { apply letter_index_some in Hb.
      destruct Hb as [[-> _] | [[-> _] | [-> _]]]; discriminate. }
    rewrite (parse_three a b c i Ha Hbn Hn).
    pose proof (not_letter_idx c Hc) as Ic.
    destruct (letter_not_prefix a i Ha) as (_ & _ & _ & Ia).
    destruct (letter_not_prefix b j Hb) as (_ & _ & _ & Ib).
    cbn [AxisSpec.axes_loop AxisSpec.at_index String.get Nat.ltb Nat.leb
         andb Nat.sub nth app AxisSpec.deref].
    rewrite Ia. cbn [andb]. rewrite Ib.
    assert (Hd : (AxisSpec.axis_idx a =? AxisSpec.axis_idx b)%Z = false).
    { apply letter_index_some in Ha, Hb.
      destruct Ha as [[-> ->] | [[-> ->] | [-> ->]]];
        destruct Hb as [[-> ->] | [[-> ->] | [-> ->]]];
        try contradiction; reflexivity. }
    rewrite Hd, Ic. reflexivity.
  - intros a b c i Ha Hb Hnb Hnc.
    rewrite (parse_three a b c i Ha Hnb Hnc).
    pose proof (not_letter_idx b Hb) as Ib.
    destruct (letter_not_prefix a i Ha) as (_ & _ & _ & Ia).
    cbn [AxisSpec.axes_loop AxisSpec.at_index String.get Nat.ltb Nat.leb
         andb Nat.sub nth app AxisSpec.deref].
    rewrite Ia. cbn [andb]. rewrite Ib. reflexivity.
Qed.

(** ** setQuaternion *)

Section Quaternion.

Context {RT : Runtime}.

Lemma quaternion_angles_updated (e : EulerProperty) :
  quaternion_ (angles_updated e) =
  if isApprox (quaternion_ e) (recomposed (quaternion_ e) e)
  then quaternion_ e else recomposed (quaternion_ e) e.
Proof. unfold angles_updated. apply quaternion_angles_applied. Qed.

Lemma quaternion_quaternion_set (q : Quaterniond) (e : EulerProperty) :
  quaternion_ (quaternion_set q e) =
  if isApprox (quaternion_ e) q then quaternion_ e
  else if isApprox q (recomposed q e) then q else recomposed q e.
Proof.
  unfold quaternion_set. destruct (isApprox (quaternion_ e) q); [reflexivity |].
  rewrite quaternion_angles_updated. reflexivity.
Qed.

Lemma angles_signals_not_nil (euler : Vector3d) (e : EulerProperty) :
  angles_signals euler e <> [].
Proof. unfold angles_signals. discriminate. Qed.

Lemma quaternion_signals_not_nil (q : Quaterniond) (e : EulerProperty) :
  isApprox (quaternion_ e) q = false -> quaternion_signals q e <> [].
Proof.
  intros H. unfold quaternion_signals. rewrite H. apply angles_signals_not_nil.
Qed.

Lemma appended_self (w : World) (l : list Signal) : appended w w l -> l = [].
Proof.
  intros (s & Hs & <-).
  assert (E : s = []).
  { apply (app_inv_head (emitted w)). now rewrite app_nil_r. }
  now rewrite E.
Qed.

Lemma decompose_matrix (fixed : bool) (axes : list nat) (p q : Quaterniond) :
  matrix p = matrix q -> decompose fixed axes p = decompose fixed axes q.
Proof. intros H. unfold decompose. now rewrite H. Qed.

Lemma recomposed_minus_one (e : EulerProperty) :
  recomposed q_minus_one e = recomposed q_one e.
Proof.
  unfold recomposed.
  now rewrite (decompose_matrix _ _ _ _ matrix_minus_one).
Qed.

(** Whichever quaternion the identity matrix is decomposed and re-composed
    to, it is not approximately equal to both 1 and -1. *)
Lemma recomposed_misses_one (e : EulerProperty) :
  isApprox q_one (recomposed q_one e) = false \/
  isApprox q_minus_one (recomposed q_minus_one e) = false.
Proof.
  rewrite recomposed_minus_one, (isApprox_sym q_one), (isApprox_sym q_minus_one).
  apply one_or_minus_one.
Qed.

End Quaternion.

(** The guard at the head of both [setQuaternion] functions. *)
Lemma setQuaternion_returns_early {RT : Runtime} (n : nat) (w : World)
  (q : Quaterniond) :
  isApprox (getQuaternion w) q = true ->
  exec (S n) (E_setQuaternion q) w = Done w /\
  exec (S n) (R_setQuaternion q) w = Done w.
Proof.
  intros H. cbn [exec body].
  unfold EulerProperty_setQuaternion, RotationProperty_setQuaternion, read.
  unfold getQuaternion in *. rewrite H. split; reflexivity.
Qed.

(** What a returned [setQuaternion(q)] leaves stored, when the angles of
    q compose back to q within tolerance. *)
Lemma setQuaternion_settles {RT : Runtime} (q : Quaterniond)
  (e : EulerProperty) :
  isApprox q (recomposed q e) = true ->
  isApprox (quaternion_ (quaternion_set q e)) q = true.
Proof.
  intros Hq. rewrite quaternion_quaternion_set, Hq.
  destruct (isApprox (quaternion_ e) q) eqn:A; [exact A | apply isApprox_refl].
Qed.

(** C9, as the code has it: [setQuaternion(q)] returns at once, with no
    signal and no change, when q is approximately equal to the stored
    quaternion, for the Euler property and for the rotation property; and
    in both classes a repeated call finds it so, and is a no-op, whenever
    the quaternion re-composed from the angles of q is approximately equal
    to q. *)
Theorem setQuaternion_noop_when_approx {RT : Runtime} (n : nat) (w : World)
  (q : Quaterniond) :
  (isApprox (getQuaternion w) q = true ->
   exec (S n) (E_setQuaternion q) w = Done w /\
   exec (S n) (R_setQuaternion q) w = Done w) /\
  ((15 <= n)%nat ->
   isApprox q (recomposed q (eul w)) = true ->
   (exists w1 : World,
      exec n (E_setQuaternion q) w = Done w1 /\
      exec n (E_setQuaternion q) w1 = Done w1) /\
   (rflag w = false ->
    exists w2 : World,
      exec n (R_setQuaternion q) w = Done w2 /\
      exec n (R_setQuaternion q) w2 = Done w2)).
Proof.
  split.
  - apply setQuaternion_returns_early.
  - intros Hn Hq. split.
    + destruct (exec_done n (E_setQuaternion q) w Hn I eq_refl)
        as (w1 & Hx & _ & _ & Hw & _).
      exists w1. split; [exact Hx |].
      destruct n as [| n]; [lia |].
      apply setQuaternion_returns_early.
      unfold getQuaternion. rewrite Hw. now apply setQuaternion_settles.
    + intros Hr.
      destruct (exec_done n (R_setQuaternion q) w Hn Hr eq_refl)
        as (w2 & Hx & _ & _ & Hw & _).
      exists w2. split; [exact Hx |].
      destruct n as [| n]; [lia |].
      apply setQuaternion_returns_early.
      unfold getQuaternion. rewrite Hw. now apply setQuaternion_settles.
Qed.

Lemma setQuaternion_noop_when_approx_witness :
  (isApprox (getQuaternion example_world_half) q_half = true /\
   @exec turn_runtime 15 (E_setQuaternion q_half) example_world_half
   = Done example_world_half /\
   @exec turn_runtime 15 (R_setQuaternion q_half) example_world_half
   = Done example_world_half) /\
  ((15 <= 15)%nat /\
   isApprox q_half (@recomposed turn_runtime q_half (eul example_world))
   = true /\
   rflag example_world = false /\
   isApprox (getQuaternion example_world) q_half = false /\
   (exists w1 : World,
      @exec turn_runtime 15 (E_setQuaternion q_half) example_world = Done w1 /\
      @exec turn_runtime 15 (E_setQuaternion q_half) w1 = Done w1) /\
   (exists w2 : World,
      @exec turn_runtime 15 (R_setQuaternion q_half) example_world = Done w2 /\
      @exec turn_runtime 15 (R_setQuaternion q_half) w2 = Done w2)).
Proof.
  pose proof (@setQuaternion_noop_when_approx turn_runtime 14
                example_world_half q_half) as [H1 _].
  pose proof (@setQuaternion_noop_when_approx turn_runtime 15 example_world
                q_half) as [_ H2].
  assert (A : isApprox (getQuaternion example_world_half) q_half = true)
    by apply isApprox_refl.
  assert (B : isApprox q_half
                (@recomposed turn_runtime q_half (eul example_world)) = true)
    by (rewrite turn_recomposed_half by reflexivity; apply isApprox_refl).
  destruct (H1 A) as [X1 X2].
  destruct (H2 (le_n 15) B) as [Y1 Y2].
  split; [split; [exact A | split; [exact X1 | exact X2]] |].
  split; [lia |]. split; [exact B |]. split; [reflexivity |].
  split; [exact one_not_half |].
  split; [exact Y1 | exact (Y2 eq_refl)].
Defined.

(** C9 fails as stated: there is no decomposition for which every repeated
    [setQuaternion(q)] is silent.  The identity matrix is the matrix of 1
    and of -1; for the one of them that its angles do not compose to, the
    first call stores the re-composed quaternion in place of q, so the
    second call runs again and notifies again. *)
Lemma setQuaternion_twice_notifies_again :
  ~ exists RT : Runtime,
      forall (w w1 : World) (q : Quaterniond),
        reachable w ->
        exec 15 (E_setQuaternion q) w = Done w1 ->
        exec 15 (E_setQuaternion q) w1 = Done w1.
Proof.
  intros [RT H].
  assert (K : forall (w : World) (q : Quaterniond),
             reachable w ->
             isApprox (quaternion_ (eul w)) q = false ->
             isApprox q (recomposed q (eul w)) = false -> False).
  { intros w q Hr A1 A2.
    destruct (exec_done 15 (E_setQuaternion q) w (le_n _) I eq_refl)
      as (w1 & Hx & _ & _ & Hw & _).
    pose proof (H w w1 q Hr Hx) as Hx2.
    destruct (exec_euler 15 _ w1 w1 (le_n _) Hx2 I)
      as (_ & _ & _ & Hl).
    apply appended_self in Hl. simpl in Hl.
    apply (quaternion_signals_not_nil q (eul w1)); [| exact Hl].
    rewrite Hw. simpl. rewrite quaternion_quaternion_set, A1, A2.
    rewrite isApprox_sym. exact A2. }
  destruct reachable_one as (wp & Rp & Cp & Qp).
  destruct reachable_minus_one as (wm & Rm & Cm & Qm).
  assert (F : recomposed q_one (eul wm) = recomposed q_one (eul wp)).
  { unfold recomposed.
    destruct Cp as (_ & _ & _ & -> & ->), Cm as (_ & _ & _ & -> & ->).
    reflexivity. }
  destruct (recomposed_misses_one (eul wp)) as [A | A].
  - apply (K wm q_one Rm).
    + rewrite Qm, isApprox_sym. apply one_not_minus_one.
    + now rewrite F.
  - apply (K wp q_minus_one Rp).
    + rewrite Qp. apply one_not_minus_one.
    + exact A.
Qed.

(** ** The quaternion-changed notification *)

Section Notification.

Context {RT : Runtime}.

Lemma news_appended (w w' : World) (l : list Signal) :
  appended w w' l -> euler_signals (news w w') = l.
Proof.
  intros (s & Hs & <-). unfold news. rewrite Hs.
  rewrite skipn_app, skipn_all, Nat.sub_diag. reflexivity.
Qed.

Lemma notified_euler_signals (l : list Signal) :
  notified (euler_signals l) <-> notified l.
Proof.
  unfold notified, euler_signals. split; intros [q H]; exists q.
  - apply filter_In in H. apply H.
  - apply filter_In. split; [exact H | reflexivity].
Qed.

Lemma notified_news (w w' : World) (l : list Signal) :
  appended w w' l -> (notified (news w w') <-> notified l).
Proof.
  intros H. rewrite <- (news_appended w w' l H).
  symmetry. apply notified_euler_signals.
Qed.

Lemma notified_angles_signals (euler : Vector3d) (e : EulerProperty) :
  notified (angles_signals euler e) <->
  isApprox (quaternion_ e) (compose (fixed_ e) (axes_ e) euler) = false.
Proof.
  unfold notified, angles_signals. cbv zeta.
  destruct (isApprox _ _); simpl; split.
  - intros [q [H | [H | []]]]; discriminate.
  - discriminate.
  - reflexivity.
  - intros _. eexists. right. left. reflexivity.
Qed.

Lemma not_notified_nil : ~ notified [].
Proof. intros [q []]. Qed.

(** [setEulerAngles(euler, false)]: notified exactly when replaced. *)
Lemma angles_notified (euler : Vector3d) (e : EulerProperty) :
  notified (angles_signals euler e) <->
  isApprox (quaternion_ e) (quaternion_ (angles_applied euler e)) = false.
Proof.
  rewrite notified_angles_signals, quaternion_angles_applied.
  destruct (isApprox (quaternion_ e) (compose _ _ euler)) eqn:A.
  - rewrite isApprox_refl. reflexivity.
  - rewrite A. reflexivity.
Qed.

Lemma axes_notified (s : string) (e : EulerProperty) :
  notified (axes_signals s e) <->
  isApprox (quaternion_ e) (quaternion_ (axes_set s e)) = false.
Proof.
  unfold axes_signals, axes_set.
  destruct (String.eqb _ _).
  { rewrite isApprox_refl. split; [intros H; now apply not_notified_nil in H
                                  | discriminate]. }
  destruct (AxisSpec.parse s) as [msg | [fixed axes]].
  { rewrite isApprox_refl. split; [intros H; now apply not_notified_nil in H
                                  | discriminate]. }
  unfold update_signals, angles_updated.
  apply (angles_notified _
           (with_axes s fixed axes
              (map (fun a => nth a xyzNames ""%string) axes) e)).
Qed.

Lemma quaternion_notified (q : Quaterniond) (e : EulerProperty) :
  notified (quaternion_signals q e) <->
  isApprox (quaternion_ e) q = false /\
  isApprox q (quaternion_ (quaternion_set q e)) = false.
Proof.
  unfold quaternion_signals, quaternion_set.
  destruct (isApprox (quaternion_ e) q) eqn:A.
  { split; [intros H; now apply not_notified_nil in H | intros [H _]; discriminate]. }
  unfold update_signals, angles_updated.
  rewrite (angles_notified _ (with_quaternion q e)). simpl. tauto.
Qed.

End Notification.

(** When [setQuaternion(q)] emits the signal. *)
Lemma setQuaternion_notified {RT : Runtime} (n : nat) (q : Quaterniond)
  (w w' : World) :
  (15 <= n)%nat -> exec n (E_setQuaternion q) w = Done w' ->
  (notified (news w w') <->
   isApprox (quaternion_ (eul w)) q = false /\
   isApprox q (quaternion_ (eul w')) = false).
Proof.
  intros Hn Hx.
  destruct (exec_euler n _ w w' Hn Hx I) as (_ & _ & Hw & Hl).
  etransitivity; [exact (notified_news w w' _ Hl) |]. rewrite Hw.
  apply quaternion_notified.
Qed.

(** When the signal is emitted, call by call: within
    [setEulerAngles(euler, false)], [updateAngles()] and
    [setEulerAxes(spec)] exactly when the stored quaternion is replaced,
    and then the new value is not approximately equal to the old one;
    within [setQuaternion(q)] and [setEulerAngles(euler, true)] exactly when
    q was not approximately equal to the stored quaternion and the
    quaternion re-composed from the angles of q, not approximately equal to
    q, is stored in its place.  Every one of these calls returns, or throws
    with nothing emitted and nothing changed. *)
Lemma quaternionChanged_when_replaced {RT : Runtime} (n : nat)
  (o : Operation) (w : World) :
  (15 <= n)%nat ->
  ((exists w' : World, exec n (call_of o) w = Done w') \/
   (exists msg : string, exec n (call_of o) w = Raised msg w)) /\
  (forall w' : World,
     exec n (call_of o) w = Done w' ->
     match o with
     | SetEulerAngles _ false | SetAxes _ | UpdateAngles =>
         notified (news w w') <->
         isApprox (quaternion_ (eul w)) (quaternion_ (eul w')) = false
     | SetQuaternion q =>
         notified (news w w') <->
         isApprox (quaternion_ (eul w)) q = false /\
         isApprox q (quaternion_ (eul w')) = false
     | SetEulerAngles euler true =>
         let q := compose (fixed_ (eul w)) (axes_ (eul w)) euler in
         notified (news w w') <->
         isApprox (quaternion_ (eul w)) q = false /\
         isApprox q (quaternion_ (eul w')) = false
     end).
Proof.
  intros Hn. split.
  - assert (He : entry_ok (call_of o) w) by (destruct o; exact I).
    pose proof (exec_total n (call_of o) w Hn He) as S.
    destruct (exec n (call_of o) w) as [w' | msg w' |]; simpl in S.
    + left. now exists w'.
    + right. exists msg. destruct S as [_ ->]. reflexivity.
    + contradiction.
  - intros w' Hx.
    destruct o as [q | euler [] | s |];
      destruct (exec_euler n _ w w' Hn Hx I) as (_ & _ & Hw & Hl);
      cbv beta iota zeta;
      (etransitivity; [exact (notified_news w w' _ Hl) |]); rewrite Hw; simpl.
    + apply quaternion_notified.
    + apply quaternion_notified.
    + apply angles_notified.
    + apply axes_notified.
    + unfold update_signals, angles_updated. apply angles_notified.
Qed.

(** The signal does not follow the stored quaternion through
    [setQuaternion]: whatever the decomposition, some call either stores a quaternion that differs from the old one
    beyond tolerance without the signal (q is stored silently and its
    angles compose back to it), or emits the signal although the stored
    value ends as it began (the re-composed quaternion was stored before
    and is stored again). *)
Lemma setQuaternion_notification_mismatch :
  ~ exists RT : Runtime,
      forall (w w' : World) (q : Quaterniond),
        reachable w ->
        exec 15 (E_setQuaternion q) w = Done w' ->
        (notified (news w w') <->
         isApprox (quaternion_ (eul w)) (quaternion_ (eul w')) = false).
Proof.
  intros [RT H].
  destruct reachable_minus_one as (wm & Rm & Cm & Qm).
  assert (Am : isApprox (quaternion_ (eul wm)) q_one = false)
    by (rewrite Qm, isApprox_sym; apply one_not_minus_one).
  destruct (reachable_step (E_setQuaternion q_one) wm Rm
              (public_E_setQuaternion _) I eq_refl)
    as (w1 & Hx1 & R1 & _ & _ & Hw1 & _).
  simpl in Hw1.
  pose proof (setQuaternion_notified 15 _ wm w1 (le_n _) Hx1) as T1.
  pose proof (H wm w1 q_one Rm Hx1) as S1.
  assert (Q1 : quaternion_ (eul w1) =
               if isApprox q_one (recomposed q_one (eul wm)) then q_one
               else recomposed q_one (eul wm)).
  { rewrite Hw1, quaternion_quaternion_set, Am. reflexivity. }
  destruct (isApprox q_one (recomposed q_one (eul wm))) eqn:A.
  - (* q = 1 is stored in place of -1, silently *)
    rewrite Q1 in T1, S1. rewrite isApprox_refl in T1. rewrite Am in S1.
    destruct S1 as [_ S1]. apply T1 in S1; [| reflexivity].
    destruct S1 as [_ S1]. discriminate.
  - (* the re-composed quaternion is stored, and stored again *)
    destruct (reachable_step (E_setQuaternion q_one) w1 R1
                (public_E_setQuaternion _) I eq_refl)
      as (w2 & Hx2 & R2 & _ & _ & Hw2 & _).
    simpl in Hw2.
    pose proof (setQuaternion_notified 15 _ w1 w2 (le_n _) Hx2) as T2.
    pose proof (H w1 w2 q_one R1 Hx2) as S2.
    assert (F : recomposed q_one (eul w1) = recomposed q_one (eul wm)).
    { unfold recomposed.
      destruct (frame_fields _ _ (frame_quaternion_set q_one (eul wm)))
        as (_ & F1 & F2 & _).
      rewrite Hw1, F1, F2. reflexivity. }
    assert (A1 : isApprox (quaternion_ (eul w1)) q_one = false)
      by (rewrite Q1, isApprox_sym; exact A).
    assert (Q2 : quaternion_ (eul w2) = quaternion_ (eul w1)).
    { rewrite Hw2, quaternion_quaternion_set, A1, F, A. symmetry. exact Q1. }
    rewrite Q2, isApprox_refl in S2.
    assert (N : notified (news w1 w2)).
    { apply T2. split; [exact A1 |]. rewrite Q2, Q1. exact A. }
    apply S2 in N. discriminate.
Qed.

(** ** setEulerAxes *)

Section AxesEffect.

Context {RT : Runtime}.

Lemma euler_angles_applied (euler : Vector3d) (e : EulerProperty) :
  ignore_child_updates_ e = false ->
  euler_ (angles_applied euler e) = degrees euler.
Proof.
  intros H. unfold angles_applied. cbv zeta. rewrite H. simpl.
  destruct (isApprox _ _); reflexivity.
Qed.

End AxesEffect.

(** A valid spec other than the current one. *)
Lemma setEulerAxes_valid {RT : Runtime} (n : nat) (w : World) (s : string)
  (fixed : bool) (axes : list nat) :
  (15 <= n)%nat ->
  axes_string_ (eul w) <> s -> AxisSpec.parse s = inr (fixed, axes) ->
  eflag w = false ->
  exists w' : World,
    exec n (E_setEulerAxes s) w = Done w' /\
    axes_string_ (eul w') = s /\ fixed_ (eul w') = fixed /\
    axes_ (eul w') = axes /\
    euler_ (eul w') = degrees (decompose fixed axes (quaternion_ (eul w))) /\
    quaternion_ (eul w') =
    let q' := compose fixed axes
                (decompose fixed axes (quaternion_ (eul w))) in
    if isApprox (quaternion_ (eul w)) q' then quaternion_ (eul w) else q'.
Proof.
  intros Hn Hs Hp He. apply String.eqb_neq in Hs.
  assert (Hr : raises (E_setEulerAxes s) (eul w) = None)
    by (simpl; now rewrite Hs, Hp).
  destruct (exec_done n (E_setEulerAxes s) w Hn I Hr)
    as (w' & Hx & _ & _ & Hw & _).
  exists w'. split; [exact Hx |]. rewrite Hw. simpl.
  unfold axes_set. rewrite Hs, Hp.
  set (e1 := with_axes s fixed axes
               (map (fun a => nth a xyzNames ""%string) axes) (eul w)).
  destruct (frame_fields _ _ (frame_angles_updated e1)) as (-> & -> & -> & _).
  repeat split.
  - unfold angles_updated. apply euler_angles_applied. exact He.
  - rewrite quaternion_angles_updated. reflexivity.
Qed.

(** C7 fails as stated: there is no decomposition for which every change
    to a valid axis spec keeps the stored quaternion, even within
    tolerance.  With the axes "rpy" and the stored quaternion 1 or -1 (the
    angles 0 or 360 degrees about x), the change to "rxyz" decomposes the
    identity matrix either way and stores what its angles compose to, which
    is not approximately equal to both. *)
Lemma setEulerAxes_replaces_quaternion :
  ~ exists RT : Runtime,
      forall (w w' : World) (s : string) (fixed : bool) (axes : list nat),
        reachable w ->
        AxisSpec.expected s = Some (fixed, axes) ->
        axes_string_ (eul w) <> s ->
        exec 15 (E_setEulerAxes s) w = Done w' ->
        isApprox (quaternion_ (eul w)) (quaternion_ (eul w')) = true.
Proof.
  intros [RT H].
  set (c := compose false [0; 1; 2]%nat
              (decompose false [0; 1; 2]%nat q_one)).
  assert (K : forall (w : World) (q : Quaterniond),
             reachable w -> constructed w -> quaternion_ (eul w) = q ->
             matrix q = matrix q_one -> isApprox q c = true).
  { intros w q Hr Hc Hq Hm.
    assert (Hs : axes_string_ (eul w) <> "rxyz"%string)
      by (destruct Hc as (_ & _ & -> & _); discriminate).
    destruct (setEulerAxes_valid 15 w "rxyz" false [0; 1; 2]%nat (le_n _)
                Hs eq_refl (proj1 Hc))
      as (w' & Hx & _ & _ & _ & _ & Hq').
    pose proof (H w w' "rxyz"%string false [0; 1; 2]%nat Hr eq_refl Hs Hx) as A.
    rewrite Hq' in A. cbv zeta in A. rewrite Hq in A.
    rewrite (decompose_matrix _ _ _ _ Hm) in A. fold c in A.
    destruct (isApprox q c) eqn:B; [reflexivity | congruence]. }
  destruct reachable_one as (wp & Rp & Cp & Qp).
  destruct reachable_minus_one as (wm & Rm & Cm & Qm).
  pose proof (K wp q_one Rp Cp Qp eq_refl) as A1.
  pose proof (K wm q_minus_one Rm Cm Qm matrix_minus_one) as A2.
  rewrite isApprox_sym in A1, A2.
  destruct (one_or_minus_one c); congruence.
Qed.

(** ** Free-text edits and persisted state *)

(** C6, as the code has it.  An axis token that is not a valid spec
    rejects the edit with the state as it was, and no exception leaves
    [setValue].  Without an axis token, fewer than three ';'-separated
    values or a first, second or third value that is not a number reject
    the edit with the state as it was; three or more values of which the
    first three are numbers are applied by [setEulerAngles(euler, false)].
    With a valid axis token the axes are changed first, by
    [setEulerAxes], and the rest of the string is then treated in the same
    way from the changed state. *)
Theorem setValue_effect {RT : Runtime} (n : nat) (w : World) (s : string) :
  (15 <= n)%nat ->
  (forall (cap1 : string) (len : nat) (msg : string),
     Text.indexIn s = Some (cap1, len) ->
     axes_string_ (eul w) <> cap1 -> AxisSpec.parse cap1 = inl msg ->
     EulerProperty_setValue n s w = ReturnsFalse w) /\
  (forall (cap1 : string) (len : nat),
     Text.indexIn s = Some (cap1, len) ->
     raises (E_setEulerAxes cap1) (eul w) = None ->
     exists w1 : World,
       exec n (E_setEulerAxes cap1) w = Done w1 /\
       eul w1 = axes_set cap1 (eul w) /\
       EulerProperty_setValue n s w = setValue_angles n (Text.mid s len) w1) /\
  (Text.indexIn s = None ->
   EulerProperty_setValue n s w = setValue_angles n s w) /\
  (forall t : string,
     ((List.length (Text.split ";" t) < 3)%nat \/
      exists i : nat, (i < 3)%nat /\
                      toDouble (nth i (Text.split ";" t) ""%string) = None) ->
     setValue_angles n t w = ReturnsFalse w) /\
  (forall (t : string) (d0 d1 d2 : R),
     (3 <= List.length (Text.split ";" t))%nat ->
     toDouble (nth 0 (Text.split ";" t) ""%string) = Some d0 ->
     toDouble (nth 1 (Text.split ";" t) ""%string) = Some d1 ->
     toDouble (nth 2 (Text.split ";" t) ""%string) = Some d2 ->
     exists w' : World,
       state_after (setValue_angles n t w) = Some w' /\
       exec n (E_setEulerAngles (radians (Vec3 d0 d1 d2)) false) w = Done w' /\
       eul w' = angles_applied (radians (Vec3 d0 d1 d2)) (eul w)) /\
  (forall (msg : string) (w' : World),
     EulerProperty_setValue n s w <> Propagates msg w').
Proof.
  intros Hn.
  assert (P : forall (t : string) (w0 : World) (msg : string) (w' : World),
             setValue_angles n t w0 <> Propagates msg w').
  { intros t w0 msg w'. unfold setValue_angles.
    destruct (_ <? 3)%nat; [discriminate |].
    destruct (toDouble _); [| discriminate].
    destruct (toDouble _); [| discriminate].
    destruct (toDouble _); [| discriminate].
    match goal with
    | |- context [exec n ?c w0] =>
        destruct (exec_done n c w0 Hn I eq_refl) as (w1 & -> & _)
    end.
    discriminate. }
  split; [| split; [| split; [| split; [| split]]]].
  - intros cap1 len msg Hi Hs Hp. unfold EulerProperty_setValue. rewrite Hi.
    rewrite (exec_raised n (E_setEulerAxes cap1) w msg Hn I); [reflexivity |].
    simpl. apply String.eqb_neq in Hs. now rewrite Hs, Hp.
  - intros cap1 len Hi Hr.
    destruct (exec_done n (E_setEulerAxes cap1) w Hn I Hr)
      as (w1 & Hx & _ & _ & Hw & _).
    exists w1. split; [exact Hx |]. split; [exact Hw |].
    unfold EulerProperty_setValue. now rewrite Hi, Hx.
  - intros Hi. unfold EulerProperty_setValue. now rewrite Hi.
  - intros t [Hl | (i & Hi & Hd)]; unfold setValue_angles.
    + apply Nat.ltb_lt in Hl. now rewrite Hl.
    + destruct (_ <? 3)%nat; [reflexivity |].
      destruct i as [| [| [| i]]]; [| | | lia].
      * now rewrite Hd.
      * rewrite Hd.
        now destruct (toDouble (nth 0 (Text.split ";" t) ""%string)).
      * rewrite Hd.
        destruct (toDouble (nth 0 (Text.split ";" t) ""%string));
          [| reflexivity].
        now destruct (toDouble (nth 1 (Text.split ";" t) ""%string)).
  - intros t d0 d1 d2 Hl H0 H1 H2.
    destruct (exec_done n (E_setEulerAngles (radians (Vec3 d0 d1 d2)) false)
                w Hn I eq_refl) as (w' & Hx & _ & _ & Hw & _).
    exists w'. unfold setValue_angles.
    apply Nat.ltb_ge in Hl. rewrite Hl, H0, H1, H2.
    change (Vec3 (angles.from_degrees d0) (angles.from_degrees d1)
                 (angles.from_degrees d2)) with (radians (Vec3 d0 d1 d2)).
    rewrite Hx. repeat split; [exact Hw].
  - intros msg w'. unfold EulerProperty_setValue.
    destruct (Text.indexIn s) as [[cap1 len] |]; [| apply P].
    destruct (exec n (E_setEulerAxes cap1) w); [apply P | discriminate..].
Qed.

Lemma setValue_effect_witness :
  (15 <= 15)%nat /\
  (Text.indexIn "bad: 1;2;3" = Some ("bad"%string, 4%nat) /\
   axes_string_ (eul example_world) <> "bad"%string /\
   AxisSpec.parse "bad" = inl (AxisSpec.invalid_axes_char "b") /\
   @EulerProperty_setValue example_runtime 15 "bad: 1;2;3" example_world
   = ReturnsFalse example_world) /\
  (Text.indexIn "10; 20" = None /\
   (List.length (Text.split ";" "10; 20") < 3)%nat /\
   @EulerProperty_setValue example_runtime 15 "10; 20" example_world
   = ReturnsFalse example_world) /\
  (Text.indexIn "10; 20; 30" = None /\
   exists w' : World,
     state_after
       (@EulerProperty_setValue example_runtime 15 "10; 20; 30" example_world)
     = Some w' /\
     eul w' = @angles_applied example_runtime
                (radians (Vec3 (INR 10) (INR 20) (INR 30)))
                (eul example_world)) /\
  (Text.indexIn "1;2;3;4" = None /\
   (3 <= List.length (Text.split ";" "1;2;3;4"))%nat /\
   exists w' : World,
     state_after
       (@EulerProperty_setValue example_runtime 15 "1;2;3;4" example_world)
     = Some w' /\
     eul w' = @angles_applied example_runtime
                (radians (Vec3 (INR 1) (INR 2) (INR 3)))
                (eul example_world)).
Proof.
  destruct (@setValue_effect example_runtime 15 example_world "bad: 1;2;3"
              (le_n 15)) as (H1 & _).
  destruct (@setValue_effect example_runtime 15 example_world "10; 20"
              (le_n 15)) as (_ & _ & H2 & H3 & _).
  destruct (@setValue_effect example_runtime 15 example_world "10; 20; 30"
              (le_n 15)) as (_ & _ & H4 & _ & H5 & _).
  destruct (@setValue_effect example_runtime 15 example_world "1;2;3;4"
              (le_n 15)) as (_ & _ & H6 & _ & H7 & _).
  assert (N : axes_string_ (eul example_world) <> "bad"%string)
    by discriminate.
  split; [lia |].
  split.
  { split; [reflexivity |]. split; [exact N |]. split; [reflexivity |].
    exact (H1 "bad"%string 4%nat _ eq_refl N eq_refl). }
  split.
  { split; [reflexivity |]. split; [vm_compute; lia |].
    rewrite (H2 eq_refl). apply H3. left. vm_compute. lia. }
  split.
  { split; [reflexivity |].
    rewrite (H4 eq_refl).
    destruct (H5 "10; 20; 30"%string (INR 10) (INR 20) (INR 30))
      as (w' & S & _ & E);
      [vm_compute; lia | reflexivity | reflexivity | reflexivity |].
    exists w'. split; assumption. }
  split; [reflexivity |]. split; [vm_compute; lia |].
  rewrite (H6 eq_refl).
  destruct (H7 "1;2;3;4"%string (INR 1) (INR 2) (INR 3))
    as (w' & S & _ & E);
    [vm_compute; lia | reflexivity | reflexivity | reflexivity |].
  exists w'. split; assumption.
Defined.

(** C6 fails as stated: "xyz: 1;2" has only two values and is rejected,
    but by then [setEulerAxes("xyz")] has run, so a property whose axes
    were "rpy" is left with the axes "xyz". *)
Lemma setValue_rejected_edit_changes_axes :
  ~ exists RT : Runtime,
      forall w : World,
        reachable w ->
        EulerProperty_setValue 15 "xyz: 1;2" w = ReturnsFalse w.
Proof.
  intros [RT H].
  destruct (new_world q_one) as (w0 & H0 & C0).
  pose proof (reachable_new 6 q_one w0 H0) as R0.
  pose proof (H w0 R0) as E.
  assert (Hs : axes_string_ (eul w0) <> "xyz"%string)
    by (destruct C0 as (_ & _ & -> & _); discriminate).
  destruct (setEulerAxes_valid 15 w0 "xyz" false [0; 1; 2]%nat (le_n _)
              Hs eq_refl (proj1 C0))
    as (w1 & Hx & Hs1 & _).
  unfold EulerProperty_setValue in E.
  change (Text.indexIn "xyz: 1;2") with (Some ("xyz"%string, 4%nat)) in E.
  cbv iota beta in E. rewrite Hx in E.
  change (setValue_angles 15 (Text.mid "xyz: 1;2" 4) w1)
    with (ReturnsFalse w1) in E.
  injection E as ->. destruct C0 as (_ & _ & C0 & _). congruence.
Qed.

(** All four keys are there and the axes string is not a valid spec. *)
Lemma load_invalid_axes {RT : Runtime} (n : nat) (w : World) (config : Config)
  (axes : string) (e1 e2 e3 : R) (msg : string) :
  (15 <= n)%nat ->
  mapGetString config "axes" = Some axes ->
  mapGetFloat config "e1" = Some e1 ->
  mapGetFloat config "e2" = Some e2 ->
  mapGetFloat config "e3" = Some e3 ->
  raises (E_setEulerAxes axes) (eul w) = Some msg ->
  EulerProperty_load n config w = Raised msg w.
Proof.
  intros Hn Ha H1 H2 H3 Hr. unfold EulerProperty_load.
  rewrite Ha, H1, H2, H3. unfold andThen.
  now rewrite (exec_raised n (E_setEulerAxes axes) w msg Hn I Hr).
Qed.

(** C8, as the code has it.  When one of the keys axes, e1, e2, e3 is
    missing or does not convert, [load] changes nothing and raises
    nothing.  When all four are there and the axes string is not a valid
    spec, the [invalid_axes] of [setEulerAxes] leaves [load], with the
    state as it was.  Otherwise the axes are set first and then the three
    angles in one [setEulerAngles(e1, e2, e3, true)]. *)
Theorem load_effect {RT : Runtime} (n : nat) (w : World) (config : Config) :
  (15 <= n)%nat ->
  ((mapGetString config "axes" = None \/ mapGetFloat config "e1" = None \/
    mapGetFloat config "e2" = None \/ mapGetFloat config "e3" = None) ->
   EulerProperty_load n config w = Done w) /\
  (forall (axes : string) (e1 e2 e3 : R),
     mapGetString config "axes" = Some axes ->
     mapGetFloat config "e1" = Some e1 ->
     mapGetFloat config "e2" = Some e2 ->
     mapGetFloat config "e3" = Some e3 ->
     (forall msg : string,
        raises (E_setEulerAxes axes) (eul w) = Some msg ->
        EulerProperty_load n config w = Raised msg w) /\
     (raises (E_setEulerAxes axes) (eul w) = None ->
      exists w1 w2 : World,
        exec n (E_setEulerAxes axes) w = Done w1 /\
        exec n (E_setEulerAngles (radians (Vec3 e1 e2 e3)) true) w1 = Done w2 /\
        EulerProperty_load n config w = Done w2 /\
        eul w1 = axes_set axes (eul w) /\
        eul w2 = quaternion_set
                   (compose (fixed_ (eul w1)) (axes_ (eul w1))
                            (radians (Vec3 e1 e2 e3))) (eul w1))).
Proof.
  intros Hn. split.
  - unfold EulerProperty_load.
    intros [H | [H | [H | H]]];
      repeat match goal with
      | |- context [match ?x with Some _ => _ | None => _ end] =>
          destruct x; try discriminate
      end; reflexivity.
  - intros axes e1 e2 e3 Ha H1 H2 H3. split.
    + intros msg Hr. now apply (load_invalid_axes n w config axes e1 e2 e3).
    + unfold EulerProperty_load. rewrite Ha, H1, H2, H3.
      change (Vec3 (angles.from_degrees e1) (angles.from_degrees e2)
                   (angles.from_degrees e3)) with (radians (Vec3 e1 e2 e3)).
      intros Hr.
      destruct (exec_done n (E_setEulerAxes axes) w Hn I Hr)
        as (w1 & Hx1 & _ & _ & Hw1 & _).
      destruct (exec_done n (E_setEulerAngles (radians (Vec3 e1 e2 e3)) true)
                  w1 Hn I eq_refl) as (w2 & Hx2 & _ & _ & Hw2 & _).
      exists w1, w2. unfold andThen. rewrite Hx1, Hx2. auto.
Qed.

Lemma load_effect_witness :
  (15 <= 15)%nat /\
  (mapGetString [("e1"%string, VDouble 30)] "axes" = None /\
   @EulerProperty_load example_runtime 15 [("e1"%string, VDouble 30)]
     example_world = Done example_world) /\
  (mapGetString bad_axes_config "axes" = Some "abc"%string /\
   @mapGetFloat example_runtime bad_axes_config "e1" = Some 0 /\
   @mapGetFloat example_runtime bad_axes_config "e2" = Some 0 /\
   @mapGetFloat example_runtime bad_axes_config "e3" = Some 0 /\
   raises (E_setEulerAxes "abc") (eul example_world)
   = Some (AxisSpec.invalid_axes_char "a") /\
   @EulerProperty_load example_runtime 15 bad_axes_config example_world
   = Raised (AxisSpec.invalid_axes_char "a") example_world).
Proof.
  destruct (@load_effect example_runtime 15 example_world
              [("e1"%string, VDouble 30)] (le_n 15)) as (H1 & _).
  destruct (@load_effect example_runtime 15 example_world bad_axes_config
              (le_n 15)) as (_ & H2).
  split; [lia |].
  split; [split; [reflexivity | apply H1; now left] |].
  split; [reflexivity |]. split; [reflexivity |]. split; [reflexivity |].
  split; [reflexivity |]. split; [reflexivity |].
  destruct (H2 "abc"%string 0 0 0 eq_refl eq_refl eq_refl eq_refl) as [H _].
  apply H. reflexivity.
Defined.

(** C8 fails as stated for a malformed axes value: with the key axes
    holding "abc" and three numbers, [load] does not return normally; the
    [invalid_axes] of [setEulerAxes] reaches the caller. *)
Lemma load_raises_on_invalid_axes :
  ~ exists RT : Runtime,
      forall w : World,
        reachable w -> EulerProperty_load 15 bad_axes_config w = Done w.
Proof.
  intros [RT H].
  destruct (new_world q_one) as (w0 & H0 & C0).
  pose proof (reachable_new 6 q_one w0 H0) as R0.
  pose proof (H w0 R0) as E.
  rewrite (load_invalid_axes 15 w0 bad_axes_config "abc" 0 0 0
             (AxisSpec.invalid_axes_char "a") (le_n _)) in E;
    try reflexivity; [discriminate |].
  simpl. destruct C0 as (_ & _ & -> & _). reflexivity.
Qed.

(** ** The suppression flags *)

(** C10: when both [ignore_child_updates_] flags are clear before a call,
    they are clear again when it returns or throws, and the call does
    return or throw: for every call of the two classes, for an edit of an
    angle field or of the quaternion field, for [setValue] and for [load];
    a newly constructed property has them clear. *)
Theorem suppression_flags_cleared {RT : Runtime} (n : nat) (w : World) :
  (15 <= n)%nat -> eflag w = false -> rflag w = false ->
  (forall c : Call,
     exists w' : World,
       (exec n c w = Done w' \/ exists msg, exec n c w = Raised msg w') /\
       eflag w' = false /\ rflag w' = false) /\
  (forall s : string,
     exists w' : World,
       state_after (EulerProperty_setValue n s w) = Some w' /\
       eflag w' = false /\ rflag w' = false) /\
  (forall config : Config,
     exists w' : World,
       (RotationProperty_load n config w = Done w' \/
        exists msg, RotationProperty_load n config w = Raised msg w') /\
       eflag w' = false /\ rflag w' = false) /\
  (forall value : Quaterniond,
     exists w' : World,
       RotationProperty_new 6 value = Done w' /\
       eflag w' = false /\ rflag w' = false).
Proof.
  intros Hn He Hr.
  assert (K : forall (c : Call) (w0 : World),
             eflag w0 = false -> rflag w0 = false ->
             exists w' : World,
               (exec n c w0 = Done w' \/ exists msg, exec n c w0 = Raised msg w')
               /\ eflag w' = false /\ rflag w' = false).
  { intros c w0 He0 Hr0.
    assert (Hen : entry_ok c w0) by (destruct c; simpl; auto).
    pose proof (exec_total n c w0 Hn Hen) as S.
    destruct (exec n c w0) as [w' | msg w' |]; simpl in S.
    - destruct S as (_ & Fe & Fr & _). exists w'.
      split; [now left |]. split; congruence.
    - destruct S as (_ & ->). exists w0. split; [right; now exists msg |].
      now split.
    - contradiction. }
  split; [intros c; now apply K |]. split; [| split].
  - intros s.
    assert (A : forall (t : string) (w0 : World),
               eflag w0 = false -> rflag w0 = false ->
               exists w' : World,
                 state_after (setValue_angles n t w0) = Some w' /\
                 eflag w' = false /\ rflag w' = false).
    { intros t w0 He0 Hr0. unfold setValue_angles.
      destruct (_ <? 3)%nat; [now exists w0 |].
      destruct (toDouble _) as [d0 |]; [| now exists w0].
      destruct (toDouble _) as [d1 |]; [| now exists w0].
      destruct (toDouble _) as [d2 |]; [| now exists w0].
      match goal with
      | |- context [exec n ?c w0] =>
          destruct (K c w0 He0 Hr0) as (w' & [X | [msg X]] & F)
      end; rewrite X; now exists w'. }
    unfold EulerProperty_setValue.
    destruct (Text.indexIn s) as [[cap1 len] |]; [| now apply A].
    destruct (K (E_setEulerAxes cap1) w He Hr) as (w' & [X | [msg X]] & Fe & Fr);
      rewrite X; [now apply A | now exists w'].
  - intros config. unfold RotationProperty_load, EulerProperty_load.
    destruct (mapGetString _ _); [| now exists w; split; [left |]].
    destruct (mapGetFloat _ _); [| now exists w; split; [left |]].
    destruct (mapGetFloat _ _); [| now exists w; split; [left |]].
    destruct (mapGetFloat _ _); [| now exists w; split; [left |]].
    unfold andThen.
    destruct (K (E_setEulerAxes s) w He Hr) as (w1 & [X | [msg X]] & Fe & Fr);
      rewrite X.
    + match goal with
      | |- context [exec n ?c w1] => exact (K c w1 Fe Fr)
      end.
    + exists w1. split; [right; now exists msg | now split].
  - intros value. destruct (new_world value) as (w' & X & F & G & _).
    now exists w'.
Qed.

Lemma suppression_flags_cleared_witness :
  ((15 <= 15)%nat /\ eflag example_world = false /\
   rflag example_world = false) /\
  exists w' : World,
    (@exec example_runtime 15 (R_setQuaternion q_minus_one) example_world
     = Done w' \/
     exists msg,
       @exec example_runtime 15 (R_setQuaternion q_minus_one) example_world
       = Raised msg w') /\
    eflag w' = false /\ rflag w' = false.
Proof.
  split; [split; [lia | split; reflexivity] |].
  destruct (@suppression_flags_cleared example_runtime 15 example_world
              (le_n 15) eq_refl eq_refl) as (H & _).
  exact (H (R_setQuaternion q_minus_one)).
Defined.

(** ** Composition of rotations *)

Lemma double_half (a : R) : a = 2 * (0.5 * a).
Proof. lra. Qed.

Lemma sin2_cos2' (x : R) : sin x * sin x + cos x * cos x = 1.
Proof. pose proof (sin2_cos2 x) as H. unfold Rsqr in H. exact H. Qed.

Lemma squaredNorm_AngleAxisd (i : nat) (a : R) :
  (i < 3)%nat -> squaredNorm (AngleAxisd a (Unit i)) = 1.
Proof.
  intros Hi. pose proof (sin2_cos2' (0.5 * a)) as H.
  destruct i as [| [| [| i]]]; [| | | lia];
    unfold squaredNorm, AngleAxisd, Unit; simpl; nra.
Qed.

Lemma squaredNorm_qmul (a b : Quaterniond) :
  squaredNorm (qmul a b) = squaredNorm a * squaredNorm b.
Proof. unfold squaredNorm, qmul. simpl. ring. Qed.

Lemma matrix_unit (q : Quaterniond) :
  squaredNorm q = 1 -> matrix q = homogeneous q.
Proof.
  unfold squaredNorm, matrix, homogeneous. intros H. cbv zeta.
  f_equal; nra.
Qed.

Lemma homogeneous_qmul (a b : Quaterniond) :
  homogeneous (qmul a b) = mmul (homogeneous a) (homogeneous b).
Proof. unfold homogeneous, qmul, mmul. simpl. f_equal; ring. Qed.

Lemma matrix_qmul (a b : Quaterniond) :
  squaredNorm a = 1 -> squaredNorm b = 1 ->
  matrix (qmul a b) = mmul (matrix a) (matrix b).
Proof.
  intros Ha Hb.
  rewrite (matrix_unit a Ha), (matrix_unit b Hb), <- homogeneous_qmul.
  apply matrix_unit. rewrite squaredNorm_qmul, Ha, Hb. ring.
Qed.

(** The quaternion of an angle about a basis axis is the right-handed
    rotation by that angle about that axis. *)
Lemma matrix_AngleAxisd (i : nat) (a : R) :
  (i < 3)%nat -> matrix (AngleAxisd a (Unit i)) = Rot i a.
Proof.
  intros Hi.
  pose proof (sin2_cos2' (0.5 * a)) as H.
  pose proof (cos_2a (0.5 * a)) as Hc. pose proof (sin_2a (0.5 * a)) as Hs.
  rewrite <- (double_half a) in Hc, Hs.
  destruct i as [| [| [| i]]]; [| | | lia];
    unfold matrix, AngleAxisd, Unit, Rot; simpl; rewrite Hc, Hs;
    f_equal; nra.
Qed.

Lemma squaredNorm_compose (fixed : bool) (a0 a1 a2 : nat) (e : Vector3d) :
  (a0 < 3)%nat -> (a1 < 3)%nat -> (a2 < 3)%nat ->
  squaredNorm (compose fixed [a0; a1; a2] e) = 1.
Proof.
  intros H0 H1 H2. unfold compose. simpl.
  destruct fixed; rewrite !squaredNorm_qmul, !squaredNorm_AngleAxisd by assumption;
    ring.
Qed.

Lemma matrix_compose (fixed : bool) (a0 a1 a2 : nat) (e : Vector3d) :
  (a0 < 3)%nat -> (a1 < 3)%nat -> (a2 < 3)%nat ->
  matrix (compose fixed [a0; a1; a2] e) =
  if fixed then mmul (mmul (Rot a2 (v2 e)) (Rot a1 (v1 e))) (Rot a0 (v0 e))
  else mmul (mmul (Rot a0 (v0 e)) (Rot a1 (v1 e))) (Rot a2 (v2 e)).
Proof.
  intros H0 H1 H2. unfold compose. simpl.
  destruct fixed;
    rewrite !matrix_qmul, !matrix_AngleAxisd;
    rewrite ?squaredNorm_qmul, ?squaredNorm_AngleAxisd; try assumption;
    try ring; reflexivity.
Qed.

(** C2: the quaternion [setEulerAngles] computes from the angles
    e0, e1, e2 is, as a rotation, R(axis[2], e2) R(axis[1], e1) R(axis[0], e0)
    in the fixed frame and R(axis[0], e0) R(axis[1], e1) R(axis[2], e2) in the
    rotating frame, each R(axis, angle) the right-handed rotation by angle
    about that basis axis; with normalize false it is the quaternion the
    property stores, unless the stored one is approximately equal to it and
    stays. *)
Theorem setEulerAngles_composes_rotations {RT : Runtime} (n : nat) (w : World)
  (a0 a1 a2 : nat) (e : Vector3d) :
  (15 <= n)%nat -> (a0 < 3)%nat -> (a1 < 3)%nat -> (a2 < 3)%nat ->
  axes_ (eul w) = [a0; a1; a2] ->
  let q := compose (fixed_ (eul w)) (axes_ (eul w)) e in
  matrix q =
  (if fixed_ (eul w)
   then mmul (mmul (Rot a2 (v2 e)) (Rot a1 (v1 e))) (Rot a0 (v0 e))
   else mmul (mmul (Rot a0 (v0 e)) (Rot a1 (v1 e))) (Rot a2 (v2 e))) /\
  exists w' : World,
    exec n (E_setEulerAngles e false) w = Done w' /\
    quaternion_ (eul w') =
    if isApprox (quaternion_ (eul w)) q then quaternion_ (eul w) else q.
Proof.
  intros Hn H0 H1 H2 Ha q. subst q. split.
  - rewrite Ha. apply matrix_compose; assumption.
  - destruct (exec_done n (E_setEulerAngles e false) w Hn I eq_refl)
      as (w' & Hx & _ & _ & Hw & _).
    exists w'. split; [exact Hx |].
    rewrite Hw. simpl. apply quaternion_angles_applied.
Qed.

Lemma setEulerAngles_composes_rotations_witness :
  ((15 <= 15)%nat /\ (0 < 3)%nat /\ (1 < 3)%nat /\ (2 < 3)%nat /\
   axes_ (eul example_world) = [0; 1; 2]%nat) /\
  matrix (compose true [0; 1; 2]%nat (Vec3 (PI / 2) 0 0)) =
  mmul (mmul (Rot 2 0) (Rot 1 0)) (Rot 0 (PI / 2)).
Proof.
  split; [repeat split; lia |].
  destruct (@setEulerAngles_composes_rotations example_runtime 15
              example_world 0 1 2 (Vec3 (PI / 2) 0 0) (le_n 15))
    as [H _]; try lia; [reflexivity |].
  exact H.
Defined.

(** ** Decomposing and composing again *)

Lemma radians_degrees (e : Vector3d) : radians (degrees e) = e.
Proof.
  destruct e as [a b c]. unfold radians, degrees, angles.from_degrees,
    angles.to_degrees. simpl.
  pose proof PI_neq0. f_equal; field; assumption.
Qed.

(** Two unit quaternions with the same rotation matrix are equal or
    opposite. *)
Lemma unit_same_matrix (p q : Quaterniond) :
  squaredNorm p = 1 -> squaredNorm q = 1 -> matrix p = matrix q ->
  p = q \/ p = qneg q.
Proof.
  destruct p as [w x y z], q as [w' x' y' z'].
  unfold squaredNorm, matrix, qneg. simpl. intros Hp Hq Hm.
  injection Hm as M00 M01 M02 M10 M11 M12 M20 M21 M22.
  assert (Exx : x * x = x' * x') by nra.
  assert (Eyy : y * y = y' * y') by nra.
  assert (Ezz : z * z = z' * z') by nra.
  assert (Eww : w * w = w' * w') by nra.
  assert (Exy : x * y = x' * y') by nra.
  assert (Ewz : w * z = w' * z') by nra.
  assert (Exz : x * z = x' * z') by nra.
  assert (Ewy : w * y = w' * y') by nra.
  assert (Eyz : y * z = y' * z') by nra.
  assert (Ewx : w * x = w' * x') by nra.
  assert (pick : forall a a' b b' : R,
             a' <> 0 -> a * b = a' * b' ->
             (a = a' -> b = b') /\ (a = - a' -> b = - b')).
  { intros a a' b b' Ha Hab. split; intros ->.
    - apply (Rmult_eq_reg_l a'); assumption.
    - apply (Rmult_eq_reg_l (- a')); [lra | nra]. }
  assert (sq : forall a a' : R, a * a = a' * a' -> a = a' \/ a = - a').
  { intros a a' H. apply Rsqr_eq. exact H. }
  destruct (Req_dec w' 0) as [Zw | Nw].
  - destruct (Req_dec x' 0) as [Zx | Nx].
    + destruct (Req_dec y' 0) as [Zy | Ny].
      * assert (Nz : z' <> 0) by (intros Zz; subst; lra).
        assert (w = 0) by nra. assert (x = 0) by nra. assert (y = 0) by nra.
        subst. destruct (sq _ _ Ezz) as [-> | ->]; [left | right];
          f_equal; lra.
      * destruct (pick y y' z z' Ny Eyz) as [P1 P2].
        assert (w = 0) by nra. assert (x = 0) by nra.
        subst. destruct (sq _ _ Eyy) as [E | E]; [left | right];
          rewrite ?(P1 E), ?(P2 E), E; f_equal; lra.
    + destruct (pick x x' y y' Nx Exy) as [P1 P2].
      destruct (pick x x' z z' Nx Exz) as [P3 P4].
      assert (w = 0) by nra.
      subst. destruct (sq _ _ Exx) as [E | E]; [left | right];
        rewrite ?(P1 E), ?(P2 E), ?(P3 E), ?(P4 E), E; f_equal; lra.
  - destruct (pick w w' x x' Nw Ewx) as [P1 P2].
    destruct (pick w w' y y' Nw Ewy) as [P3 P4].
    destruct (pick w w' z z' Nw Ewz) as [P5 P6].
    destruct (sq _ _ Eww) as [E | E]; [left | right];
      rewrite ?(P1 E), ?(P2 E), ?(P3 E), ?(P4 E), ?(P5 E), ?(P6 E), E;
      reflexivity.
Qed.

Section RoundTrip.

Context {RT : Runtime}.

(** With an exact decomposition, the angles of a unit quaternion compose
    to it or to its negative. *)
Lemma compose_decompose (fixed : bool) (a0 a1 a2 : nat) (q : Quaterniond) :
  (a0 < 3)%nat -> (a1 < 3)%nat -> (a2 < 3)%nat ->
  squaredNorm q = 1 -> decomposition_exact fixed a0 a1 a2 q ->
  let q' := compose fixed [a0; a1; a2] (decompose fixed [a0; a1; a2] q) in
  matrix q' = matrix q /\ (q' = q \/ q' = qneg q).
Proof.
  intros H0 H1 H2 Hq Hx q'.
  assert (Hm : matrix q' = matrix q).
  { subst q'. rewrite matrix_compose by assumption.
    unfold decomposition_exact, exact_at, decompose in *.
    destruct fixed; simpl in *; exact Hx. }
  split; [exact Hm |].
  apply unit_same_matrix; [| exact Hq | exact Hm].
  apply squaredNorm_compose; assumption.
Qed.

End RoundTrip.

(** ** Decomposing within a tolerance *)

(** The distance of two rotation matrices in terms of their quaternions:
    twice the product of the squared distances of one quaternion to the
    other and to its negative, and the squared difference of the norms. *)
Lemma mdist2_homogeneous (r p : Quaterniond) :
  mdist2 (homogeneous r) (homogeneous p) =
  2 * squaredNorm (qsub r p) * squaredNorm (qsub r (qneg p)) +
  (squaredNorm r - squaredNorm p) * (squaredNorm r - squaredNorm p).
Proof.
  destruct r as [w x y z], p as [w' x' y' z'].
  unfold mdist2, homogeneous, squaredNorm, qsub, qneg. simpl. ring.
Qed.

Lemma mdist2_same (m : Matrix3d) : mdist2 m m = 0.
Proof. unfold mdist2. ring. Qed.

(** Unit quaternions with close matrices are close up to sign. *)
Lemma near_of_matrices (t : R) (r p : Quaterniond) :
  squaredNorm r = 1 -> squaredNorm p = 1 ->
  mdist2 (matrix r) (matrix p) <= t ->
  near_up_to_sign (t / 4) r p.
Proof.
  intros Hr Hp Hm.
  rewrite (matrix_unit r Hr), (matrix_unit p Hp), mdist2_homogeneous in Hm.
  rewrite Hr, Hp in Hm.
  pose proof (parallelogram r p) as Hpar. rewrite Hr, Hp in Hpar.
  pose proof (squaredNorm_nonneg (qsub r p)) as A.
  pose proof (squaredNorm_nonneg (qsub r (qneg p))) as B.
  unfold near_up_to_sign.
  destruct (Rle_dec (squaredNorm (qsub r p)) (squaredNorm (qsub r (qneg p))));
    [left | right]; nra.
Qed.

Lemma qneg_qneg (a : Quaterniond) : qneg (qneg a) = a.
Proof. destruct a. unfold qneg. simpl. f_equal; ring. Qed.

Lemma squaredNorm_neg (a : Quaterniond) : squaredNorm (qneg a) = squaredNorm a.
Proof. unfold squaredNorm, qneg. simpl. ring. Qed.

Lemma qsub_qneg (a b : Quaterniond) :
  squaredNorm (qsub (qneg a) (qneg b)) = squaredNorm (qsub a b).
Proof. unfold squaredNorm, qsub, qneg. simpl. ring. Qed.

Lemma squaredNorm_triangle (a b c : Quaterniond) :
  squaredNorm (qsub a c)
  <= 2 * squaredNorm (qsub a b) + 2 * squaredNorm (qsub b c).
Proof.
  destruct a as [w x y z], b as [w' x' y' z'], c as [w'' x'' y'' z''].
  unfold squaredNorm, qsub. simpl.
  assert (H : forall u v s : R,
             (u - s) * (u - s) <= 2 * ((u - v) * (u - v)) + 2 * ((v - s) * (v - s))).
  { intros u v s. pose proof (Rle_0_sqr (u - v - (v - s))) as Q.
    unfold Rsqr in Q. nra. }
  pose proof (H w w' w''). pose proof (H x x' x'').
  pose proof (H y y' y''). pose proof (H z z' z''). lra.
Qed.

Lemma near_trans (t1 t2 : R) (a b c : Quaterniond) :
  near_up_to_sign t1 a b -> near_up_to_sign t2 b c ->
  near_up_to_sign (2 * t1 + 2 * t2) a c.
Proof.
  unfold near_up_to_sign. intros [H1 | H1] [H2 | H2].
  - left. pose proof (squaredNorm_triangle a b c). lra.
  - right. pose proof (squaredNorm_triangle a b (qneg c)). lra.
  - right. pose proof (squaredNorm_triangle a (qneg b) (qneg c)) as T.
    rewrite qsub_qneg in T. lra.
  - left. pose proof (squaredNorm_triangle a (qneg b) c) as T.
    rewrite <- (qsub_qneg (qneg b) c), qneg_qneg in T. lra.
Qed.

Lemma near_same (t : R) (a : Quaterniond) : 0 <= t -> near_up_to_sign t a a.
Proof.
  intros Ht. left.
  replace (squaredNorm (qsub a a)) with 0; [exact Ht |].
  unfold squaredNorm, qsub. simpl. ring.
Qed.

Lemma near_le (t t' : R) (a b : Quaterniond) :
  t <= t' -> near_up_to_sign t a b -> near_up_to_sign t' a b.
Proof. unfold near_up_to_sign. intros Ht [H | H]; [left | right]; lra. Qed.

(** Between unit quaternions, [isApprox] with the precision [prec] is a
    bound on the squared distance. *)
Lemma isApproxPrec_unit (prec : R) (a b : Quaterniond) :
  squaredNorm a = 1 -> squaredNorm b = 1 ->
  squaredNorm (qsub a b) <= prec * prec -> isApproxPrec prec a b = true.
Proof.
  intros Ha Hb H. unfold isApproxPrec. rewrite Ha, Hb.
  unfold Rmin. destruct (Rle_dec 1 1); [| lra].
  destruct (Rle_dec _ _) as [_ | N]; [reflexivity | exfalso; lra].
Qed.

Lemma isApproxPrec_near (prec : R) (a b : Quaterniond) :
  squaredNorm a = 1 -> squaredNorm b = 1 ->
  near_up_to_sign (prec * prec) a b ->
  isApproxPrec prec a b = true \/ isApproxPrec prec a (qneg b) = true.
Proof.
  intros Ha Hb [H | H]; [left | right]; apply isApproxPrec_unit;
    rewrite ?squaredNorm_neg; assumption.
Qed.

Lemma near_of_isApprox (s q : Quaterniond) :
  squaredNorm s = 1 -> isApprox s q = true ->
  near_up_to_sign (dummy_precision * dummy_precision) s q.
Proof.
  intros Hs H. left. unfold isApprox, isApproxPrec in H.
  destruct (Rle_dec _ _) as [L |]; [| discriminate].
  rewrite Hs in L.
  pose proof (Rmin_l 1 (squaredNorm q)) as M.
  pose proof (Rmin_nonneg _ _ Rle_0_1 (squaredNorm_nonneg q)) as M0.
  pose proof dummy_precision_range as D. nra.
Qed.

Lemma dummy_precision_square :
  dummy_precision = roundtrip_precision * roundtrip_precision.
Proof. unfold dummy_precision, roundtrip_precision. field. Qed.

Lemma roundtrip_precision_small : 0 < roundtrip_precision <= / 2.
Proof.
  unfold roundtrip_precision. split.
  - apply Rinv_0_lt_compat. lra.
  - apply Rinv_le_contravar; lra.
Qed.

Section Accuracy.

Context {RT : Runtime}.

Lemma exact_accurate (tol : R) (fixed : bool) (a0 a1 a2 : nat)
  (q : Quaterniond) :
  decomposition_exact fixed a0 a1 a2 q ->
  decomposition_accurate tol fixed a0 a1 a2 q.
Proof.
  unfold decomposition_exact, decomposition_accurate, exact_at, accurate_at.
  cbv zeta. pose proof (Rle_0_sqr tol) as Ht. unfold Rsqr in Ht.
  destruct fixed; intros ->; rewrite mdist2_same; exact Ht.
Qed.

(** With a decomposition accurate within [tol] at the unit quaternion
    [q], the angles of [q] compose to a unit quaternion whose matrix is
    within [tol] of the matrix of [q], and which is within [tol / 2] of [q]
    or of [-q]. *)
Lemma compose_decompose_near (tol : R) (fixed : bool) (a0 a1 a2 : nat)
  (q : Quaterniond) :
  (a0 < 3)%nat -> (a1 < 3)%nat -> (a2 < 3)%nat ->
  squaredNorm q = 1 -> decomposition_accurate tol fixed a0 a1 a2 q ->
  let q' := compose fixed [a0; a1; a2] (decompose fixed [a0; a1; a2] q) in
  squaredNorm q' = 1 /\
  mdist2 (matrix q') (matrix q) <= tol * tol /\
  near_up_to_sign (tol * tol / 4) q' q.
Proof.
  intros H0 H1 H2 Hq Hx q'.
  assert (Hu : squaredNorm q' = 1) by (apply squaredNorm_compose; assumption).
  assert (Hm : mdist2 (matrix q') (matrix q) <= tol * tol).
  { subst q'. rewrite matrix_compose by assumption.
    unfold decomposition_accurate, accurate_at, decompose in *.
    destruct fixed; simpl in *; exact Hx. }
  split; [exact Hu |]. split; [exact Hm |].
  now apply near_of_matrices.
Qed.

End Accuracy.

(** The round trip with an exact decomposition: for a unit quaternion q
    and a valid axis spec at which the decomposition is exact,
    [setQuaternion(q)] (from a state that holds q, or a quaternion not
    approximately equal to q) followed by [updateAngles()] leaves angle
    fields that compose, under the same spec, to q or to -q. *)
Lemma roundtrip_exact {RT : Runtime} (n : nat) (w : World)
  (a0 a1 a2 : nat) (q : Quaterniond) :
  (15 <= n)%nat -> eflag w = false ->
  axes_ (eul w) = [a0; a1; a2] ->
  (a0 < 3)%nat -> (a1 < 3)%nat -> (a2 < 3)%nat ->
  squaredNorm q = 1 ->
  decomposition_exact (fixed_ (eul w)) a0 a1 a2 q ->
  quaternion_ (eul w) = q \/ isApprox (quaternion_ (eul w)) q = false ->
  exists w1 w2 : World,
    exec n (E_setQuaternion q) w = Done w1 /\
    exec n E_updateAngles w1 = Done w2 /\
    fixed_ (eul w2) = fixed_ (eul w) /\ axes_ (eul w2) = axes_ (eul w) /\
    let q' := compose (fixed_ (eul w2)) (axes_ (eul w2))
                (radians (euler_ (eul w2))) in
    matrix q' = matrix q /\ (q' = q \/ q' = qneg q).
Proof.
  intros Hn He Ha H0 H1 H2 Hq Hx Hs.
  destruct (exec_done n (E_setQuaternion q) w Hn I eq_refl)
    as (w1 & X1 & Fe1 & _ & W1 & _).
  destruct (exec_done n E_updateAngles w1 Hn I eq_refl)
    as (w2 & X2 & _ & _ & W2 & _).
  exists w1, w2. split; [exact X1 |]. split; [exact X2 |].
  simpl in W1, W2.
  destruct (compose_decompose (fixed_ (eul w)) a0 a1 a2 q H0 H1 H2 Hq Hx)
    as [Hm Hpm].
  destruct (frame_fields _ _ (frame_quaternion_set q (eul w)))
    as (_ & F1 & F2 & F3).
  rewrite <- W1 in F1, F2, F3.
  destruct (frame_fields _ _ (frame_angles_updated (eul w1)))
    as (_ & G1 & G2 & _).
  rewrite <- W2 in G1, G2.
  split; [now rewrite G1, F1 |]. split; [now rewrite G2, F2 |].
  assert (M1 : matrix (quaternion_ (eul w1)) = matrix q).
  { rewrite W1, quaternion_quaternion_set.
    destruct Hs as [Hs | Hs].
    - rewrite Hs, isApprox_refl. reflexivity.
    - rewrite Hs. unfold recomposed. rewrite Ha.
      destruct (isApprox q _); [reflexivity | exact Hm]. }
  assert (E2 : euler_ (eul w2) =
               degrees (decompose (fixed_ (eul w)) [a0; a1; a2] q)).
  { rewrite W2. unfold angles_updated. rewrite euler_angles_applied.
    - rewrite F1, F2, Ha.
      now rewrite (decompose_matrix _ _ _ _ M1).
    - rewrite F3. exact He. }
  cbv zeta. rewrite E2, radians_degrees, G1, G2, F1, F2, Ha.
  split; [exact Hm | exact Hpm].
Qed.

(** C1, as the code has it: for a unit quaternion q and a valid axis spec,
    fixed or rotating, [setQuaternion(q)] followed by [updateAngles()]
    returns and leaves angle fields that compose, under the same spec, to a
    unit quaternion within 1e-6 of q or of -q (the same rotation, not
    always the same quaternion), provided the decomposition reproduces
    within 1e-6 the matrices it is given on the way: the matrix of q, the
    matrix of what the angles of q compose to when that is stored in place
    of q, and the matrix of the stored unit quaternion when q is
    approximately equal to it and the call returns early. *)
Theorem roundtrip_up_to_sign {RT : Runtime} (n : nat) (w : World)
  (a0 a1 a2 : nat) (q : Quaterniond) :
  (15 <= n)%nat -> eflag w = false ->
  axes_ (eul w) = [a0; a1; a2] ->
  (a0 < 3)%nat -> (a1 < 3)%nat -> (a2 < 3)%nat ->
  squaredNorm q = 1 ->
  decomposition_accurate roundtrip_precision (fixed_ (eul w)) a0 a1 a2 q ->
  (isApprox q (recomposed q (eul w)) = false ->
   decomposition_accurate roundtrip_precision (fixed_ (eul w)) a0 a1 a2
     (recomposed q (eul w))) ->
  (isApprox (quaternion_ (eul w)) q = true ->
   squaredNorm (quaternion_ (eul w)) = 1 /\
   decomposition_accurate roundtrip_precision (fixed_ (eul w)) a0 a1 a2
     (quaternion_ (eul w))) ->
  exists w1 w2 : World,
    exec n (E_setQuaternion q) w = Done w1 /\
    exec n E_updateAngles w1 = Done w2 /\
    fixed_ (eul w2) = fixed_ (eul w) /\ axes_ (eul w2) = axes_ (eul w) /\
    let q' := compose (fixed_ (eul w2)) (axes_ (eul w2))
                (radians (euler_ (eul w2))) in
    squaredNorm q' = 1 /\
    (isApproxPrec roundtrip_precision q' q = true \/
     isApproxPrec roundtrip_precision q' (qneg q) = true).
Proof.
  intros Hn He Ha H0 H1 H2 Hq Hx Hr Hs.
  destruct (exec_done n (E_setQuaternion q) w Hn I eq_refl)
    as (w1 & X1 & Fe1 & _ & W1 & _).
  destruct (exec_done n E_updateAngles w1 Hn I eq_refl)
    as (w2 & X2 & _ & _ & W2 & _).
  exists w1, w2. split; [exact X1 |]. split; [exact X2 |].
  simpl in W1, W2.
  destruct (frame_fields _ _ (frame_quaternion_set q (eul w)))
    as (_ & F1 & F2 & F3).
  rewrite <- W1 in F1, F2, F3.
  destruct (frame_fields _ _ (frame_angles_updated (eul w1)))
    as (_ & G1 & G2 & _).
  rewrite <- W2 in G1, G2.
  split; [now rewrite G1, F1 |]. split; [now rewrite G2, F2 |].
  assert (E2 : euler_ (eul w2) =
               degrees (decompose (fixed_ (eul w)) [a0; a1; a2]
                          (quaternion_ (eul w1)))).
  { rewrite W2. unfold angles_updated. rewrite euler_angles_applied.
    - now rewrite F1, F2, Ha.
    - rewrite F3. exact He. }
  cbv zeta. rewrite E2, radians_degrees, G1, G2, F1, F2, Ha.
  set (f := fixed_ (eul w)) in *.
  set (u := roundtrip_precision) in *.
  pose proof roundtrip_precision_small as Hu. fold u in Hu.
  pose proof dummy_precision_square as Hd. fold u in Hd.
  assert (Huu : 0 < u * u <= / 4) by nra.
  (* the quaternion that [updateAngles] decomposes *)
  assert (S1 : squaredNorm (quaternion_ (eul w1)) = 1 /\
               decomposition_accurate u f a0 a1 a2 (quaternion_ (eul w1)) /\
               near_up_to_sign (u * u / 4) (quaternion_ (eul w1)) q).
  { rewrite W1, quaternion_quaternion_set.
    destruct (isApprox (quaternion_ (eul w)) q) eqn:A.
    - destruct (Hs eq_refl) as [Us As]. split; [exact Us |].
      split; [exact As |].
      apply (near_le (dummy_precision * dummy_precision));
        [rewrite Hd; nra | now apply near_of_isApprox].
    - unfold recomposed in *. fold f in Hr |- *. rewrite Ha in *.
      destruct (compose_decompose_near u f a0 a1 a2 q H0 H1 H2 Hq Hx)
        as (Ur & _ & Nr).
      destruct (isApprox q _) eqn:B.
      + split; [exact Hq |]. split; [exact Hx |]. apply near_same. nra.
      + split; [exact Ur |]. split; [exact (Hr eq_refl) |]. exact Nr. }
  destruct S1 as (U1 & A1 & N1).
  destruct (compose_decompose_near u f a0 a1 a2 _ H0 H1 H2 U1 A1)
    as (U2 & _ & N2).
  split; [exact U2 |].
  apply isApproxPrec_near; [exact U2 | exact Hq |].
  apply (near_le (2 * (u * u / 4) + 2 * (u * u / 4)));
    [lra | exact (near_trans _ _ _ _ _ N2 N1)].
Qed.

Lemma turn_accurate_half (fixed : bool) :
  @decomposition_accurate turn_runtime roundtrip_precision fixed 0 1 2 q_half.
Proof. apply exact_accurate, turn_decomposition_exact. Qed.

Lemma turn_accurate_one (fixed : bool) (q : Quaterniond) :
  matrix q = matrix q_one ->
  @decomposition_accurate turn_runtime roundtrip_precision fixed 0 1 2 q.
Proof.
  intros Hm. apply exact_accurate.
  pose proof (turn_exact_one fixed 0 1 2) as H.
  unfold decomposition_exact in *. now rewrite Hm.
Qed.

Lemma turn_recomposed_minus_one (e : EulerProperty) :
  @recomposed turn_runtime q_minus_one e = q_one.
Proof. rewrite recomposed_minus_one. apply turn_recomposed_one. Qed.

Lemma roundtrip_up_to_sign_witness :
  (((15 <= 15)%nat /\ eflag example_world = false /\
    axes_ (eul example_world) = [0; 1; 2]%nat /\
    (0 < 3)%nat /\ (1 < 3)%nat /\ (2 < 3)%nat /\
    squaredNorm q_half = 1 /\
    @decomposition_accurate turn_runtime roundtrip_precision
      (fixed_ (eul example_world)) 0 1 2 q_half /\
    isApprox q_half (@recomposed turn_runtime q_half (eul example_world))
    = true /\
    isApprox (quaternion_ (eul example_world)) q_half = false) /\
   exists w1 w2 : World,
     @exec turn_runtime 15 (E_setQuaternion q_half) example_world = Done w1 /\
     @exec turn_runtime 15 E_updateAngles w1 = Done w2 /\
     (isApproxPrec roundtrip_precision
        (compose (fixed_ (eul w2)) (axes_ (eul w2)) (radians (euler_ (eul w2))))
        q_half = true \/
      isApproxPrec roundtrip_precision
        (compose (fixed_ (eul w2)) (axes_ (eul w2)) (radians (euler_ (eul w2))))
        (qneg q_half) = true)) /\
  ((isApprox (quaternion_ (eul example_world_half)) q_half = true /\
    squaredNorm (quaternion_ (eul example_world_half)) = 1 /\
    @decomposition_accurate turn_runtime roundtrip_precision
      (fixed_ (eul example_world_half)) 0 1 2
      (quaternion_ (eul example_world_half))) /\
   exists w1 w2 : World,
     @exec turn_runtime 15 (E_setQuaternion q_half) example_world_half
     = Done w1 /\
     @exec turn_runtime 15 E_updateAngles w1 = Done w2 /\
     (isApproxPrec roundtrip_precision
        (compose (fixed_ (eul w2)) (axes_ (eul w2)) (radians (euler_ (eul w2))))
        q_half = true \/
      isApproxPrec roundtrip_precision
        (compose (fixed_ (eul w2)) (axes_ (eul w2)) (radians (euler_ (eul w2))))
        (qneg q_half) = true)) /\
  ((squaredNorm q_minus_one = 1 /\
    @decomposition_accurate turn_runtime roundtrip_precision
      (fixed_ (eul example_world)) 0 1 2 q_minus_one /\
    isApprox q_minus_one
      (@recomposed turn_runtime q_minus_one (eul example_world)) = false /\
    @decomposition_accurate turn_runtime roundtrip_precision
      (fixed_ (eul example_world)) 0 1 2
      (@recomposed turn_runtime q_minus_one (eul example_world)) /\
    isApprox (quaternion_ (eul example_world)) q_minus_one = false) /\
   exists w1 w2 : World,
     @exec turn_runtime 15 (E_setQuaternion q_minus_one) example_world
     = Done w1 /\
     @exec turn_runtime 15 E_updateAngles w1 = Done w2 /\
     (isApproxPrec roundtrip_precision
        (compose (fixed_ (eul w2)) (axes_ (eul w2)) (radians (euler_ (eul w2))))
        q_minus_one = true \/
      isApproxPrec roundtrip_precision
        (compose (fixed_ (eul w2)) (axes_ (eul w2)) (radians (euler_ (eul w2))))
        (qneg q_minus_one) = true)).
Proof.
  assert (H : (0 < 3)%nat /\ (1 < 3)%nat /\ (2 < 3)%nat) by lia.
  destruct H as (H0 & H1 & H2).
  assert (B : isApprox q_half
                (@recomposed turn_runtime q_half (eul example_world)) = true)
    by (rewrite turn_recomposed_half by reflexivity; apply isApprox_refl).
  assert (B' : isApprox q_half
                 (@recomposed turn_runtime q_half (eul example_world_half))
               = true)
    by (rewrite turn_recomposed_half by reflexivity; apply isApprox_refl).
  assert (Um : squaredNorm q_minus_one = 1)
    by (unfold squaredNorm, q_minus_one; simpl; ring).
  assert (Am : @decomposition_accurate turn_runtime roundtrip_precision
                 true 0 1 2 q_minus_one)
    by exact (turn_accurate_one true _ matrix_minus_one).
  assert (Ar : @decomposition_accurate turn_runtime roundtrip_precision
                 (fixed_ (eul example_world)) 0 1 2
                 (@recomposed turn_runtime q_minus_one (eul example_world))).
  { rewrite turn_recomposed_minus_one. exact (turn_accurate_one true _ eq_refl). }
  assert (Bm : isApprox q_minus_one
                 (@recomposed turn_runtime q_minus_one (eul example_world))
               = false).
  { rewrite turn_recomposed_minus_one, isApprox_sym. exact one_not_minus_one. }
  split; [| split].
  - split.
    + split; [lia |]. split; [reflexivity |]. split; [reflexivity |].
      split; [exact H0 |]. split; [exact H1 |]. split; [exact H2 |].
      split; [exact q_half_unit |]. split; [exact (turn_accurate_half true) |].
      split; [exact B | exact one_not_half].
    + destruct (@roundtrip_up_to_sign turn_runtime 15 example_world
                  0 1 2 q_half (le_n 15) eq_refl eq_refl H0 H1 H2 q_half_unit
                  (turn_accurate_half true))
        as (w1 & w2 & X1 & X2 & _ & _ & _ & Hpm).
      * intros N. rewrite B in N. discriminate.
      * intros N. change (quaternion_ (eul example_world)) with q_one in N.
        rewrite one_not_half in N. discriminate.
      * exists w1, w2. split; [exact X1 |]. split; [exact X2 |]. exact Hpm.
  - split.
    + split; [apply isApprox_refl |]. split; [exact q_half_unit |].
      exact (turn_accurate_half true).
    + destruct (@roundtrip_up_to_sign turn_runtime 15 example_world_half
                  0 1 2 q_half (le_n 15) eq_refl eq_refl H0 H1 H2 q_half_unit
                  (turn_accurate_half true))
        as (w1 & w2 & X1 & X2 & _ & _ & _ & Hpm).
      * intros N. rewrite B' in N. discriminate.
      * intros _. split; [exact q_half_unit | exact (turn_accurate_half true)].
      * exists w1, w2. split; [exact X1 |]. split; [exact X2 |]. exact Hpm.
  - split.
    + split; [exact Um |]. split; [exact Am |]. split; [exact Bm |].
      split; [exact Ar | exact one_not_minus_one].
    + destruct (@roundtrip_up_to_sign turn_runtime 15 example_world
                  0 1 2 q_minus_one (le_n 15) eq_refl eq_refl H0 H1 H2 Um Am)
        as (w1 & w2 & X1 & X2 & _ & _ & _ & Hpm).
      * intros _. exact Ar.
      * intros N. change (quaternion_ (eul example_world)) with q_one in N.
        rewrite one_not_minus_one in N. discriminate.
      * exists w1, w2. split; [exact X1 |]. split; [exact X2 |]. exact Hpm.
Defined.

Lemma roundtrip_precision_range : 0 <= roundtrip_precision < 1.
Proof.
  unfold roundtrip_precision. split.
  - left. apply Rinv_0_lt_compat. lra.
  - apply (Rmult_lt_reg_r 1000000); [lra |]. rewrite Rinv_l; lra.
Qed.

(** C1 fails as stated: no decomposition makes the round trip give back
    every unit quaternion within 1e-6.  The quaternions 1 and -1 have the
    same matrix, hence the same angles and the same re-composed
    quaternion, which is not within 1e-6 of both. *)
Lemma roundtrip_loses_sign :
  ~ exists RT : Runtime,
      forall (w w1 w2 : World) (q : Quaterniond),
        reachable w -> squaredNorm q = 1 ->
        exec 15 (E_setQuaternion q) w = Done w1 ->
        exec 15 E_updateAngles w1 = Done w2 ->
        isApproxPrec roundtrip_precision
          (compose (fixed_ (eul w2)) (axes_ (eul w2))
                   (radians (euler_ (eul w2)))) q = true.
Proof.
  intros [RT H].
  set (c := compose true [0; 1; 2]%nat (decompose true [0; 1; 2]%nat q_one)).
  assert (K : forall (w : World) (q : Quaterniond),
             reachable w -> constructed w -> quaternion_ (eul w) = q ->
             squaredNorm q = 1 -> matrix q = matrix q_one ->
             isApproxPrec roundtrip_precision c q = true).
  { intros w q Hr Hc Hq Hn Hm.
    destruct (setQuaternion_returns_early 14 w q) as [X1 _].
    { unfold getQuaternion. rewrite Hq. apply isApprox_refl. }
    destruct (exec_done 15 E_updateAngles w (le_n _) I eq_refl)
      as (w2 & X2 & _ & _ & W2 & _).
    pose proof (H w w w2 q Hr Hn X1 X2) as A.
    simpl in W2.
    destruct (frame_fields _ _ (frame_angles_updated (eul w)))
      as (_ & G1 & G2 & _).
    rewrite <- W2 in G1, G2.
    destruct Hc as (He & _ & _ & Hf & Ha).
    assert (E2 : euler_ (eul w2) = degrees (decompose true [0; 1; 2]%nat q_one)).
    { rewrite W2. unfold angles_updated. rewrite euler_angles_applied by exact He.
      rewrite Hf, Ha, Hq. now rewrite (decompose_matrix _ _ _ _ Hm). }
    rewrite E2, radians_degrees, G1, G2, Hf, Ha in A. exact A. }
  destruct reachable_one as (wp & Rp & Cp & Qp).
  destruct reachable_minus_one as (wm & Rm & Cm & Qm).
  pose proof (K wp q_one Rp Cp Qp q_one_unit eq_refl) as A1.
  assert (Um : squaredNorm q_minus_one = 1)
    by (unfold squaredNorm, q_minus_one; simpl; ring).
  pose proof (K wm q_minus_one Rm Cm Qm Um matrix_minus_one) as A2.
  rewrite <- qneg_one in A2.
  exact (not_approx_both _ _ _ roundtrip_precision_range q_one_unit A1 A2).
Qed.

(** The assumption on the decomposition cannot be dropped: with a
    decomposition that answers (0, 0, 0) for every matrix, the round trip
    of the half turn about x ends at the identity, which is within 1e-6 of
    neither the half turn nor its negative. *)
Lemma isApproxPrec_one_half (prec : R) :
  0 <= prec < 1 ->
  isApproxPrec prec q_one q_half = false /\
  isApproxPrec prec q_one (qneg q_half) = false.
Proof.
  intros Hp.
  assert (U : squaredNorm (qneg q_half) = 1)
    by (rewrite squaredNorm_neg; exact q_half_unit).
  assert (A : squaredNorm (qsub q_one q_half) = 2)
    by (unfold squaredNorm, qsub, q_one, q_half; simpl; ring).
  assert (B : squaredNorm (qsub q_one (qneg q_half)) = 2)
    by (unfold squaredNorm, qsub, qneg, q_one, q_half; simpl; ring).
  unfold isApproxPrec. rewrite A, B, U, q_one_unit, q_half_unit.
  unfold Rmin. destruct (Rle_dec 1 1); [| lra].
  split; destruct (Rle_dec _ _); try reflexivity; exfalso; nra.
Qed.

Lemma roundtrip_needs_accuracy :
  exists w1 w2 : World,
    @exec example_runtime 15 (E_setQuaternion q_half) example_world = Done w1 /\
    @exec example_runtime 15 E_updateAngles w1 = Done w2 /\
    let q' := compose (fixed_ (eul w2)) (axes_ (eul w2))
                (radians (euler_ (eul w2))) in
    q' = q_one /\
    isApproxPrec roundtrip_precision q' q_half = false /\
    isApproxPrec roundtrip_precision q' (qneg q_half) = false.
Proof.
  destruct (@exec_done example_runtime 15 (E_setQuaternion q_half)
              example_world (le_n _) I eq_refl)
    as (w1 & X1 & Fe1 & _ & W1 & _).
  destruct (@exec_done example_runtime 15 E_updateAngles w1 (le_n _) I eq_refl)
    as (w2 & X2 & _ & _ & W2 & _).
  exists w1, w2. split; [exact X1 |]. split; [exact X2 |].
  simpl in W1, W2.
  assert (E2 : euler_ (eul w2) = degrees (Vec3 0 0 0)).
  { rewrite W2. unfold angles_updated.
    rewrite euler_angles_applied
      by (change (eflag w1 = false); rewrite Fe1; reflexivity).
    unfold decompose. simpl. now destruct (fixed_ (eul w1)). }
  cbv zeta. rewrite E2, radians_degrees, compose_zero.
  split; [reflexivity |].
  apply isApproxPrec_one_half, roundtrip_precision_range.
Qed.

(* ===================================================================== *)
(** * Further properties of the two classes *)
(* ===================================================================== *)

(** ** Fuel *)

Lemma extends_refl (a : Op) : extends a a.
Proof. intros w _. reflexivity. Qed.

Lemma extends_seq (a a' b b' : Op) :
  extends a a' -> extends b b' -> extends (a ;; b)%op (a' ;; b')%op.
Proof.
  intros Ha Hb w H. unfold andThen in *.
  destruct (a w) as [w1 | msg w1 |] eqn:E.
  - rewrite (Ha w) by (rewrite E; discriminate). rewrite E. now apply Hb.
  - rewrite (Ha w) by (rewrite E; discriminate). now rewrite E.
  - contradiction.
Qed.

Lemma extends_read {A : Type} (f : World -> A) (k k' : A -> Op) :
  (forall x, extends (k x) (k' x)) -> extends (read f k) (read f k').
Proof. intros H w. unfold read. apply H. Qed.

Lemma extends_for3 (b b' : nat -> Op) :
  (forall i, extends (b i) (b' i)) -> extends (for3 b) (for3 b').
Proof. intros H. unfold for3. repeat apply extends_seq; apply H. Qed.

Ltac extends_tac H :=
  repeat lazymatch goal with
  | |- extends (andThen _ _) (andThen _ _) => apply extends_seq
  | |- extends (for3 _) (for3 _) => apply extends_for3; intros ?; cbv beta
  | |- extends (read _ _) (read _ _) =>
      apply extends_read; intros ?; cbv beta zeta
  | |- extends (if ?b then _ else _) _ => destruct b
  | |- extends (match ?x with inl _ => _ | inr _ => _ end) _ =>
      destruct x as [? | [? ?]]
  | |- extends ?a ?a => apply extends_refl
  | |- extends _ _ => apply H
  end.

Section Fuel.

Context {RT : Runtime}.

Lemma body_extends (call call' : Call -> Op) :
  (forall c, extends (call c) (call' c)) ->
  forall c, extends (body call c) (body call' c).
Proof.
  intros H c.
  destruct c; cbn [body];
    unfold EulerProperty_setQuaternion, EulerProperty_setEulerAngles,
      EulerProperty_setEulerAxes, EulerProperty_updateFromChildren,
      EulerProperty_emitAboutToChange, EulerProperty_updateAngles,
      FloatProperty_setValue, QuaternionProperty_setQuaternion,
      RotationProperty_setQuaternion, RotationProperty_updateFromEuler,
      RotationProperty_updateFromQuaternion;
    extends_tac H.
Qed.

Lemma exec_S (n : nat) (c : Call) : extends (exec n c) (exec (S n) c).
Proof.
  revert c. induction n as [| n IH]; intros c.
  - intros w H. now contradiction H.
  - change (extends (body (exec n) c) (body (exec (S n)) c)).
    now apply body_extends.
Qed.

Lemma exec_le (n m : nat) (c : Call) :
  (n <= m)%nat -> extends (exec n c) (exec m c).
Proof.
  induction 1 as [| m Hle IH]; [apply extends_refl |].
  intros w H. rewrite <- (IH w H). apply exec_S. now rewrite (IH w H).
Qed.

Lemma exec_more (n m : nat) (c : Call) (w w' : World) :
  (n <= m)%nat -> exec n c w = Done w' -> exec m c w = Done w'.
Proof.
  intros Hle Hx. rewrite <- Hx. apply exec_le; [exact Hle |].
  rewrite Hx. discriminate.
Qed.

Lemma exec_more_raised (n m : nat) (c : Call) (msg : string) (w w' : World) :
  (n <= m)%nat -> exec n c w = Raised msg w' -> exec m c w = Raised msg w'.
Proof.
  intros Hle Hx. rewrite <- Hx. apply exec_le; [exact Hle |].
  rewrite Hx. discriminate.
Qed.

Lemma exec_unconnected_S (n : nat) (c : Call) :
  extends (exec_unconnected n c) (exec_unconnected (S n) c).
Proof.
  revert c. induction n as [| n IH]; intros c.
  - intros w H. now contradiction H.
  - destruct c;
      try apply extends_refl;
      match goal with
      | |- extends (exec_unconnected (S ?k) ?c) (exec_unconnected (S (S ?k)) ?c) =>
          change (extends (body (exec_unconnected k) c)
                          (body (exec_unconnected (S k)) c))
      end; now apply body_extends.
Qed.

Lemma exec_unconnected_more (n m : nat) (c : Call) (w w' : World) :
  (n <= m)%nat -> exec_unconnected n c w = Done w' ->
  exec_unconnected m c w = Done w'.
Proof.
  induction 1 as [| m Hle IH]; [auto |].
  intros Hx. specialize (IH Hx). rewrite <- IH.
  apply exec_unconnected_S. rewrite IH. discriminate.
Qed.

End Fuel.

(** ** The whole state after a call *)

Lemma wp_exact (a : Op) (w x : World) :
  wp a (fun w' => w' = x) (fun _ _ => False) w -> a w = Done x.
Proof.
  unfold wp. destruct (a w); intros H; subst; try contradiction; reflexivity.
Qed.

Section WorldExec.

Context {RT : Runtime}.

Lemma exec_string_updated (w : World) :
  RotationProperty_updateString w = Done (string_updated w).
Proof.
  unfold RotationProperty_updateString, string_updated, shown, read.
  cbv zeta.
  destruct (String.eqb _ _); reflexivity.
Qed.

Lemma exec_child_set (n : nat) (q : Quaterniond) (w : World) :
  quiet q w -> exec (S (S n)) (Q_setQuaternion q) w = Done (child_set q w).
Proof.
  intros Hq. apply wp_exact. unfold child_set.
  change (exec (S (S n)) (Q_setQuaternion q))
    with (QuaternionProperty_setQuaternion (exec (S n)) q).
  unfold QuaternionProperty_setQuaternion. wp_step I.
  destruct (quat_eqb q (quaternion_property_ (rotation w))).
  - wp_step I. reflexivity.
  - wp_step I. wp_step I.
    change (exec (S n) R_updateFromQuaternion)
      with (RotationProperty_updateFromQuaternion (exec n)).
    unfold RotationProperty_updateFromQuaternion. wp_step I.
    destruct Hq as [Hq | Hq].
    + assert (Hf : rot_ignore_child_updates_ (rotation w0) = true)
        by (subst; exact Hq).
      rewrite Hf. wp_step I. now subst.
    + destruct (rot_ignore_child_updates_ (rotation w0));
        [wp_step I; now subst |].
      wp_step I. wp_step I.
      assert (Hf : isApproxf (quaternion_property_ (rotation w0))
                             (getQuaternion w0) = true)
        by (subst; exact Hq).
      rewrite Hf. wp_step I. now subst.
Qed.

Lemma exec_euler_followed (n : nat) (q : Quaterniond) (w : World) :
  getQuaternion w = q ->
  exec (S (S (S n))) (R_updateFromEuler q) w = Done (euler_followed q w).
Proof.
  intros Hg. apply wp_exact. unfold euler_followed. cbv zeta.
  change (exec (S (S (S n))) (R_updateFromEuler q))
    with (RotationProperty_updateFromEuler (exec (S (S n))) q).
  unfold RotationProperty_updateFromEuler. wp_step I.
  eapply wp_intro.
  { apply exec_child_set. right. rewrite Hg. apply isApproxf_refl. }
  wp_step I. unfold rflag.
  destruct (rot_ignore_child_updates_ (rotation (child_set q w))).
  - wp_step I. reflexivity.
  - wp_step I. wp_step I.
    eapply wp_intro; [apply exec_string_updated |]. now subst.
Qed.

(** The angle field [i] after [setValue(v)] while the Euler property
    ignores its children. *)
Lemma exec_child_stored (n i : nat) (v : R) (w : World) :
  eflag w = true ->
  exec (S (S n)) (F_setValue i v) w =
  Done (if Req_dec_T v (vget (euler_ (eul w)) i) then w
        else on_euler (fun e => with_euler (vset (euler_ e) i v) e) w).
Proof.
  intros He. apply wp_exact.
  change (exec (S (S n)) (F_setValue i v))
    with (FloatProperty_setValue (exec (S n)) i v).
  unfold FloatProperty_setValue. wp_step I.
  destruct (Req_dec_T v (vget (euler_ (eul w)) i)).
  - wp_step I. reflexivity.
  - wp_step I.
    change (exec (S n) E_emitAboutToChange)
      with EulerProperty_emitAboutToChange.
    unfold EulerProperty_emitAboutToChange. wp_step I.
    unfold eflag in He. rewrite He. wp_step I. wp_step I. wp_step I.
    change (exec (S n) E_updateFromChildren)
      with (EulerProperty_updateFromChildren (exec n)).
    unfold EulerProperty_updateFromChildren. wp_step I.
    assert (Hf : ignore_child_updates_ (eul w0) = true) by (subst; exact He).
    rewrite Hf. wp_step I. now subst.
Qed.

Lemma children_stored (w : World) (a b c : R) :
  eflag w = false ->
  let stored i v w :=
    if Req_dec_T v (vget (euler_ (eul w)) i) then w
    else on_euler (fun e => with_euler (vset (euler_ e) i v) e) w in
  on_euler (with_ignore false)
    (stored 2%nat c (stored 1%nat b (stored 0%nat a
       (on_euler (with_ignore true) w))))
  = on_euler (with_euler (Vec3 a b c)) w.
Proof.
  destruct w as [[[q [x y z] nm s f ax ig val] qp ri sh rv] em].
  unfold eflag, eul. simpl. intros ->.
  destruct (Req_dec_T a x) as [-> |]; simpl;
    destruct (Req_dec_T b y) as [-> |]; simpl;
    destruct (Req_dec_T c z) as [-> |]; reflexivity.
Qed.

Lemma exec_children_set (n : nat) (euler : Vector3d) (w : World) :
  eflag w = false ->
  (modify (on_euler (with_ignore true)) ;;
   for3 (fun i => exec (S (S n))
                    (F_setValue i (angles.to_degrees (vget euler i)))) ;;
   modify (on_euler (with_ignore false)))%op w
  = Done (children_set euler w).
Proof.
  intros He. unfold children_set. rewrite He.
  change (degrees euler)
    with (Vec3 (angles.to_degrees (vget euler 0)) (angles.to_degrees (vget euler 1))
               (angles.to_degrees (vget euler 2))).
  rewrite <- (children_stored w _ _ _ He). cbv zeta.
  unfold for3, andThen, modify.
  rewrite exec_child_stored by reflexivity.
  rewrite exec_child_stored
    by (destruct (Req_dec_T _ _); reflexivity).
  rewrite exec_child_stored
    by (repeat destruct (Req_dec_T _ _); reflexivity).
  reflexivity.
Qed.

Lemma exec_angles_world (n : nat) (euler : Vector3d) (w : World) :
  exec (S (S (S (S n)))) (E_setEulerAngles euler false) w
  = Done (angles_world euler w).
Proof.
  apply wp_exact. unfold angles_world. cbv zeta.
  change (exec (S (S (S (S n)))) (E_setEulerAngles euler false))
    with (EulerProperty_setEulerAngles (exec (S (S (S n)))) euler false).
  unfold EulerProperty_setEulerAngles. wp_step I. cbv iota.
  set (q := compose (fixed_ (eul w)) (axes_ (eul w)) euler).
  wp_step I.
  apply (wp_intro _ _ _ w (children_set euler w)).
  { unfold read. destruct (ignore_child_updates_ (eul w)) eqn:Ee; cbn [negb].
    - unfold children_set, eflag. now rewrite Ee.
    - now apply exec_children_set. }
  set (w1 := children_set euler w).
  wp_step I. wp_step I. subst w0. fold (emits aboutToChange w1).
  wp_step I. wp_step I.
  destruct (isApprox (quaternion_ (eul (emits aboutToChange w1))) q);
    cbn [negb].
  - wp_step I. wp_step I. wp_step I. wp_step I. now subst.
  - wp_step I. wp_step I. wp_step I. wp_step I.
    eapply wp_intro.
    { apply exec_euler_followed. subst. reflexivity. }
    wp_step I. wp_step I. wp_step I. now subst.
Qed.

Lemma exec_update_world (n : nat) (w : World) :
  exec (S (S (S (S (S n))))) E_updateAngles w = Done (update_world w).
Proof.
  change (exec (S (S (S (S (S n))))) E_updateAngles)
    with (EulerProperty_updateAngles (exec (S (S (S (S n)))))).
  unfold EulerProperty_updateAngles, read. apply exec_angles_world.
Qed.

Lemma exec_quaternion_world (n : nat) (q : Quaterniond) (w : World) :
  exec (S (S (S (S (S (S n)))))) (E_setQuaternion q) w
  = Done (quaternion_world q w).
Proof.
  change (exec (S (S (S (S (S (S n)))))) (E_setQuaternion q))
    with (EulerProperty_setQuaternion (exec (S (S (S (S (S n)))))) q).
  unfold EulerProperty_setQuaternion, quaternion_world, read.
  destruct (isApprox (quaternion_ (eul w)) q); [reflexivity |].
  unfold andThen, modify. apply exec_update_world.
Qed.

Lemma exec_normalized_world (n : nat) (euler : Vector3d) (w : World) :
  exec (S (S (S (S (S (S (S n))))))) (E_setEulerAngles euler true) w
  = Done (quaternion_world (compose (fixed_ (eul w)) (axes_ (eul w)) euler) w).
Proof.
  change (exec (S (S (S (S (S (S (S n))))))) (E_setEulerAngles euler true))
    with (EulerProperty_setEulerAngles (exec (S (S (S (S (S (S n)))))))
            euler true).
  unfold EulerProperty_setEulerAngles, read. apply exec_quaternion_world.
Qed.

Lemma exec_axes_world (n : nat) (s : string) (w : World) :
  exec (S (S (S (S (S (S n)))))) (E_setEulerAxes s) w =
  if String.eqb (axes_string_ (eul w)) s then Done w
  else
    match AxisSpec.parse s with
    | inl msg => Raised msg w
    | inr (fixed, axes) =>
        Done (update_world
                (on_euler (with_axes s fixed axes
                             (map (fun a => nth a xyzNames ""%string) axes)) w))
    end.
Proof.
  change (exec (S (S (S (S (S (S n)))))) (E_setEulerAxes s))
    with (EulerProperty_setEulerAxes (exec (S (S (S (S (S n)))))) s).
  unfold EulerProperty_setEulerAxes, read.
  destruct (String.eqb (axes_string_ (eul w)) s); [reflexivity |].
  destruct (AxisSpec.parse s) as [msg | [fixed axes]]; [reflexivity |].
  unfold andThen, modify. apply exec_update_world.
Qed.

End WorldExec.

Section WorldExec2.

Context {RT : Runtime}.

(** The closed forms agree with the closed forms of the Euler property. *)
Lemma world_post (c : Call) (n : nat) (w w' : World) :
  exec n c w = Done w' -> entry_ok c w -> post c w w'.
Proof.
  intros Hx He.
  apply (exec_euler (n + 15) c w w'); [lia | | exact He].
  apply (exec_more n); [lia | exact Hx].
Qed.

Lemma flags_quaternion_world (q : Quaterniond) (w : World) :
  eflag (quaternion_world q w) = eflag w /\
  rflag (quaternion_world q w) = rflag w.
Proof.
  destruct (world_post _ _ _ _ (exec_quaternion_world 0 q w) I) as (H1 & H2 & _).
  now split.
Qed.

Lemma euler_quaternion_world (q : Quaterniond) (w : World) :
  eul (quaternion_world q w) = quaternion_set q (eul w).
Proof.
  destruct (world_post _ _ _ _ (exec_quaternion_world 0 q w) I)
    as (_ & _ & H & _).
  exact H.
Qed.

Lemma euler_angles_world (euler : Vector3d) (w : World) :
  eul (angles_world euler w) = angles_applied euler (eul w).
Proof.
  destruct (world_post _ _ _ _ (exec_angles_world 0 euler w) I)
    as (_ & _ & H & _).
  exact H.
Qed.

Lemma exec_rotation_world (n : nat) (q : Quaterniond) (w : World) :
  exec (7 + n) (R_setQuaternion q) w = Done (rotation_world q w).
Proof.
  apply wp_exact. unfold rotation_world.
  change (exec (7 + n) (R_setQuaternion q))
    with (RotationProperty_setQuaternion (exec (6 + n)) q).
  unfold RotationProperty_setQuaternion. wp_step I.
  destruct (isApprox (getQuaternion w) q).
  - wp_step I. reflexivity.
  - wp_step I. wp_step I. wp_step I.
    eapply wp_intro; [apply (exec_quaternion_world n) |].
    wp_step I.
    eapply wp_intro.
    { apply (exec_child_set (4 + n)). left.
      destruct (flags_quaternion_world q w0) as [_ ->]. now subst. }
    wp_step I. now subst.
Qed.

Lemma exec_field_world (n : nat) (q : Quaterniond) (w : World) :
  exec (9 + n) (Q_setQuaternion q) w = Done (field_world q w).
Proof.
  apply wp_exact. unfold field_world. cbv zeta.
  change (exec (9 + n) (Q_setQuaternion q))
    with (QuaternionProperty_setQuaternion (exec (8 + n)) q).
  unfold QuaternionProperty_setQuaternion. wp_step I.
  destruct (quat_eqb q (quaternion_property_ (rotation w))).
  - wp_step I. reflexivity.
  - wp_step I. wp_step I. subst w0.
    set (w1 := on_rotation (with_quaternion_property q) w).
    change (exec (8 + n) R_updateFromQuaternion)
      with (RotationProperty_updateFromQuaternion (exec (7 + n))).
    unfold RotationProperty_updateFromQuaternion. wp_step I. unfold rflag.
    destruct (rot_ignore_child_updates_ (rotation w1)).
    + wp_step I. reflexivity.
    + wp_step I. wp_step I.
      change (quaternion_property_ (rotation w1)) with q.
      destruct (isApproxf q (getQuaternion w1)).
      * wp_step I. reflexivity.
      * wp_step I.
        eapply wp_intro; [apply exec_rotation_world |].
        wp_step I. wp_step I.
        eapply wp_intro; [apply exec_string_updated |]. now subst.
Qed.

Lemma exec_children_world (n : nat) (w : World) :
  exec (5 + n) E_updateFromChildren w = Done (children_world w).
Proof.
  apply wp_exact. unfold children_world.
  change (exec (5 + n) E_updateFromChildren)
    with (EulerProperty_updateFromChildren (exec (4 + n))).
  unfold EulerProperty_updateFromChildren. wp_step I. unfold eflag.
  destruct (ignore_child_updates_ (eul w)).
  - wp_step I. reflexivity.
  - wp_step I. cbv zeta. wp_step I. wp_step I. wp_step I.
    eapply wp_intro; [apply (exec_angles_world n) |].
    wp_step I. now subst.
Qed.

Lemma exec_angle_field_world (n i : nat) (v : R) (w : World) :
  exec (6 + n) (F_setValue i v) w = Done (angle_field_world i v w).
Proof.
  apply wp_exact. unfold angle_field_world.
  change (exec (6 + n) (F_setValue i v))
    with (FloatProperty_setValue (exec (5 + n)) i v).
  unfold FloatProperty_setValue. wp_step I.
  destruct (Req_dec_T v (vget (euler_ (eul w)) i)).
  - wp_step I. reflexivity.
  - wp_step I.
    apply (wp_intro _ _ _ w (if eflag w then w else emits aboutToChange w)).
    { change (exec (5 + n) E_emitAboutToChange)
        with EulerProperty_emitAboutToChange.
      unfold EulerProperty_emitAboutToChange, read, eflag.
      destruct (ignore_child_updates_ (eul w)); reflexivity. }
    wp_step I. wp_step I.
    eapply wp_intro; [apply exec_children_world |]. now subst.
Qed.

(** *** Construction *)

Lemma exec_unconnected_child (n i : nat) (v : R) (w : World) :
  exec_unconnected (S (S n)) (F_setValue i v) w =
  Done (if Req_dec_T v (vget (euler_ (eul w)) i) then w
        else on_euler (fun e => with_euler (vset (euler_ e) i v) e) w).
Proof.
  apply wp_exact.
  change (exec_unconnected (S (S n)) (F_setValue i v))
    with (FloatProperty_setValue (exec_unconnected (S n)) i v).
  unfold FloatProperty_setValue. wp_step I.
  destruct (Req_dec_T v (vget (euler_ (eul w)) i)).
  - wp_step I. reflexivity.
  - change (exec_unconnected (S n) E_emitAboutToChange) with skip.
    change (exec_unconnected (S n) E_updateFromChildren) with skip.
    repeat wp_step I. now subst.
Qed.

Lemma exec_unconnected_angles (n : nat) (euler : Vector3d) (w : World) :
  eflag w = false ->
  exec_unconnected (S (S (S n))) (E_setEulerAngles euler false) w
  = Done (angles_unconnected euler w).
Proof.
  intros He. apply wp_exact. unfold angles_unconnected. cbv zeta.
  change (exec_unconnected (S (S (S n))) (E_setEulerAngles euler false))
    with (EulerProperty_setEulerAngles (exec_unconnected (S (S n))) euler false).
  unfold EulerProperty_setEulerAngles. wp_step I. cbv iota.
  set (q := compose (fixed_ (eul w)) (axes_ (eul w)) euler).
  wp_step I.
  apply (wp_intro _ _ _ w (children_set euler w)).
  { unfold read. unfold eflag in He. rewrite He. cbn [negb].
    unfold children_set, eflag. rewrite He.
    change (degrees euler)
      with (Vec3 (angles.to_degrees (vget euler 0))
                 (angles.to_degrees (vget euler 1))
                 (angles.to_degrees (vget euler 2))).
    rewrite <- (children_stored w _ _ _ He). cbv zeta.
    unfold for3, andThen, modify.
    rewrite !exec_unconnected_child. reflexivity. }
  set (w1 := children_set euler w).
  wp_step I. wp_step I. subst w0. fold (emits aboutToChange w1).
  wp_step I. wp_step I.
  destruct (isApprox (quaternion_ (eul (emits aboutToChange w1))) q);
    cbn [negb].
  - repeat wp_step I. now subst.
  - wp_step I. wp_step I. wp_step I. wp_step I.
    change (exec_unconnected (S (S n)) (R_updateFromEuler q)) with skip.
    repeat wp_step I. now subst.
Qed.

Lemma exec_constructed_world (n : nat) (value : Quaterniond) :
  RotationProperty_new (5 + n) value = Done (constructed_world value).
Proof.
  unfold RotationProperty_new, constructed_world. cbv zeta.
  set (w0 := mkWorld (mkRot (EulerProperty_init value) value false true ""%string) []).
  assert (H : exec_unconnected (5 + n) (E_setEulerAxes "rpy") w0
              = Done (angles_unconnected (decompose true [0; 1; 2]%nat value)
                        (on_euler (with_axes "rpy" true [0; 1; 2]%nat
                                     ["x"; "y"; "z"]%string) w0))).
  { change (exec_unconnected (5 + n) (E_setEulerAxes "rpy"))
      with (EulerProperty_setEulerAxes (exec_unconnected (4 + n)) "rpy").
    unfold EulerProperty_setEulerAxes, read.
    change (String.eqb (axes_string_ (eul w0)) "rpy") with false. cbv iota.
    change (AxisSpec.parse "rpy")
      with (@inr string (bool * list nat) (true, [0; 1; 2]%nat)). cbv iota.
    unfold andThen, modify.
    change (exec_unconnected (4 + n) E_updateAngles)
      with (EulerProperty_updateAngles (exec_unconnected (3 + n))).
    unfold EulerProperty_updateAngles, read.
    apply (exec_unconnected_angles n). reflexivity. }
  rewrite H. apply exec_string_updated.
Qed.

Lemma new_is_constructed_world (fuel : nat) (value : Quaterniond) (w : World) :
  RotationProperty_new fuel value = Done w -> w = constructed_world value.
Proof.
  intros H.
  assert (H5 : RotationProperty_new (5 + fuel) value = Done w).
  { unfold RotationProperty_new in *.
    destruct (exec_unconnected fuel (E_setEulerAxes "rpy") _) as [w1 | |] eqn:E;
      try discriminate.
    rewrite (exec_unconnected_more fuel (5 + fuel) _ _ _ (Nat.le_add_l _ _) E).
    exact H. }
  rewrite exec_constructed_world in H5. now injection H5.
Qed.

End WorldExec2.

(** ** The strings [setEulerAxes] accepts *)

Lemma constData_idem (s : string) :
  AxisSpec.constData (AxisSpec.constData s) = AxisSpec.constData s.
Proof.
  induction s as [| c s IH]; [reflexivity |]. cbn [AxisSpec.constData].
  destruct (Ascii.eqb c AxisSpec.NUL) eqn:E; [reflexivity |].
  cbn [AxisSpec.constData]. now rewrite E, IH.
Qed.

Lemma idx_letter (c : ascii) :
  ((AxisSpec.axis_idx c <? 0) || (AxisSpec.axis_idx c >? 2))%Z = false ->
  AxisSpec.letter_index c = Some (Z.to_nat (AxisSpec.axis_idx c)).
Proof.
  destruct c as [[] [] [] [] [] [] [] []]; vm_compute; congruence.
Qed.

(** The part of [parse] after the frame prefix, on the axis characters. *)
Lemma axes_loop_letters (pc : string) (axes : list Z) :
  AxisSpec.strlen pc = 3%nat ->
  AxisSpec.axes_loop pc 3 0 [] = inr axes ->
  AxisSpec.three_letters pc = Some (map Z.to_nat axes).
Proof.
  destruct pc as [| a [| b [| c [| d pc]]]]; try discriminate. intros _.
  cbn [AxisSpec.axes_loop AxisSpec.at_index String.get Nat.ltb Nat.leb
       andb Nat.sub nth app AxisSpec.deref].
  destruct ((AxisSpec.axis_idx a <? 0) || (AxisSpec.axis_idx a >? 2))%Z eqn:Ia;
    [discriminate |].
  destruct ((AxisSpec.axis_idx b <? 0) || (AxisSpec.axis_idx b >? 2))%Z eqn:Ib;
    [discriminate |].
  destruct (AxisSpec.axis_idx a =? AxisSpec.axis_idx b)%Z eqn:Eab;
    [discriminate |].
  destruct ((AxisSpec.axis_idx c <? 0) || (AxisSpec.axis_idx c >? 2))%Z eqn:Ic;
    [discriminate |].
  destruct (AxisSpec.axis_idx b =? AxisSpec.axis_idx c)%Z eqn:Ebc;
    [discriminate |].
  intros [= <-].
  pose proof (idx_letter a Ia) as La. pose proof (idx_letter b Ib) as Lb.
  pose proof (idx_letter c Ic) as Lc.
  cbn [AxisSpec.three_letters]. rewrite La, Lb, Lc.
  apply Z.eqb_neq in Eab, Ebc.
  apply orb_false_iff in Ia, Ib, Ic.
  destruct Ia as [Ia1 Ia2], Ib as [Ib1 Ib2], Ic as [Ic1 Ic2].
  apply Z.ltb_ge in Ia1, Ib1, Ic1.
  rewrite Z.gtb_ltb in Ia2, Ib2, Ic2. apply Z.ltb_ge in Ia2, Ib2, Ic2.
  assert (E1 : (Z.to_nat (AxisSpec.axis_idx a) =? Z.to_nat (AxisSpec.axis_idx b))%nat
               = false) by (apply Nat.eqb_neq; lia).
  assert (E2 : (Z.to_nat (AxisSpec.axis_idx b) =? Z.to_nat (AxisSpec.axis_idx c))%nat
               = false) by (apply Nat.eqb_neq; lia).
  rewrite E1, E2. reflexivity.
Qed.

Lemma three_letters_length (s : string) (axes : list nat) :
  AxisSpec.three_letters s = Some axes -> AxisSpec.strlen s = 3%nat.
Proof.
  intros H. destruct (three_letters_some _ _ H)
    as (a & b & c & i & j & k & -> & _). reflexivity.
Qed.

Lemma parse_accepted (s : string) (r : bool * list nat) :
  s <> "rpy"%string -> AxisSpec.parse s = inr r ->
  AxisSpec.expected (AxisSpec.constData s) = Some r.
Proof.
  intros Hn. unfold AxisSpec.parse.
  destruct (String.eqb_spec s "rpy") as [E | _]; [contradiction |].
  destruct (AxisSpec.constData s) as [| p rest] eqn:Ec.
  { cbn [AxisSpec.deref]. change (Ascii.eqb AxisSpec.NUL "s") with false.
    change (Ascii.eqb AxisSpec.NUL "r") with false. cbv iota.
    change (AxisSpec.strlen "" =? 3)%nat with false.
    rewrite orb_true_r. discriminate. }
  cbn [AxisSpec.deref AxisSpec.advance AxisSpec.expected].
  destruct (Ascii.eqb p "s") eqn:Es.
  { destruct (String.eqb s "" || negb (AxisSpec.strlen rest =? 3)%nat) eqn:El;
      [discriminate |].
    apply orb_false_iff in El. destruct El as [_ El].
    apply negb_false_iff, Nat.eqb_eq in El.
    destruct (AxisSpec.axes_loop rest 3 0 []) as [msg | axes] eqn:Ea;
      [discriminate |].
    intros [= <-]. now rewrite (axes_loop_letters rest axes El Ea). }
  destruct (Ascii.eqb p "r") eqn:Er.
  { destruct (String.eqb s "" || negb (AxisSpec.strlen rest =? 3)%nat) eqn:El;
      [discriminate |].
    apply orb_false_iff in El. destruct El as [_ El].
    apply negb_false_iff, Nat.eqb_eq in El.
    destruct (AxisSpec.axes_loop rest 3 0 []) as [msg | axes] eqn:Ea;
      [discriminate |].
    intros [= <-]. now rewrite (axes_loop_letters rest axes El Ea). }
  destruct (String.eqb s "" || negb (AxisSpec.strlen (String p rest) =? 3)%nat)
    eqn:El; [discriminate |].
  apply orb_false_iff in El. destruct El as [_ El].
  apply negb_false_iff, Nat.eqb_eq in El.
  destruct (AxisSpec.axes_loop (String p rest) 3 0 []) as [msg | axes] eqn:Ea;
    [discriminate |].
  intros [= <-]. now rewrite (axes_loop_letters _ axes El Ea).
Qed.

Lemma parse_constData (s : string) :
  AxisSpec.constData s <> "rpy"%string ->
  AxisSpec.parse s = AxisSpec.parse (AxisSpec.constData s).
Proof.
  intros Hn.
  assert (Hs : s <> "rpy"%string) by (intros ->; now apply Hn).
  unfold AxisSpec.parse.
  destruct (String.eqb_spec s "rpy") as [E | _]; [contradiction |].
  destruct (String.eqb_spec (AxisSpec.constData s) "rpy") as [E | _];
    [contradiction |].
  rewrite constData_idem.
  destruct (Ascii.eqb (AxisSpec.deref (AxisSpec.constData s)) "s");
    [| destruct (Ascii.eqb (AxisSpec.deref (AxisSpec.constData s)) "r")].
  all: destruct s as [| c s]; [reflexivity |];
    destruct (String.eqb_spec (String c s) "") as [E | _]; [discriminate |];
    destruct (String.eqb_spec (AxisSpec.constData (String c s)) "") as [E | _];
    [| reflexivity];
    rewrite E; reflexivity.
Qed.

Lemma expected_not_rpy (r : bool * list nat) :
  AxisSpec.expected "rpy" <> Some r.
Proof. discriminate. Qed.

Lemma parse_inr (s : string) (r : bool * list nat) :
  AxisSpec.parse s = inr r ->
  (s = "rpy"%string /\ r = (true, [0; 1; 2]%nat)) \/
  AxisSpec.expected (AxisSpec.constData s) = Some r.
Proof.
  intros H. destruct (String.eqb_spec s "rpy") as [E | E].
  - left. split; [exact E |]. subst s.
    change (AxisSpec.parse "rpy")
      with (@inr string (bool * list nat) (true, [0; 1; 2]%nat)) in H.
    now injection H.
  - right. now apply parse_accepted.
Qed.

Lemma expected_valid (s : string) (fixed : bool) (axes : list nat) :
  AxisSpec.expected s = Some (fixed, axes) -> valid_axes axes.
Proof.
  assert (T : forall t, AxisSpec.three_letters t = Some axes -> valid_axes axes).
  { intros t H.
    destruct (three_letters_some _ _ H)
      as (a & b & c & i & j & k & _ & -> & Ha & Hb & Hc & Hij & Hjk).
    exists i, j, k.
    apply letter_index_some in Ha, Hb, Hc.
    repeat split; try assumption;
      [ destruct Ha as [[_ ->] | [[_ ->] | [_ ->]]]
      | destruct Hb as [[_ ->] | [[_ ->] | [_ ->]]]
      | destruct Hc as [[_ ->] | [[_ ->] | [_ ->]]] ]; lia. }
  destruct s as [| p rest]; [discriminate |]. unfold AxisSpec.expected.
  destruct (Ascii.eqb p "s");
    [| destruct (Ascii.eqb p "r")];
    match goal with
    | |- option_map _ (AxisSpec.three_letters ?t) = _ -> _ =>
        destruct (AxisSpec.three_letters t) as [l |] eqn:E; [| discriminate];
        intros [= _ <-]; exact (T _ E)
    end.
Qed.

Lemma parse_valid (s : string) (fixed : bool) (axes : list nat) :
  AxisSpec.parse s = inr (fixed, axes) -> valid_axes axes.
Proof.
  intros H. apply parse_inr in H.
  destruct H as [[_ [= _ ->]] | H].
  - exists 0%nat, 1%nat, 2%nat. repeat split; lia.
  - exact (expected_valid _ _ _ H).
Qed.

(** X1. [setEulerAxes] accepts "rpy" and the strings whose characters up
    to the first NUL are in the grammar [sr]?[xyz]{3} without two equal
    consecutive letters, and nothing else; "rpy" stands for the fixed frame
    with the axes x, y, z, the others give the frame and the axes of the
    grammar. *)
Theorem setEulerAxes_accepts_exactly (s : string) (r : bool * list nat) :
  AxisSpec.parse s = inr r <->
  (s = "rpy"%string /\ r = (true, [0; 1; 2]%nat)) \/
  AxisSpec.expected (AxisSpec.constData s) = Some r.
Proof.
  split.
  - apply parse_inr.
  - intros [[-> ->] | H]; [reflexivity |].
    rewrite parse_constData.
    + now apply parse_expected.
    + intros E. rewrite E in H. discriminate.
Qed.


(** ** What every reachable state satisfies *)

Section Invariants.

Context {RT : Runtime}.

Lemma summary_with_value (s : string) (e : EulerProperty) :
  summary (with_value s e) = summary e.
Proof. reflexivity. Qed.

Lemma summary_with_quaternion (q : Quaterniond) (e : EulerProperty) :
  summary (with_quaternion q e) = summary e.
Proof. reflexivity. Qed.

Lemma summary_with_ignore (b : bool) (e : EulerProperty) :
  summary (with_ignore b e) = summary e.
Proof. reflexivity. Qed.

(** [setEulerAngles(euler, false)] establishes the invariant from the axis
    fields alone. *)
Lemma coherent_angles_applied (euler : Vector3d) (e : EulerProperty) :
  ignore_child_updates_ e = false -> consistent e ->
  euler_names_ e = map (fun a => nth a xyzNames ""%string) (axes_ e) ->
  coherent (angles_applied euler e).
Proof.
  intros Hi Hc Hn. unfold angles_applied. cbv zeta. rewrite Hi.
  cbn [quaternion_ with_euler].
  destruct (isApprox (quaternion_ e) (compose (fixed_ e) (axes_ e) euler)) eqn:A;
    unfold coherent, consistent;
    cbn [ignore_child_updates_ axes_string_ fixed_ axes_ euler_names_ value_
         euler_ quaternion_ with_value with_euler with_quaternion];
    repeat split; assumption.
Qed.

Lemma coherent_angles_updated (e : EulerProperty) :
  ignore_child_updates_ e = false -> consistent e ->
  euler_names_ e = map (fun a => nth a xyzNames ""%string) (axes_ e) ->
  coherent (angles_updated e).
Proof. apply coherent_angles_applied. Qed.

Lemma coherent_quaternion_set (q : Quaterniond) (e : EulerProperty) :
  coherent e -> coherent (quaternion_set q e).
Proof.
  intros H. unfold quaternion_set. destruct (isApprox _ _); [exact H |].
  destruct H as (Hi & Hc & Hn & _).
  now apply coherent_angles_updated.
Qed.

Lemma coherent_axes_set (s : string) (e : EulerProperty) :
  coherent e -> coherent (axes_set s e).
Proof.
  intros H. unfold axes_set. destruct (String.eqb _ _); [exact H |].
  destruct (AxisSpec.parse s) as [msg | [fixed axes]] eqn:Ep; [exact H |].
  destruct H as (Hi & _).
  apply coherent_angles_updated; [exact Hi | exact Ep | reflexivity].
Qed.

Lemma coherent_children_read (v : Vector3d) (e : EulerProperty) :
  coherent e -> coherent (children_read (with_euler v e)).
Proof.
  intros (Hi & Hc & Hn & _). unfold children_read.
  cbn [ignore_child_updates_ with_euler]. rewrite Hi.
  unfold angles_applied. cbv zeta.
  cbn [ignore_child_updates_ with_ignore with_euler quaternion_ fixed_ axes_
       euler_].
  destruct (isApprox (quaternion_ e) (compose (fixed_ e) (axes_ e) (radians v)))
    eqn:A;
    unfold coherent, consistent;
    cbn [ignore_child_updates_ axes_string_ fixed_ axes_ euler_names_ value_
         euler_ quaternion_ with_value with_euler with_quaternion with_ignore];
    repeat split; assumption.
Qed.

Lemma coherent_E_spec (c : Call) (e : EulerProperty) :
  coherent e -> coherent (E_spec c e).
Proof.
  intros H. destruct c; cbn [E_spec]; try exact H.
  - now apply coherent_quaternion_set.
  - destruct normalize; [now apply coherent_quaternion_set |].
    destruct H as (Hi & Hc & Hn & _). now apply coherent_angles_applied.
  - now apply coherent_axes_set.
  - replace e with (with_euler (euler_ e) e) at 1 by (now destruct e).
    now apply coherent_children_read.
  - destruct H as (Hi & Hc & Hn & _). now apply coherent_angles_updated.
  - destruct (Req_dec_T _ _); [exact H |]. now apply coherent_children_read.
  - now apply coherent_quaternion_set.
  - destruct normalize; [now apply coherent_quaternion_set |].
    destruct H as (Hi & Hc & Hn & _). now apply coherent_angles_applied.
  - now apply coherent_axes_set.
Qed.

Lemma euler_string_updated (w : World) : eul (string_updated w) = eul w.
Proof. unfold string_updated. destruct (String.eqb _ _); reflexivity. Qed.

Lemma rflag_string_updated (w : World) : rflag (string_updated w) = rflag w.
Proof. unfold string_updated. destruct (String.eqb _ _); reflexivity. Qed.

Lemma euler_angles_unconnected (euler : Vector3d) (w : World) :
  eul (angles_unconnected euler w) = angles_applied euler (eul w).
Proof.
  unfold angles_unconnected, angles_applied, children_set, eflag. cbv zeta.
  destruct (ignore_child_updates_ (eul w));
    [change (quaternion_ (eul (emits aboutToChange w)))
       with (quaternion_ (eul w))
    | change (quaternion_
                (eul (emits aboutToChange
                        (on_euler (with_euler (degrees euler)) w))))
        with (quaternion_ (eul w));
      cbn [quaternion_ with_euler] ];
    destruct (isApprox _ _); reflexivity.
Qed.

Lemma coherent_constructed_world (value : Quaterniond) :
  coherent (eul (constructed_world value)) /\
  rflag (constructed_world value) = false.
Proof.
  unfold constructed_world. cbv zeta. split.
  - rewrite euler_string_updated.
    change (eul (mkWorld (mkRot (eul ?w) _ _ _ _) _)) with (eul w).
    rewrite euler_angles_unconnected.
    apply coherent_angles_applied; reflexivity.
  - rewrite rflag_string_updated. reflexivity.
Qed.

(** The Euler property after an edit of the quaternion field. *)
Lemma euler_field_world (q : Quaterniond) (w : World) :
  rflag w = false ->
  eul (field_world q w) = eul w \/
  eul (field_world q w) = quaternion_set q (eul w).
Proof.
  intros Hr. unfold field_world. cbv zeta.
  destruct (quat_eqb _ _); [now left |].
  change (rflag (on_rotation (with_quaternion_property q) w)) with (rflag w).
  rewrite Hr.
  destruct (isApproxf _ _); [now left |].
  right. rewrite euler_string_updated.
  change (eul (on_rotation (with_show_euler_string false) ?x)) with (eul x).
  destruct (world_post _ _ _ _
              (exec_rotation_world 0 q (on_rotation (with_quaternion_property q) w))
              Hr) as (_ & _ & H & _).
  exact H.
Qed.

Lemma exec_public_coherent (fuel : nat) (c : Call) (w w' : World) :
  public c -> coherent (eul w) -> rflag w = false ->
  exec fuel c w = Done w' ->
  coherent (eul w') /\ rflag w' = false.
Proof.
  intros Hp Hc Hr Hx.
  assert (He : entry_ok c w) by (destruct c; try exact I; exact Hr).
  destruct (world_post c fuel w w' Hx He) as (_ & Fr & Hpost).
  split; [| congruence].
  destruct Hp; try (destruct Hpost as [-> _]; now apply coherent_E_spec).
  (* an edit of the quaternion field *)
  pose proof (exec_more fuel (9 + fuel) _ _ _ (Nat.le_add_l _ _) Hx) as H9.
  rewrite exec_field_world in H9. injection H9 as <-.
  destruct (euler_field_world q w Hr) as [-> | ->];
    [exact Hc | now apply coherent_quaternion_set].
Qed.

Lemma exec_raised_same (fuel : nat) (c : Call) (msg : string) (w w' : World) :
  entry_ok c w -> exec fuel c w = Raised msg w' -> w' = w.
Proof.
  intros He Hx.
  pose proof (exec_more_raised fuel (fuel + 15) _ _ _ _ (Nat.le_add_r _ _) Hx)
    as H15.
  pose proof (exec_total (fuel + 15) c w (Nat.le_add_l _ _) He) as Hs.
  rewrite H15 in Hs. apply Hs.
Qed.

Lemma reachable_coherent (w : World) :
  reachable w -> coherent (eul w) /\ rflag w = false.
Proof.
  induction 1 as [fuel value w Hn | fuel c w w' Hr IH Hp Hx
                 | fuel c msg w w' Hr IH Hp Hx].
  - rewrite (new_is_constructed_world _ _ _ Hn).
    apply coherent_constructed_world.
  - destruct IH as [Hc Hf]. exact (exec_public_coherent fuel c w w' Hp Hc Hf Hx).
  - destruct IH as [Hc Hf].
    assert (He : entry_ok c w) by (destruct c; try exact I; exact Hf).
    rewrite (exec_raised_same fuel c msg w w' He Hx). now split.
Qed.

End Invariants.

(** The state the constructors leave from the identity, under the example
    runtime. *)
Lemma to_degrees_zero : angles.to_degrees 0 = 0.
Proof. unfold angles.to_degrees, Rdiv. ring. Qed.

Lemma example_constructed_new :
  @RotationProperty_new example_runtime 5 q_one = Done example_constructed.
Proof.
  etransitivity; [exact (@exec_constructed_world example_runtime 0 q_one) |].
  f_equal.
  unfold constructed_world, angles_unconnected, children_set, eflag. cbv zeta.
  change (ignore_child_updates_ (eul ?w)) with false. cbv iota.
  change (@decompose example_runtime true [0; 1; 2]%nat q_one) with (Vec3 0 0 0).
  unfold degrees. cbn [v0 v1 v2]. rewrite to_degrees_zero.
  rewrite compose_zero.
  change (quaternion_ (eul (emits aboutToChange ?w))) with q_one.
  rewrite isApprox_refl. reflexivity.
Qed.

Lemma example_constructed_reachable :
  @reachable example_runtime example_constructed.
Proof. exact (reachable_new 5 q_one _ example_constructed_new). Qed.

(** ** Invariants of the Euler property *)

(** X2. In every reachable state the axis fields agree with the axes
    string (parsing the string again gives the stored frame flag and axis
    order), the axis order is three indices in 0..2 with consecutive ones
    different, and the three angle fields carry the names x, y, z of their
    axes. *)
Theorem reachable_axes_valid {RT : Runtime} (w : World) :
  reachable w ->
  AxisSpec.parse (axes_string_ (eul w)) = inr (fixed_ (eul w), axes_ (eul w)) /\
  valid_axes (axes_ (eul w)) /\
  euler_names_ (eul w)
  = map (fun a => nth a xyzNames ""%string) (axes_ (eul w)).
Proof.
  intros H. destruct (reachable_coherent w H) as ((_ & Hc & Hn & _) & _).
  split; [exact Hc |]. split; [exact (parse_valid _ _ _ Hc) | exact Hn].
Qed.

Lemma reachable_axes_valid_witness :
  @reachable example_runtime example_constructed /\
  AxisSpec.parse (axes_string_ (eul example_constructed))
  = inr (fixed_ (eul example_constructed), axes_ (eul example_constructed)) /\
  valid_axes (axes_ (eul example_constructed)) /\
  euler_names_ (eul example_constructed)
  = map (fun a => nth a xyzNames ""%string) (axes_ (eul example_constructed)).
Proof.
  split; [exact example_constructed_reachable |].
  exact (@reachable_axes_valid example_runtime example_constructed
           example_constructed_reachable).
Defined.

(** X3. In every reachable state the summary string of the Euler property
    is the one [updateString] builds from the current axes string and the
    current values of the three angle fields. *)
Theorem reachable_summary_current {RT : Runtime} (w : World) :
  reachable w -> value_ (eul w) = summary (eul w).
Proof.
  intros H. destruct (reachable_coherent w H) as ((_ & _ & _ & Hv) & _).
  exact Hv.
Qed.

Lemma reachable_summary_current_witness :
  @reachable example_runtime example_constructed /\
  value_ (eul example_constructed)
  = @summary example_runtime (eul example_constructed).
Proof.
  split; [exact example_constructed_reachable |].
  exact (@reachable_summary_current example_runtime example_constructed
           example_constructed_reachable).
Defined.

(** ** Setting angles *)

Section AnglesFacts.

Context {RT : Runtime}.

Lemma value_angles_applied (euler : Vector3d) (e : EulerProperty) :
  value_ (angles_applied euler e) = summary (angles_applied euler e).
Proof. reflexivity. Qed.

Lemma euler_angles_applied_ignored (euler : Vector3d) (e : EulerProperty) :
  ignore_child_updates_ e = true ->
  euler_ (angles_applied euler e) = euler_ e.
Proof.
  intros H. unfold angles_applied. cbv zeta. rewrite H.
  destruct (isApprox _ _); reflexivity.
Qed.

End AnglesFacts.

(** X5. [setEulerAngles(euler, false)] always returns.  The observers of
    the Euler property receive [aboutToChange] first and [changed] last,
    also when nothing changes, and between them [quaternionChanged(q)]
    exactly when the stored quaternion is not approximately equal to the
    composed quaternion q.  Afterwards the summary string is up to date;
    the angle fields hold the given angles in degrees, unless the call came
    from [updateFromChildren], which leaves the fields as they are. *)
Theorem setEulerAngles_signals {RT : Runtime} (n : nat) (w : World)
  (euler : Vector3d) :
  (4 <= n)%nat ->
  let q := compose (fixed_ (eul w)) (axes_ (eul w)) euler in
  exists w' : World,
    exec n (E_setEulerAngles euler false) w = Done w' /\
    euler_signals (news w w')
    = aboutToChange
        :: (if isApprox (quaternion_ (eul w)) q then []
            else [quaternionChanged q]) ++ [changed] /\
    value_ (eul w') = summary (eul w') /\
    (eflag w = false -> euler_ (eul w') = degrees euler) /\
    (eflag w = true -> euler_ (eul w') = euler_ (eul w)).
Proof.
  intros Hn. cbv zeta.
  pose proof (exec_more 4 n _ _ _ Hn (exec_angles_world 0 euler w)) as Hx.
  exists (angles_world euler w). split; [exact Hx |].
  destruct (world_post _ _ _ _ Hx I) as (_ & _ & Hw & Hl).
  cbn [E_spec E_log] in Hw, Hl.
  split; [exact (news_appended _ _ _ Hl) |].
  rewrite Hw. split; [apply value_angles_applied |]. split.
  - apply euler_angles_applied.
  - apply euler_angles_applied_ignored.
Qed.

Lemma setEulerAngles_signals_witness :
  (4 <= 4)%nat /\
  exists w' : World,
    @exec example_runtime 4 (E_setEulerAngles (Vec3 0 0 0) false) example_world
    = Done w' /\
    euler_signals (news example_world w')
    = aboutToChange
        :: (if isApprox (quaternion_ (eul example_world))
                 (compose (fixed_ (eul example_world))
                    (axes_ (eul example_world)) (Vec3 0 0 0))
            then []
            else [quaternionChanged
                    (compose (fixed_ (eul example_world))
                       (axes_ (eul example_world)) (Vec3 0 0 0))])
        ++ [changed] /\
    value_ (eul w') = @summary example_runtime (eul w') /\
    (eflag example_world = false -> euler_ (eul w') = degrees (Vec3 0 0 0)) /\
    (eflag example_world = true -> euler_ (eul w') = euler_ (eul example_world)).
Proof.
  split; [lia |].
  exact (@setEulerAngles_signals example_runtime 4 example_world (Vec3 0 0 0)
           (le_n 4)).
Defined.

(** X6. An edit of the angle field i from outside (its [setValue(v)], with
    [emitAboutToChange] and [updateFromChildren] run by its signals) does
    nothing when v is the value the field holds.  Otherwise the field keeps
    v as typed and the other two fields are untouched; the stored
    quaternion becomes the quaternion composed from the three fields, read
    in degrees, unless it is approximately equal to it already; the
    observers receive [aboutToChange] twice, [quaternionChanged] when the
    quaternion was replaced, and [changed] once. *)
Theorem angle_field_edit {RT : Runtime} (n i : nat) (v : R) (w : World) :
  (6 <= n)%nat -> (i < 3)%nat -> eflag w = false ->
  (v = vget (euler_ (eul w)) i -> exec n (F_setValue i v) w = Done w) /\
  (v <> vget (euler_ (eul w)) i ->
   let fields := vset (euler_ (eul w)) i v in
   let q := compose (fixed_ (eul w)) (axes_ (eul w)) (radians fields) in
   exists w' : World,
     exec n (F_setValue i v) w = Done w' /\
     euler_ (eul w') = fields /\
     quaternion_ (eul w')
     = (if isApprox (quaternion_ (eul w)) q then quaternion_ (eul w) else q) /\
     euler_signals (news w w')
     = aboutToChange :: aboutToChange
         :: (if isApprox (quaternion_ (eul w)) q then []
             else [quaternionChanged q]) ++ [changed] /\
     value_ (eul w') = summary (eul w') /\
     eflag w' = false).
Proof.
  intros Hn Hi He.
  pose proof (exec_more 6 n _ _ _ Hn (exec_angle_field_world 0 i v w)) as Hx.
  split.
  - intros Hv. rewrite Hx. unfold angle_field_world.
    destruct (Req_dec_T v (vget (euler_ (eul w)) i)); [reflexivity |].
    contradiction.
  - intros Hv. cbv zeta. exists (angle_field_world i v w).
    split; [exact Hx |].
    destruct (world_post _ _ _ _ Hx I) as (Fe & _ & Hw & Hl).
    cbn [E_spec E_log] in Hw, Hl.
    destruct (Req_dec_T v (vget (euler_ (eul w)) i)); [contradiction |].
    unfold eflag in He.
    unfold children_read, children_signals in Hw, Hl.
    cbn [ignore_child_updates_ with_euler] in Hw, Hl.
    rewrite He in Hw, Hl.
    pose proof (news_appended _ _ _ Hl) as Hnews. rewrite Hnews, Hw.
    unfold angles_applied, angles_signals. cbv zeta.
    cbn [ignore_child_updates_ with_ignore with_euler quaternion_ fixed_ axes_
         euler_ app].
    split; [destruct (isApprox _ _); reflexivity |].
    split; [destruct (isApprox _ _); reflexivity |].
    split; [reflexivity |].
    split; [destruct (isApprox _ _); reflexivity |].
    unfold eflag in *. congruence.
Qed.

Lemma angle_field_edit_witness :
  ((6 <= 6)%nat /\ (0 < 3)%nat /\ eflag example_world = false) /\
  (90 <> vget (euler_ (eul example_world)) 0) /\
  exists w' : World,
    @exec example_runtime 6 (F_setValue 0 90) example_world = Done w' /\
    euler_ (eul w') = Vec3 90 0 0 /\
    eflag w' = false.
Proof.
  assert (H3 : (0 < 3)%nat) by lia.
  assert (Hv : 90 <> vget (euler_ (eul example_world)) 0)
    by (simpl; lra).
  split; [split; [lia | split; [exact H3 | reflexivity]] |].
  split; [exact Hv |].
  destruct (@angle_field_edit example_runtime 6 0 90 example_world
              (le_n 6) H3 eq_refl) as [_ H].
  destruct (H Hv) as (w' & Hx & Hf & _ & _ & _ & He).
  exists w'. split; [exact Hx |]. split; [exact Hf | exact He].
Defined.

(** X7. [setEulerAngles(euler, true)] is [setQuaternion] of the composed
    quaternion q: when q is approximately equal to the stored quaternion
    nothing happens at all, whatever angles were given; otherwise the
    angle fields do not show the given angles but those that Eigen's
    decomposition returns for q, and the stored quaternion is q, or the
    quaternion re-composed from those angles when that is not
    approximately equal to q. *)
Theorem setEulerAngles_normalizes {RT : Runtime} (n : nat) (w : World)
  (euler : Vector3d) :
  (7 <= n)%nat -> eflag w = false ->
  let q := compose (fixed_ (eul w)) (axes_ (eul w)) euler in
  (isApprox (quaternion_ (eul w)) q = true ->
   exec n (E_setEulerAngles euler true) w = Done w) /\
  (isApprox (quaternion_ (eul w)) q = false ->
   exists w' : World,
     exec n (E_setEulerAngles euler true) w = Done w' /\
     euler_ (eul w')
     = degrees (decompose (fixed_ (eul w)) (axes_ (eul w)) q) /\
     quaternion_ (eul w')
     = (if isApprox q (recomposed q (eul w)) then q
        else recomposed q (eul w))).
Proof.
  intros Hn He. cbv zeta.
  pose proof (exec_more 7 n _ _ _ Hn (exec_normalized_world 0 euler w)) as Hx.
  split; intros Ha.
  - rewrite Hx. unfold quaternion_world. now rewrite Ha.
  - eexists. split; [exact Hx |].
    rewrite euler_quaternion_world. split.
    + unfold quaternion_set. rewrite Ha. unfold angles_updated.
      rewrite euler_angles_applied by exact He. reflexivity.
    + rewrite quaternion_quaternion_set, Ha. reflexivity.
Qed.

Lemma setEulerAngles_normalizes_witness :
  ((7 <= 7)%nat /\ eflag example_world = false) /\
  isApprox (quaternion_ (eul example_world))
    (compose (fixed_ (eul example_world)) (axes_ (eul example_world))
       (Vec3 0 0 0)) = true /\
  @exec example_runtime 7 (E_setEulerAngles (Vec3 0 0 0) true) example_world
  = Done example_world.
Proof.
  assert (Ha : isApprox (quaternion_ (eul example_world))
                 (compose (fixed_ (eul example_world))
                    (axes_ (eul example_world)) (Vec3 0 0 0)) = true)
    by (rewrite compose_zero; apply isApprox_refl).
  split; [split; [lia | reflexivity] |]. split; [exact Ha |].
  destruct (@setEulerAngles_normalizes example_runtime 7 example_world
              (Vec3 0 0 0) (le_n 7) eq_refl) as [H _].
  exact (H Ha).
Defined.

(** ** Saving and loading *)

Lemma mapGetValue_set (config : Config) (key : string) (v : QVariant) :
  mapGetValue (mapSetValue config key v) key = Some v.
Proof.
  induction config as [| [k x] rest IH]; cbn [mapSetValue mapGetValue].
  - now rewrite String.eqb_refl.
  - destruct (String.eqb k key) eqn:E; cbn [mapGetValue]; rewrite E;
      [reflexivity | exact IH].
Qed.

Lemma mapGetValue_set_other (config : Config) (key key' : string)
  (v : QVariant) :
  key <> key' ->
  mapGetValue (mapSetValue config key v) key' = mapGetValue config key'.
Proof.
  intros Hk.
  induction config as [| [k x] rest IH]; cbn [mapSetValue mapGetValue].
  - destruct (String.eqb_spec key key'); [contradiction | reflexivity].
  - destruct (String.eqb_spec k key) as [-> | Ek]; cbn [mapGetValue].
    + destruct (String.eqb_spec key key'); [contradiction | reflexivity].
    + destruct (String.eqb k key'); [reflexivity | exact IH].
Qed.

Section Saved.

Context {RT : Runtime}.

(** What [load] finds in a configuration written by [save]. *)
Lemma saved_values (e : EulerProperty) (config : Config) :
  mapGetString (EulerProperty_save e config) "axes" = Some (axes_string_ e) /\
  mapGetFloat (EulerProperty_save e config) "e1" = Some (v0 (euler_ e)) /\
  mapGetFloat (EulerProperty_save e config) "e2" = Some (v1 (euler_ e)) /\
  mapGetFloat (EulerProperty_save e config) "e3" = Some (v2 (euler_ e)).
Proof.
  unfold mapGetString, mapGetFloat, EulerProperty_save. cbv zeta.
  repeat split.
  - rewrite !mapGetValue_set_other by discriminate.
    now rewrite mapGetValue_set.
  - rewrite !mapGetValue_set_other by discriminate.
    now rewrite mapGetValue_set.
  - rewrite !mapGetValue_set_other by discriminate.
    now rewrite mapGetValue_set.
  - now rewrite mapGetValue_set.
Qed.

Lemma load_saved (n : nat) (e : EulerProperty) (config : Config) :
  EulerProperty_load n (EulerProperty_save e config) =
  (exec n (E_setEulerAxes (axes_string_ e)) ;;
   exec n (E_setEulerAngles (radians (euler_ e)) true))%op.
Proof.
  unfold EulerProperty_load.
  destruct (saved_values e config) as (-> & -> & -> & ->). reflexivity.
Qed.

End Saved.

(** X9. Loading what [save] wrote from one reachable property into any
    reachable property never throws: the saved axes string is a valid
    spec.  The loading property ends with the axes string, frame flag and
    axis order of the saved one. *)
Theorem load_saved_never_throws {RT : Runtime} (n : nat) (w w0 : World)
  (config : Config) :
  (15 <= n)%nat -> reachable w -> reachable w0 ->
  exists w' : World,
    RotationProperty_load n (RotationProperty_save (rotation w) config) w0
    = Done w' /\
    axes_string_ (eul w') = axes_string_ (eul w) /\
    fixed_ (eul w') = fixed_ (eul w) /\
    axes_ (eul w') = axes_ (eul w).
Proof.
  intros Hn Hr Hr0.
  destruct (reachable_coherent w Hr) as ((_ & Hc & _) & _).
  destruct (reachable_coherent w0 Hr0) as ((_ & Hc0 & _) & _).
  unfold RotationProperty_load, RotationProperty_save.
  fold (eul w). rewrite load_saved. unfold andThen.
  assert (Hn1 : raises (E_setEulerAxes (axes_string_ (eul w))) (eul w0) = None).
  { cbn [raises]. unfold consistent in Hc. rewrite Hc.
    now destruct (String.eqb _ _). }
  destruct (exec_done n (E_setEulerAxes (axes_string_ (eul w))) w0 Hn I Hn1)
    as (w1 & -> & _ & _ & Hw1 & _).
  destruct (exec_done n (E_setEulerAngles (radians (euler_ (eul w))) true)
              w1 Hn I eq_refl) as (w2 & -> & _ & _ & Hw2 & _).
  exists w2. split; [reflexivity |].
  cbn [E_spec] in Hw1, Hw2.
  destruct (frame_fields _ _
              (frame_quaternion_set
                 (compose (fixed_ (eul w1)) (axes_ (eul w1))
                    (radians (euler_ (eul w)))) (eul w1)))
    as (F1 & F2 & F3 & _).
  rewrite <- Hw2 in F1, F2, F3. rewrite F1, F2, F3, Hw1.
  exact (axes_set_fields _ (eul w0) _ _ Hc0 Hc).
Qed.

Lemma load_saved_never_throws_witness :
  ((15 <= 15)%nat /\ @reachable example_runtime example_constructed) /\
  exists w' : World,
    @RotationProperty_load example_runtime 15
      (RotationProperty_save (rotation example_constructed) [])
      example_constructed = Done w' /\
    axes_string_ (eul w') = axes_string_ (eul example_constructed) /\
    fixed_ (eul w') = fixed_ (eul example_constructed) /\
    axes_ (eul w') = axes_ (eul example_constructed).
Proof.
  split; [split; [lia | exact example_constructed_reachable] |].
  exact (@load_saved_never_throws example_runtime 15 example_constructed
           example_constructed [] (le_n 15) example_constructed_reachable
           example_constructed_reachable).
Defined.

(** ** The rotation property and its two children *)

Lemma quat_eqb_eq (a b : Quaterniond) : quat_eqb a b = true -> a = b.
Proof.
  destruct a, b. unfold quat_eqb. cbn [qw qx qy qz].
  repeat destruct (Req_dec_T _ _); try discriminate. intros _. now subst.
Qed.

Lemma isApproxPrec_mono (p p' : R) (a b : Quaterniond) :
  0 <= p <= p' -> isApproxPrec p a b = true -> isApproxPrec p' a b = true.
Proof.
  intros Hp. unfold isApproxPrec.
  destruct (Rle_dec _ _) as [L |]; [intros _ | discriminate].
  destruct (Rle_dec _ _) as [| N]; [reflexivity | exfalso; apply N].
  pose proof (Rmin_nonneg _ _ (squaredNorm_nonneg a) (squaredNorm_nonneg b)).
  assert (p * p <= p' * p') by nra. nra.
Qed.

Lemma dummy_precision_le_float : 0 <= dummy_precision <= dummy_precision_float.
Proof.
  unfold dummy_precision, dummy_precision_float. split.
  - left. apply Rinv_0_lt_compat. lra.
  - apply Rinv_le_contravar; lra.
Qed.

(** Equal within the tolerance of [double] is equal within that of
    [float]. *)
Lemma isApprox_isApproxf (a b : Quaterniond) :
  isApprox a b = true -> isApproxf b a = true.
Proof.
  intros H. unfold isApproxf. rewrite isApproxPrec_sym.
  exact (isApproxPrec_mono _ _ _ _ dummy_precision_le_float H).
Qed.

Lemma news_exact (w w' : World) (s : list Signal) :
  emitted w' = (emitted w ++ s)%list -> news w w' = s.
Proof.
  intros H. unfold news. rewrite H, skipn_app, skipn_all, Nat.sub_diag.
  reflexivity.
Qed.

Section Face.

Context {RT : Runtime}.

Lemma child_set_child (q : Quaterniond) (w : World) :
  quaternion_property_ (rotation (child_set q w)) = q.
Proof.
  unfold child_set. destruct (quat_eqb _ _) eqn:E; [| reflexivity].
  symmetry. now apply quat_eqb_eq.
Qed.

Lemma face_child_set (q : Quaterniond) (w : World) :
  face (child_set q w) = face w /\ rflag (child_set q w) = rflag w /\
  eul (child_set q w) = eul w /\ emitted (child_set q w) = emitted w.
Proof. unfold child_set. destruct (quat_eqb _ _); repeat split. Qed.

Lemma face_emits (s : Signal) (w : World) :
  rot_signal s = false -> face (emits s w) = face w.
Proof.
  intros H. unfold face, emits, rotation_signals. cbn [rotation emitted].
  rewrite filter_app. cbn [filter]. rewrite H, app_nil_r. reflexivity.
Qed.

Lemma string_updated_fields (w : World) :
  rot_value_ (rotation (string_updated w)) = shown w /\
  show_euler_string_ (rotation (string_updated w))
  = show_euler_string_ (rotation w) /\
  quaternion_property_ (rotation (string_updated w))
  = quaternion_property_ (rotation w).
Proof.
  unfold string_updated.
  destruct (String.eqb_spec (rot_value_ (rotation w)) (shown w));
    repeat split; assumption.
Qed.

Lemma face_children_set (euler : Vector3d) (w : World) :
  face (children_set euler w) = face w /\
  rflag (children_set euler w) = rflag w /\
  rotation (children_set euler w)
  = mkRot (eul (children_set euler w)) (quaternion_property_ (rotation w))
          (rot_ignore_child_updates_ (rotation w))
          (show_euler_string_ (rotation w)) (rot_value_ (rotation w)) /\
  quaternion_ (eul (children_set euler w)) = quaternion_ (eul w) /\
  value_ (eul (children_set euler w)) = value_ (eul w) /\
  emitted (children_set euler w) = emitted w.
Proof.
  unfold children_set. destruct (eflag w); repeat split.
  now destruct w as [[e qp ri sh rv] em].
Qed.

(** While the rotation property ignores its children, a call of
    [setEulerAngles(euler, false)] leaves its face alone. *)
Lemma face_angles_world (euler : Vector3d) (w : World) :
  rflag w = true ->
  face (angles_world euler w) = face w /\ rflag (angles_world euler w) = true.
Proof.
  intros Hr. unfold angles_world, summary_updated. cbv zeta.
  destruct (face_children_set euler w) as (F1 & R1 & _).
  set (w0 := children_set euler w) in *.
  set (w1 := emits aboutToChange w0).
  assert (H1 : face w1 = face w /\ rflag w1 = true).
  { split; [| change (rflag w0 = true); congruence].
    unfold w1. now rewrite face_emits. }
  destruct H1 as [Fw1 Rw1].
  destruct (isApprox _ _).
  - split; [| exact Rw1].
    rewrite face_emits by reflexivity. exact Fw1.
  - set (q := compose (fixed_ (eul w)) (axes_ (eul w)) euler).
    set (x := emits (quaternionChanged q) (on_euler (with_quaternion q) w1)).
    assert (Hx : face x = face w /\ rflag x = true).
    { split; [| exact Rw1]. unfold x. now rewrite face_emits. }
    destruct Hx as [Fx Rx].
    unfold euler_followed. cbv zeta.
    destruct (face_child_set q x) as (Fc & Rc & _).
    rewrite Rc, Rx.
    split.
    + rewrite face_emits by reflexivity.
      change (face (on_euler ?f (child_set q x))) with (face (child_set q x)).
      congruence.
    + change (rflag (child_set q x) = true). congruence.
Qed.

Lemma face_quaternion_world (q : Quaterniond) (w : World) :
  rflag w = true ->
  face (quaternion_world q w) = face w /\ rflag (quaternion_world q w) = true.
Proof.
  intros Hr. unfold quaternion_world, update_world.
  destruct (isApprox _ _); [now split |].
  apply (face_angles_world _ (on_euler (with_quaternion q) w)). exact Hr.
Qed.

Lemma quiet_news (w w' : World) (l : list Signal) :
  appended w w' l ->
  rotation_signals (emitted w') = rotation_signals (emitted w) ->
  rotation_signals (news w w') = [].
Proof.
  intros (s & Hs & _) H. rewrite (news_exact _ _ _ Hs).
  rewrite Hs in H. unfold rotation_signals in *. rewrite filter_app in H.
  apply (app_inv_head (filter rot_signal (emitted w))).
  now rewrite app_nil_r.
Qed.

End Face.

(** X10. [RotationProperty::setQuaternion(q)], for a q that is not
    approximately equal to the current quaternion, leaves the quaternion
    child holding exactly q and refreshes the summary string of the Euler
    child, but it never refreshes the rotation property's own summary
    string: its display flag and its string stay as they were and it emits
    none of its own signals. *)
Theorem RotationProperty_setQuaternion_keeps_string {RT : Runtime} (n : nat)
  (w : World) (q : Quaterniond) :
  (7 <= n)%nat -> rflag w = false -> isApprox (getQuaternion w) q = false ->
  exists w' : World,
    exec n (R_setQuaternion q) w = Done w' /\
    quaternion_property_ (rotation w') = q /\
    value_ (eul w') = summary (eul w') /\
    show_euler_string_ (rotation w') = show_euler_string_ (rotation w) /\
    rot_value_ (rotation w') = rot_value_ (rotation w) /\
    rotation_signals (news w w') = [] /\
    rflag w' = false.
Proof.
  intros Hn Hr Ha.
  pose proof (exec_more 7 n _ _ _ Hn (exec_rotation_world 0 q w)) as Hx.
  exists (rotation_world q w). split; [exact Hx |].
  destruct (world_post _ _ _ _ Hx Hr) as (_ & Fr & Hw & Hl).
  cbn [E_spec E_log] in Hw, Hl.
  assert (Hv : value_ (eul (rotation_world q w))
               = summary (eul (rotation_world q w))).
  { rewrite Hw. unfold quaternion_set. unfold getQuaternion in Ha.
    rewrite Ha. apply value_angles_applied. }
  unfold rotation_world in *. rewrite Ha in *.
  set (w0 := on_rotation (with_rot_ignore true) w) in *.
  destruct (face_quaternion_world q w0 eq_refl) as [Fq Rq].
  destruct (face_child_set q (quaternion_world q w0)) as (Fc & _).
  assert (Ff : face (on_rotation (with_rot_ignore false)
                       (child_set q (quaternion_world q w0))) = face w).
  { change (face (on_rotation (with_rot_ignore false) ?x)) with (face x).
    rewrite Fc, Fq. reflexivity. }
  unfold face in Ff. injection Ff as F1 F2 F3.
  split; [apply child_set_child |].
  split; [exact Hv |].
  split; [exact F1 |]. split; [exact F2 |].
  split; [exact (quiet_news _ _ _ Hl F3) |].
  reflexivity.
Qed.

Lemma RotationProperty_setQuaternion_keeps_string_witness :
  ((7 <= 7)%nat /\ rflag example_world = false /\
   isApprox (getQuaternion example_world) q_minus_one = false) /\
  exists w' : World,
    @exec example_runtime 7 (R_setQuaternion q_minus_one) example_world
    = Done w' /\
    quaternion_property_ (rotation w') = q_minus_one /\
    rot_value_ (rotation w') = rot_value_ (rotation example_world).
Proof.
  split; [split; [lia | split; [reflexivity | exact one_not_minus_one]] |].
  destruct (@RotationProperty_setQuaternion_keeps_string example_runtime 7
              example_world q_minus_one (le_n 7) eq_refl one_not_minus_one)
    as (w' & Hx & Hq & _ & _ & Hv & _).
  exists w'. split; [exact Hx |]. split; [exact Hq | exact Hv].
Defined.

(** X11. An edit of the quaternion field to a value q within the
    tolerance of [float] ([isApprox] at 1e-5) of the current quaternion is
    kept by the field and ignored by everything else: the Euler property,
    the display flag and the summary string of the rotation property are
    unchanged and no signal is emitted, so [getQuaternion()] and the field
    then show different values. *)
Theorem quaternion_field_edit_within_tolerance {RT : Runtime} (n : nat)
  (w : World) (q : Quaterniond) :
  (2 <= n)%nat -> isApproxf q (getQuaternion w) = true ->
  exists w' : World,
    exec n (Q_setQuaternion q) w = Done w' /\
    quaternion_property_ (rotation w') = q /\
    eul w' = eul w /\
    show_euler_string_ (rotation w') = show_euler_string_ (rotation w) /\
    rot_value_ (rotation w') = rot_value_ (rotation w) /\
    emitted w' = emitted w /\
    rflag w' = rflag w.
Proof.
  intros Hn Ha.
  pose proof (exec_more 2 n _ _ _ Hn
                (exec_child_set 0 q w (or_intror Ha))) as Hx.
  exists (child_set q w). split; [exact Hx |].
  split; [apply child_set_child |].
  destruct (face_child_set q w) as (Ff & Fr & Fe & Fm).
  unfold face in Ff. injection Ff as F1 F2 _.
  repeat split; assumption.
Qed.

Lemma quaternion_field_edit_within_tolerance_witness :
  ((2 <= 2)%nat /\ isApproxf q_one (getQuaternion example_world) = true) /\
  exists w' : World,
    @exec example_runtime 2 (Q_setQuaternion q_one) example_world = Done w' /\
    quaternion_property_ (rotation w') = q_one /\
    eul w' = eul example_world.
Proof.
  assert (Ha : isApproxf q_one (getQuaternion example_world) = true)
    by apply isApproxf_refl.
  split; [split; [lia | exact Ha] |].
  destruct (@quaternion_field_edit_within_tolerance example_runtime 2
              example_world q_one (le_n 2) Ha)
    as (w' & Hx & Hq & He & _).
  exists w'. split; [exact Hx |]. split; [exact Hq | exact He].
Defined.

(** X12. An edit of the quaternion field to a value q that differs from
    the value the field holds and is not within the tolerance of [float]
    of the current quaternion goes through
    [RotationProperty::setQuaternion(q)]: the field ends holding exactly
    q, the rotation property switches its display to the quaternion and
    its summary string becomes "quat: " followed by the text of the field,
    and the Euler property stores q, or the quaternion re-composed from
    the angles of q when that is not approximately equal to q. *)
Theorem quaternion_field_edit {RT : Runtime} (n : nat) (w : World)
  (q : Quaterniond) :
  (9 <= n)%nat -> rflag w = false ->
  quat_eqb q (quaternion_property_ (rotation w)) = false ->
  isApproxf q (getQuaternion w) = false ->
  exists w' : World,
    exec n (Q_setQuaternion q) w = Done w' /\
    quaternion_property_ (rotation w') = q /\
    show_euler_string_ (rotation w') = false /\
    rot_value_ (rotation w') = ("quat: " ++ quaternion_text q)%string /\
    quaternion_ (eul w')
    = (if isApprox q (recomposed q (eul w)) then q
       else recomposed q (eul w)) /\
    rflag w' = false.
Proof.
  intros Hn Hr Hq Ha.
  pose proof (exec_more 9 n _ _ _ Hn (exec_field_world 0 q w)) as Hx.
  exists (field_world q w). split; [exact Hx |].
  assert (Hd : isApprox (getQuaternion w) q = false).
  { destruct (isApprox (getQuaternion w) q) eqn:E; [| reflexivity].
    apply isApprox_isApproxf in E. congruence. }
  unfold field_world. cbv zeta. rewrite Hq.
  set (w1 := on_rotation (with_quaternion_property q) w).
  change (rflag w1) with (rflag w). rewrite Hr.
  change (getQuaternion w1) with (getQuaternion w). rewrite Ha.
  set (w2 := rotation_world q w1).
  destruct (string_updated_fields (on_rotation (with_show_euler_string false) w2))
    as (S1 & S2 & S3).
  rewrite S1, S2, S3, euler_string_updated, rflag_string_updated.
  change (eul (on_rotation (with_show_euler_string false) w2)) with (eul w2).
  change (rflag (on_rotation (with_show_euler_string false) w2)) with (rflag w2).
  assert (Hc : quaternion_property_ (rotation w2) = q).
  { unfold w2, rotation_world. change (getQuaternion w1) with (getQuaternion w).
    rewrite Hd.
    change (quaternion_property_ (rotation (on_rotation (with_rot_ignore false) ?x)))
      with (quaternion_property_ (rotation x)).
    apply child_set_child. }
  destruct (world_post _ _ _ _ (exec_rotation_world 0 q w1) Hr)
    as (_ & Fr & Hw & _).
  fold w2 in Fr, Hw. cbn [E_spec] in Hw.
  split; [exact Hc |]. split; [reflexivity |].
  split.
  - unfold shown. cbn [show_euler_string_ rotation on_rotation
                       with_show_euler_string quaternion_property_].
    now rewrite Hc.
  - split; [| rewrite Fr; exact Hr].
    rewrite Hw. change (eul w1) with (eul w).
    rewrite quaternion_quaternion_set.
    unfold getQuaternion in Hd. now rewrite Hd.
Qed.

Lemma quaternion_field_edit_witness :
  ((9 <= 9)%nat /\ rflag example_world = false /\
   quat_eqb q_minus_one (quaternion_property_ (rotation example_world)) = false /\
   isApproxf q_minus_one (getQuaternion example_world) = false) /\
  exists w' : World,
    @exec example_runtime 9 (Q_setQuaternion q_minus_one) example_world
    = Done w' /\
    quaternion_property_ (rotation w') = q_minus_one /\
    show_euler_string_ (rotation w') = false.
Proof.
  assert (Hq : quat_eqb q_minus_one
                 (quaternion_property_ (rotation example_world)) = false).
  { unfold quat_eqb, q_minus_one. cbn.
    destruct (Req_dec_T (-1) 1) as [E |]; [lra | reflexivity]. }
  assert (Ha : isApproxf q_minus_one (getQuaternion example_world) = false).
  { destruct (isApproxf q_minus_one (getQuaternion example_world)) eqn:E;
      [| reflexivity].
    exfalso. unfold isApproxf in E.
    change (getQuaternion example_world) with q_one in E.
    rewrite <- qneg_one in E.
    refine (not_approx_both dummy_precision_float (qneg q_one) q_one _
              q_one_unit E _).
    - unfold dummy_precision_float. split.
      + left. apply Rinv_0_lt_compat. lra.
      + apply (Rmult_lt_reg_r 100000); [lra |]. rewrite Rinv_l; lra.
    - apply isApproxPrec_refl. }
  split; [split; [lia | split; [reflexivity | split; [exact Hq | exact Ha]]] |].
  destruct (@quaternion_field_edit example_runtime 9 example_world q_minus_one
              (le_n 9) eq_refl Hq Ha) as (w' & Hx & Hc & Hs & _).
  exists w'. split; [exact Hx |]. split; [exact Hc | exact Hs].
Defined.

(** ** The summary string of the rotation property *)

(** The rotation property after [setEulerAngles(euler, false)], while it
    is not ignoring its children. *)
Lemma rotation_after_angles {RT : Runtime} (euler : Vector3d) (w : World) :
  rflag w = false ->
  let q := compose (fixed_ (eul w)) (axes_ (eul w)) euler in
  let w' := angles_world euler w in
  (isApprox (quaternion_ (eul w)) q = false ->
   quaternion_property_ (rotation w') = q /\
   show_euler_string_ (rotation w') = true /\
   rot_value_ (rotation w') = value_ (eul w)) /\
  (isApprox (quaternion_ (eul w)) q = true ->
   quaternion_property_ (rotation w') = quaternion_property_ (rotation w) /\
   show_euler_string_ (rotation w') = show_euler_string_ (rotation w) /\
   rot_value_ (rotation w') = rot_value_ (rotation w) /\
   rotation_signals (news w w') = []).
Proof.
  intros Hr. cbv zeta.
  unfold angles_world, summary_updated. cbv zeta.
  set (q := compose (fixed_ (eul w)) (axes_ (eul w)) euler).
  destruct (face_children_set euler w) as (_ & R0 & Hrot & Hq0 & Hv0 & Hm0).
  set (w0 := children_set euler w) in *.
  change (quaternion_ (eul (emits aboutToChange w0))) with (quaternion_ (eul w0)).
  rewrite Hq0.
  split; intros Ha; rewrite Ha.
  - set (x := emits (quaternionChanged q)
                (on_euler (with_quaternion q) (emits aboutToChange w0))).
    change (quaternion_property_ (rotation (emits changed (on_euler ?f ?y))))
      with (quaternion_property_ (rotation y)).
    change (show_euler_string_ (rotation (emits changed (on_euler ?f ?y))))
      with (show_euler_string_ (rotation y)).
    change (rot_value_ (rotation (emits changed (on_euler ?f ?y))))
      with (rot_value_ (rotation y)).
    unfold euler_followed. cbv zeta.
    destruct (face_child_set q x) as (_ & Rc & Ec & _).
    assert (Rx : rflag (child_set q x) = false).
    { rewrite Rc. change (rflag x) with (rflag w0). congruence. }
    rewrite Rx.
    destruct (string_updated_fields
                (on_rotation (with_show_euler_string true) (child_set q x)))
      as (S1 & S2 & S3).
    rewrite S1, S2, S3.
    split; [apply child_set_child |]. split; [reflexivity |].
    unfold shown.
    cbn [show_euler_string_ rotation on_rotation with_show_euler_string].
    change (eul (on_rotation (with_show_euler_string true) (child_set q x)))
      with (eul (child_set q x)).
    rewrite Ec. change (value_ (eul x)) with (value_ (eul w0)). exact Hv0.
  - change (rotation (emits changed (on_euler ?f (emits aboutToChange w0))))
      with (mkRot (f (eul w0)) (quaternion_property_ (rotation w0))
                  (rot_ignore_child_updates_ (rotation w0))
                  (show_euler_string_ (rotation w0))
                  (rot_value_ (rotation w0))).
    cbn [quaternion_property_ show_euler_string_ rot_value_].
    rewrite Hrot. cbn [quaternion_property_ show_euler_string_ rot_value_].
    repeat split.
    rewrite (news_exact w _ [aboutToChange; changed]); [reflexivity |].
    change (emitted (emits changed (on_euler ?f (emits aboutToChange w0))))
      with ((emitted w0 ++ [aboutToChange]) ++ [changed])%list.
    rewrite Hm0, <- app_assoc. reflexivity.
Qed.

(** X13. When [setEulerAngles(euler, false)] replaces the stored
    quaternion and the rotation property is not ignoring its children, the
    rotation property copies the new quaternion to the quaternion child,
    switches its display to the Euler angles and takes as its summary
    string the summary string the Euler property had before the call: the
    Euler property builds its new summary only after it has emitted
    [quaternionChanged].  When the stored quaternion is kept, the rotation
    property is not told at all: its child, display flag and summary string
    stay as they were and it emits nothing, although the Euler property's
    angle fields and summary string may have changed. *)
Theorem rotation_summary_lags {RT : Runtime} (n : nat) (w : World)
  (euler : Vector3d) :
  (4 <= n)%nat -> rflag w = false ->
  let q := compose (fixed_ (eul w)) (axes_ (eul w)) euler in
  exists w' : World,
    exec n (E_setEulerAngles euler false) w = Done w' /\
    value_ (eul w') = summary (eul w') /\
    (isApprox (quaternion_ (eul w)) q = false ->
     quaternion_property_ (rotation w') = q /\
     show_euler_string_ (rotation w') = true /\
     rot_value_ (rotation w') = value_ (eul w)) /\
    (isApprox (quaternion_ (eul w)) q = true ->
     quaternion_property_ (rotation w') = quaternion_property_ (rotation w) /\
     show_euler_string_ (rotation w') = show_euler_string_ (rotation w) /\
     rot_value_ (rotation w') = rot_value_ (rotation w) /\
     rotation_signals (news w w') = []).
Proof.
  intros Hn Hr. cbv zeta.
  pose proof (exec_more 4 n _ _ _ Hn (exec_angles_world 0 euler w)) as Hx.
  exists (angles_world euler w). split; [exact Hx |].
  destruct (world_post _ _ _ _ Hx I) as (_ & _ & Hw & _).
  cbn [E_spec] in Hw.
  split; [rewrite Hw; apply value_angles_applied |].
  exact (rotation_after_angles euler w Hr).
Qed.

Lemma rotation_summary_lags_witness :
  ((4 <= 4)%nat /\ rflag example_world = false) /\
  exists w' : World,
    @exec example_runtime 4 (E_setEulerAngles (Vec3 (2 * PI) 0 0) false)
      example_world = Done w' /\
    quaternion_property_ (rotation w') = q_minus_one /\
    show_euler_string_ (rotation w') = true /\
    rot_value_ (rotation w') = value_ (eul example_world).
Proof.
  split; [split; [lia | reflexivity] |].
  destruct (@rotation_summary_lags example_runtime 4 example_world
              (Vec3 (2 * PI) 0 0) (le_n 4) eq_refl)
    as (w' & Hx & _ & H & _).
  exists w'. split; [exact Hx |].
  change (compose (fixed_ (eul example_world)) (axes_ (eul example_world))
            (Vec3 (2 * PI) 0 0))
    with (compose true [0; 1; 2]%nat (Vec3 (2 * PI) 0 0)) in H.
  rewrite compose_full_turn in H.
  exact (H one_not_minus_one).
Defined.

(** X14. An edit of an angle field from outside that replaces the stored
    quaternion, while the rotation property is not ignoring its children,
    makes the rotation property copy the new quaternion to the quaternion
    child, switch its display to the Euler angles and take as its summary
    string the summary string the Euler property had before the edit; the
    Euler property's own summary string is up to date when the edit
    returns. *)
Theorem angle_edit_summary_lags {RT : Runtime} (n i : nat) (v : R)
  (w : World) :
  (6 <= n)%nat -> (i < 3)%nat -> eflag w = false -> rflag w = false ->
  v <> vget (euler_ (eul w)) i ->
  let q := compose (fixed_ (eul w)) (axes_ (eul w))
             (radians (vset (euler_ (eul w)) i v)) in
  isApprox (quaternion_ (eul w)) q = false ->
  exists w' : World,
    exec n (F_setValue i v) w = Done w' /\
    quaternion_property_ (rotation w') = q /\
    show_euler_string_ (rotation w') = true /\
    rot_value_ (rotation w') = value_ (eul w) /\
    value_ (eul w') = summary (eul w').
Proof.
  intros Hn Hi He Hr Hv. cbv zeta. intros Ha.
  pose proof (exec_more 6 n _ _ _ Hn (exec_angle_field_world 0 i v w)) as Hx.
  exists (angle_field_world i v w). split; [exact Hx |].
  destruct (world_post _ _ _ _ Hx I) as (_ & _ & Hw & _).
  cbn [E_spec] in Hw.
  destruct (Req_dec_T v (vget (euler_ (eul w)) i)) as [| _] in Hw;
    [contradiction |].
  assert (Hs : value_ (eul (angle_field_world i v w))
               = summary (eul (angle_field_world i v w))).
  { rewrite Hw. unfold children_read.
    cbn [ignore_child_updates_ with_euler]. unfold eflag in He. rewrite He.
    reflexivity. }
  unfold angle_field_world in *.
  destruct (Req_dec_T v (vget (euler_ (eul w)) i)); [contradiction |].
  rewrite He in *.
  set (x := on_euler (fun e => with_euler (vset (euler_ e) i v) e)
              (emits aboutToChange w)) in *.
  unfold children_world in *.
  change (eflag x) with (eflag w) in *. rewrite He in *.
  set (y := on_euler (with_ignore true) x) in *.
  destruct (rotation_after_angles (radians (euler_ (eul x))) y Hr) as [H _].
  change (quaternion_property_
            (rotation (on_euler (with_ignore false) ?z)))
    with (quaternion_property_ (rotation z)).
  change (show_euler_string_ (rotation (on_euler (with_ignore false) ?z)))
    with (show_euler_string_ (rotation z)).
  change (rot_value_ (rotation (on_euler (with_ignore false) ?z)))
    with (rot_value_ (rotation z)).
  split; [| split; [| split; [| exact Hs]]]; apply (H Ha).
Qed.

Lemma angle_edit_summary_lags_witness :
  ((6 <= 6)%nat /\ (0 < 3)%nat /\ eflag example_world = false /\
   rflag example_world = false /\
   360 <> vget (euler_ (eul example_world)) 0 /\
   isApprox (quaternion_ (eul example_world))
     (compose (fixed_ (eul example_world)) (axes_ (eul example_world))
        (radians (vset (euler_ (eul example_world)) 0 360))) = false) /\
  exists w' : World,
    @exec example_runtime 6 (F_setValue 0 360) example_world = Done w' /\
    show_euler_string_ (rotation w') = true /\
    rot_value_ (rotation w') = value_ (eul example_world).
Proof.
  assert (H3 : (0 < 3)%nat) by lia.
  assert (Hv : 360 <> vget (euler_ (eul example_world)) 0) by (simpl; lra).
  assert (Ha : isApprox (quaternion_ (eul example_world))
                 (compose (fixed_ (eul example_world))
                    (axes_ (eul example_world))
                    (radians (vset (euler_ (eul example_world)) 0 360)))
               = false).
  { change (quaternion_ (eul example_world)) with q_one.
    replace (radians (vset (euler_ (eul example_world)) 0 360))
      with (Vec3 (2 * PI) 0 0).
    - change (compose (fixed_ (eul example_world)) (axes_ (eul example_world))
                (Vec3 (2 * PI) 0 0))
        with (compose true [0; 1; 2]%nat (Vec3 (2 * PI) 0 0)).
      rewrite compose_full_turn. exact one_not_minus_one.
    - unfold radians, angles.from_degrees. cbn [vset euler_ eul rotation
        euler_property_ example_world v0 v1 v2].
      f_equal; field; apply PI_neq0. }
  split;
    [split; [lia | split; [exact H3 | split; [reflexivity | split;
       [reflexivity | split; [exact Hv | exact Ha]]]]] |].
  destruct (@angle_edit_summary_lags example_runtime 6 0 360 example_world
              (le_n 6) H3 eq_refl eq_refl Hv Ha)
    as (w' & Hx & _ & Hs & Hr & _).
  exists w'. split; [exact Hx |]. split; [exact Hs | exact Hr].
Defined.

(** ** Construction, observed *)

Lemma world_constructed {RT : Runtime} (value : Quaterniond) :
  quaternion_ (eul (constructed_world value))
  = (if isApprox value
          (compose true [0; 1; 2]%nat (decompose true [0; 1; 2]%nat value))
     then value
     else compose true [0; 1; 2]%nat (decompose true [0; 1; 2]%nat value)) /\
  quaternion_property_ (rotation (constructed_world value)) = value.
Proof.
  unfold constructed_world. cbv zeta. split.
  - rewrite euler_string_updated.
    change (eul (mkWorld (mkRot (eul ?w) _ _ _ _) _)) with (eul w).
    rewrite euler_angles_unconnected, quaternion_angles_applied. reflexivity.
  - match goal with
    | |- quaternion_property_ (rotation (string_updated ?x)) = _ =>
        destruct (string_updated_fields x) as (_ & _ & ->)
    end.
    reflexivity.
Qed.

(** X15. The constructors leave the property on the axes "rpy" (fixed
    frame, axes x, y, z) with the angle fields showing Eigen's angles of
    the given quaternion.  The Euler child stores the given quaternion, or
    the quaternion re-composed from those angles when that is not
    approximately equal to it, while the quaternion child holds the given
    value as it is.  The display is the Euler summary string, which is up
    to date; the signals of the Euler child reach nobody, and the rotation
    property emits its [aboutToChange] and [changed] once. *)
Theorem constructor_state {RT : Runtime} (n : nat) (value : Quaterniond) :
  (5 <= n)%nat ->
  let angles := decompose true [0; 1; 2]%nat value in
  let q := compose true [0; 1; 2]%nat angles in
  exists w : World,
    RotationProperty_new n value = Done w /\
    axes_string_ (eul w) = "rpy"%string /\ fixed_ (eul w) = true /\
    axes_ (eul w) = [0; 1; 2]%nat /\
    euler_names_ (eul w) = ["x"; "y"; "z"]%string /\
    euler_ (eul w) = degrees angles /\
    quaternion_ (eul w) = (if isApprox value q then value else q) /\
    quaternion_property_ (rotation w) = value /\
    show_euler_string_ (rotation w) = true /\
    value_ (eul w) = summary (eul w) /\
    rot_value_ (rotation w) = value_ (eul w) /\
    emitted w = [rot_aboutToChange; rot_changed] /\
    eflag w = false /\ rflag w = false.
Proof.
  intros Hn. cbv zeta.
  exists (constructed_world value).
  assert (Hx : RotationProperty_new n value = Done (constructed_world value)).
  { replace n with (5 + (n - 5))%nat by lia. apply exec_constructed_world. }
  split; [exact Hx |].
  unfold constructed_world. cbv zeta.
  set (w0 := mkWorld (mkRot (EulerProperty_init value) value false true ""%string) []).
  set (w1 := on_euler (with_axes "rpy" true [0; 1; 2]%nat ["x"; "y"; "z"]%string) w0).
  set (w2 := angles_unconnected (decompose true [0; 1; 2]%nat value) w1).
  set (w3 := mkWorld (mkRot (eul w2) value false true ""%string) []).
  assert (E2 : eul w2 = angles_applied (decompose true [0; 1; 2]%nat value) (eul w1))
    by apply euler_angles_unconnected.
  assert (E3 : eul w3 = eul w2) by reflexivity.
  destruct (frame_fields _ _
              (frame_angles_applied (decompose true [0; 1; 2]%nat value) (eul w1)))
    as (F1 & F2 & F3 & F4).
  rewrite <- E2 in F1, F2, F3, F4.
  assert (Hv : value_ (eul w2) = summary (eul w2))
    by (rewrite E2; apply value_angles_applied).
  assert (Hs : String.eqb (rot_value_ (rotation w3)) (shown w3) = false).
  { unfold shown.
    change (show_euler_string_ (rotation w3)) with true. cbv iota.
    change (rot_value_ (rotation w3)) with ""%string.
    rewrite E3, Hv. unfold summary. rewrite F1. reflexivity. }
  unfold string_updated. rewrite Hs.
  change (eul (emits rot_changed
                 (on_rotation (with_rot_value (shown w3))
                    (emits rot_aboutToChange w3)))) with (eul w2).
  rewrite F1, F2, F3.
  split; [reflexivity |]. split; [reflexivity |]. split; [reflexivity |].
  split.
  { rewrite E2. unfold angles_applied. cbv zeta.
    destruct (ignore_child_updates_ (eul w1)); destruct (isApprox _ _);
      reflexivity. }
  split; [rewrite E2; apply euler_angles_applied; reflexivity |].
  split; [rewrite E2, quaternion_angles_applied; reflexivity |].
  split; [reflexivity |]. split; [reflexivity |].
  split; [exact Hv |].
  split; [reflexivity |].
  split; [reflexivity |].
  split; [exact F4 | reflexivity].
Qed.

Lemma constructor_state_witness :
  (5 <= 5)%nat /\
  exists w : World,
    @RotationProperty_new example_runtime 5 q_one = Done w /\
    axes_string_ (eul w) = "rpy"%string /\
    quaternion_property_ (rotation w) = q_one /\
    emitted w = [rot_aboutToChange; rot_changed].
Proof.
  split; [lia |].
  destruct (@constructor_state example_runtime 5 q_one (le_n 5))
    as (w & Hx & Ha & _ & _ & _ & _ & _ & Hq & _ & _ & _ & He & _).
  exists w. split; [exact Hx |]. split; [exact Ha |]. split; [exact Hq | exact He].
Defined.

(** ** The axis token of an edit string *)

Lemma lower_not_space (c : ascii) :
  Text.isLower c = true -> Text.isSpace c = false.
Proof. destruct c as [[] [] [] [] [] [] [] []]; vm_compute; congruence. Qed.

Lemma indexIn_eq (s : string) :
  Text.indexIn s =
  match Text.match_here s with
  | Some m => Some m
  | None =>
      match s with
      | EmptyString => None
      | String _ r => Text.indexIn r
      end
  end.
Proof. destruct s; reflexivity. Qed.

Lemma span_lower_all (s : string) :
  all_lowercase (fst (Text.span Text.isLower s)) = true.
Proof.
  induction s as [| c s IH]; [reflexivity |]. cbn [Text.span].
  destruct (Text.isLower c) eqn:E; [| reflexivity].
  destruct (Text.span Text.isLower s) as [a b]. cbn [fst all_lowercase] in *.
  now rewrite E, IH.
Qed.

Lemma match_here_token (s cap : string) (len : nat) :
  Text.match_here s = Some (cap, len) ->
  cap <> ""%string /\ all_lowercase cap = true.
Proof.
  unfold Text.match_here.
  destruct (Text.span Text.isSpace s) as [ws1 s1].
  pose proof (span_lower_all s1) as Ha.
  destruct (Text.span Text.isLower s1) as [cap1 s2]. cbn [fst] in Ha.
  destruct cap1 as [| c cap1]; [discriminate |].
  destruct (Text.span Text.isSpace s2) as [ws2 s3].
  intros [= <- _]. split; [discriminate | exact Ha].
Qed.

Lemma match_here_lower (c : ascii) (r : string) :
  Text.isLower c = true -> Text.match_here (String c r) <> None.
Proof.
  intros H. unfold Text.match_here. cbn [Text.span].
  rewrite (lower_not_space c H). cbn [Text.span]. rewrite H.
  destruct (Text.span Text.isLower r) as [a b].
  destruct (Text.span Text.isSpace b) as [ws2 s3]. discriminate.
Qed.

Lemma match_here_other (c : ascii) (r : string) :
  Text.isLower c = false ->
  (Text.match_here (String c r) = None <-> Text.match_here r = None) \/
  Text.match_here (String c r) = None.
Proof.
  intros H. unfold Text.match_here. cbn [Text.span].
  destruct (Text.isSpace c).
  - left. destruct (Text.span Text.isSpace r) as [a b].
    destruct (Text.span Text.isLower b) as [cap1 s2].
    destruct cap1; [tauto |].
    destruct (Text.span Text.isSpace s2) as [ws2 s3].
    split; discriminate.
  - right. cbn [Text.span]. now rewrite H.
Qed.

Lemma indexIn_none_iff (s : string) :
  Text.indexIn s = None <-> no_lowercase s = true.
Proof.
  induction s as [| c s IH]; [split; reflexivity |].
  cbn [no_lowercase]. rewrite indexIn_eq.
  destruct (Text.isLower c) eqn:E; cbn [negb andb].
  - pose proof (match_here_lower c s E) as Hm.
    destruct (Text.match_here (String c s)); [| contradiction].
    split; discriminate.
  - rewrite <- IH.
    destruct (match_here_other c s E) as [Hm | Hm].
    + destruct (Text.match_here (String c s)) as [m |] eqn:Em.
      * split; [discriminate |]. intros Hi. rewrite indexIn_eq in Hi.
        destruct (Text.match_here s); [discriminate |].
        assert (Some m = None) by now apply Hm. discriminate.
      * reflexivity.
    + now rewrite Hm.
Qed.

Lemma indexIn_token (s cap : string) (len : nat) :
  Text.indexIn s = Some (cap, len) ->
  cap <> ""%string /\ all_lowercase cap = true.
Proof.
  induction s as [| c s IH]; rewrite indexIn_eq.
  - destruct (Text.match_here "") as [m |] eqn:E; [| discriminate].
    intros [= ->]. exact (match_here_token _ _ _ E).
  - destruct (Text.match_here (String c s)) as [m |] eqn:E; [| exact IH].
    intros [= ->]. exact (match_here_token _ _ _ E).
Qed.

(** X16. [setValue] takes an axis token from the edit string exactly when
    the string contains a lowercase letter a..z, wherever it stands: without
    one the whole string is read as the angles; with one, the token handed
    to [setEulerAxes] is a non-empty run of lowercase letters. *)
Theorem setValue_axis_token {RT : Runtime} (s : string) :
  (Text.indexIn s = None <-> no_lowercase s = true) /\
  (forall (cap : string) (len : nat),
     Text.indexIn s = Some (cap, len) ->
     cap <> ""%string /\ all_lowercase cap = true) /\
  (forall (n : nat) (w : World),
     no_lowercase s = true ->
     EulerProperty_setValue n s w = setValue_angles n s w) /\
  (forall (n : nat) (w : World),
     no_lowercase s = false ->
     exists (cap : string) (len : nat),
       Text.indexIn s = Some (cap, len) /\
       EulerProperty_setValue n s w =
       match exec n (E_setEulerAxes cap) w with
       | Raised _ w' => ReturnsFalse w'
       | Done w' => setValue_angles n (Text.mid s len) w'
       | OutOfFuel => SetValueOutOfFuel
       end).
Proof.
  split; [apply indexIn_none_iff |]. split; [apply indexIn_token |]. split.
  - intros n w H. apply indexIn_none_iff in H.
    unfold EulerProperty_setValue. cbv zeta. now rewrite H.
  - intros n w H.
    destruct (Text.indexIn s) as [[cap len] |] eqn:E.
    + exists cap, len. split; [reflexivity |].
      unfold EulerProperty_setValue. cbv zeta. now rewrite E.
    + apply indexIn_none_iff in E. congruence.
Qed.

(** ** The summary string as an edit string *)

Lemma replace_dot0_lower (a b : string) :
  all_lowercase a = true -> replace_dot0 (a ++ b) = (a ++ replace_dot0 b)%string.
Proof.
  induction a as [| c a IH]; [reflexivity |]. cbn [all_lowercase].
  intros H. apply andb_true_iff in H. destruct H as [Hc Ha].
  specialize (IH Ha).
  destruct c as [[] [] [] [] [] [] [] []]; try discriminate Hc;
    cbn [append replace_dot0]; now rewrite IH.
Qed.

Lemma span_space_lower (c : ascii) (r : string) :
  Text.isLower c = true ->
  Text.span Text.isSpace (String c r) = (EmptyString, String c r).
Proof. intros H. cbn [Text.span]. now rewrite (lower_not_space c H). Qed.

Lemma span_lower_colon (a t : string) :
  all_lowercase a = true ->
  Text.span Text.isLower (a ++ String ":" t) = (a, String ":" t).
Proof.
  induction a as [| c a IH]; [reflexivity |]. cbn [all_lowercase].
  intros H. apply andb_true_iff in H. destruct H as [Hc Ha].
  cbn [append Text.span]. now rewrite Hc, (IH Ha).
Qed.

Lemma mid_app (a t : string) : Text.mid (a ++ t) (String.length a) = t.
Proof. induction a as [| c a IH]; [now destruct t | exact IH]. Qed.

Lemma indexIn_token_colon (a t : string) :
  a <> ""%string -> all_lowercase a = true ->
  Text.indexIn (a ++ String ":" t)
  = Some (a, (String.length a + 1)%nat) /\
  Text.mid (a ++ String ":" t) (String.length a + 1) = t.
Proof.
  intros Hn Ha. split.
  - rewrite indexIn_eq.
    assert (Hm : Text.match_here (a ++ String ":" t)
                 = Some (a, (String.length a + 1)%nat)).
    { unfold Text.match_here.
      destruct a as [| c a]; [contradiction |].
      assert (Hc : Text.isLower c = true).
      { cbn [all_lowercase] in Ha. now apply andb_true_iff in Ha. }
      change (String c a ++ String ":" t)%string
        with (String c (a ++ String ":" t)).
      rewrite (span_space_lower c _ Hc).
      change (String c (a ++ String ":" t))
        with (String c a ++ String ":" t)%string.
      rewrite (span_lower_colon _ t Ha).
      cbn [Text.span]. change (Text.isSpace ":") with false. cbv iota.
      cbn [String.length Nat.add]. now rewrite Nat.add_0_r. }
    now rewrite Hm.
  - replace (a ++ String ":" t)%string with ((a ++ ":") ++ t)%string.
    + replace (String.length a + 1)%nat with (String.length (a ++ ":")).
      * apply mid_app.
      * clear. induction a as [| c a IH]; [reflexivity |].
        cbn [append String.length]. now rewrite IH.
    + clear. induction a as [| c a IH]; [reflexivity |].
      cbn [append]. now rewrite IH.
Qed.

(** X17. The summary string that [updateString] builds is read back by
    [setValue] as the property's own axes followed by its three numbers:
    when the axes string consists of lowercase letters, as every spec of
    the grammar and "rpy" do, the axis token found in the summary is the
    axes string, [setEulerAxes] returns at once because the axes are the
    current ones, and what is left for the angles is the text after the
    colon. *)
Theorem setValue_reads_summary {RT : Runtime} (n : nat) (w : World) :
  (1 <= n)%nat ->
  axes_string_ (eul w) <> ""%string ->
  all_lowercase (axes_string_ (eul w)) = true ->
  let numbers :=
    (arg_f1 (v0 (euler_ (eul w))) ++ "; "
     ++ arg_f1 (v1 (euler_ (eul w))) ++ "; "
     ++ arg_f1 (v2 (euler_ (eul w))))%string in
  summary (eul w)
  = (axes_string_ (eul w) ++ ": " ++ replace_dot0 numbers)%string /\
  Text.indexIn (summary (eul w))
  = Some (axes_string_ (eul w), (String.length (axes_string_ (eul w)) + 1)%nat) /\
  EulerProperty_setValue n (summary (eul w)) w
  = setValue_angles n (" " ++ replace_dot0 numbers) w.
Proof.
  intros Hn Hs Ha. cbv zeta.
  set (numbers := (arg_f1 (v0 (euler_ (eul w))) ++ "; "
                   ++ arg_f1 (v1 (euler_ (eul w))) ++ "; "
                   ++ arg_f1 (v2 (euler_ (eul w))))%string).
  assert (E : summary (eul w)
              = (axes_string_ (eul w) ++ ": " ++ replace_dot0 numbers)%string).
  { unfold summary. fold numbers. now rewrite replace_dot0_lower. }
  split; [exact E |].
  destruct (indexIn_token_colon (axes_string_ (eul w))
              (" " ++ replace_dot0 numbers) Hs Ha) as [Hi Hm].
  change (axes_string_ (eul w) ++ String ":" (" " ++ replace_dot0 numbers))%string
    with (axes_string_ (eul w) ++ ": " ++ replace_dot0 numbers)%string in Hi, Hm.
  rewrite <- E in Hi, Hm.
  split; [exact Hi |].
  unfold EulerProperty_setValue. cbv zeta. rewrite Hi.
  destruct n as [| n]; [lia |].
  change (exec (S n) (E_setEulerAxes (axes_string_ (eul w))))
    with (EulerProperty_setEulerAxes (exec n) (axes_string_ (eul w))).
  unfold EulerProperty_setEulerAxes, read. rewrite String.eqb_refl.
  unfold skip. now rewrite Hm.
Qed.

Lemma setValue_reads_summary_witness :
  ((1 <= 15)%nat /\ axes_string_ (eul example_world) <> ""%string /\
   all_lowercase (axes_string_ (eul example_world)) = true) /\
  @summary example_runtime (eul example_world) = "rpy: 0; 0; 0"%string /\
  Text.indexIn (@summary example_runtime (eul example_world))
  = Some ("rpy"%string, 4%nat) /\
  @EulerProperty_setValue example_runtime 15
    (@summary example_runtime (eul example_world)) example_world
  = @setValue_angles example_runtime 15 " 0; 0; 0" example_world.
Proof.
  assert (Hn : (1 <= 15)%nat) by lia.
  assert (Hs : axes_string_ (eul example_world) <> ""%string) by discriminate.
  split; [split; [exact Hn | split; [exact Hs | reflexivity]] |].
  exact (@setValue_reads_summary example_runtime 15 example_world Hn Hs eq_refl).
Defined.

(** ** Full turns *)

Lemma AngleAxisd_full_turn (a : R) (u : Vector3d) :
  AngleAxisd (a + 2 * PI) u = qneg (AngleAxisd a u).
Proof.
  unfold AngleAxisd, qneg. cbv zeta. cbn [qw qx qy qz].
  replace (0.5 * (a + 2 * PI)) with (0.5 * a + PI) by lra.
  rewrite neg_cos, neg_sin. f_equal; ring.
Qed.

Lemma qmul_qneg_l (a b : Quaterniond) : qmul (qneg a) b = qneg (qmul a b).
Proof. unfold qmul, qneg. cbn [qw qx qy qz]. f_equal; ring. Qed.

Lemma qmul_qneg_r (a b : Quaterniond) : qmul a (qneg b) = qneg (qmul a b).
Proof. unfold qmul, qneg. cbn [qw qx qy qz]. f_equal; ring. Qed.

Lemma matrix_qneg (q : Quaterniond) : matrix (qneg q) = matrix q.
Proof. unfold matrix, qneg. cbv zeta. cbn [qw qx qy qz]. f_equal; ring. Qed.

Lemma squaredNorm_qneg (q : Quaterniond) : squaredNorm (qneg q) = squaredNorm q.
Proof. unfold squaredNorm, qneg. cbn [qw qx qy qz]. ring. Qed.

(** One more turn of any one angle negates the composed quaternion. *)
Lemma compose_turn (fixed : bool) (axes : list nat) (e : Vector3d) (k : nat) :
  compose fixed axes (vset e k (vget e k + 2 * PI))
  = qneg (compose fixed axes e).
Proof.
  unfold compose.
  destruct k as [| [| k]]; cbn [vset vget v0 v1 v2];
    destruct fixed; rewrite AngleAxisd_full_turn;
    rewrite ?qmul_qneg_l, ?qmul_qneg_r, ?qmul_qneg_l; reflexivity.
Qed.

(** X18. Adding a full turn (2 pi) to one of the three angles negates the
    composed quaternion.  So on a property whose stored quaternion is
    approximately the one composed from the angles e under valid axes,
    [setEulerAngles] with one angle of e turned once more stores the
    negated quaternion and emits [quaternionChanged], although the rotation
    matrix is the same. *)
Theorem full_turn_negates {RT : Runtime} (n k : nat) (w : World)
  (e : Vector3d) :
  (4 <= n)%nat -> valid_axes (axes_ (eul w)) ->
  let q := compose (fixed_ (eul w)) (axes_ (eul w)) e in
  let e' := vset e k (vget e k + 2 * PI) in
  isApprox (quaternion_ (eul w)) q = true ->
  compose (fixed_ (eul w)) (axes_ (eul w)) e' = qneg q /\
  exists w' : World,
    exec n (E_setEulerAngles e' false) w = Done w' /\
    quaternion_ (eul w') = qneg q /\
    matrix (quaternion_ (eul w')) = matrix q /\
    notified (news w w').
Proof.
  intros Hn Hv. cbv zeta. intros Ha.
  set (q := compose (fixed_ (eul w)) (axes_ (eul w)) e) in *.
  pose proof (compose_turn (fixed_ (eul w)) (axes_ (eul w)) e k) as Ht.
  fold q in Ht. split; [exact Ht |].
  assert (Hu : squaredNorm q = 1).
  { unfold q. destruct Hv as (a0 & a1 & a2 & -> & H0 & H1 & H2 & _).
    now apply squaredNorm_compose. }
  assert (Hd : isApprox (quaternion_ (eul w)) (qneg q) = false).
  { destruct (isApprox (quaternion_ (eul w)) (qneg q)) eqn:E; [| reflexivity].
    exfalso.
    exact (not_approx_both _ _ _ dummy_precision_range Hu Ha E). }
  pose proof (exec_more 4 n _ _ _ Hn
                (exec_angles_world 0 (vset e k (vget e k + 2 * PI)) w)) as Hx.
  eexists. split; [exact Hx |].
  destruct (world_post _ _ _ _ Hx I) as (_ & _ & Hw & Hl).
  cbn [E_spec E_log] in Hw, Hl.
  rewrite Hw, quaternion_angles_applied, Ht, Hd.
  split; [reflexivity |]. split; [apply matrix_qneg |].
  apply (notified_news _ _ _ Hl). apply notified_angles_signals.
  now rewrite Ht.
Qed.

Lemma full_turn_negates_witness :
  ((4 <= 4)%nat /\ valid_axes (axes_ (eul example_world)) /\
   isApprox (quaternion_ (eul example_world))
     (compose (fixed_ (eul example_world)) (axes_ (eul example_world))
        (Vec3 0 0 0)) = true) /\
  exists w' : World,
    @exec example_runtime 4
      (E_setEulerAngles (vset (Vec3 0 0 0) 0 (vget (Vec3 0 0 0) 0 + 2 * PI)) false)
      example_world = Done w' /\
    quaternion_ (eul w')
    = qneg (compose (fixed_ (eul example_world)) (axes_ (eul example_world))
              (Vec3 0 0 0)) /\
    notified (news example_world w').
Proof.
  assert (Hv : valid_axes (axes_ (eul example_world))).
  { exists 0%nat, 1%nat, 2%nat. repeat split; lia. }
  assert (Ha : isApprox (quaternion_ (eul example_world))
                 (compose (fixed_ (eul example_world))
                    (axes_ (eul example_world)) (Vec3 0 0 0)) = true)
    by (rewrite compose_zero; apply isApprox_refl).
  split; [split; [lia | split; [exact Hv | exact Ha]] |].
  destruct (@full_turn_negates example_runtime 4 0 example_world (Vec3 0 0 0)
              (le_n 4) Hv Ha) as (_ & w' & Hx & Hq & _ & Hn).
  exists w'. split; [exact Hx |]. split; [exact Hq | exact Hn].
Defined.

(** ** The two children of a new rotation property *)

(** X19. Whatever Eigen's decomposition returns, there is a unit
    quaternion, the identity or its negative, from which the constructors
    build a rotation property whose two children disagree: the quaternion
    child holds the given value, and the quaternion that
    [getQuaternion()] returns is not approximately equal to it. *)
Theorem new_children_can_disagree {RT : Runtime} :
  exists (value : Quaterniond) (w : World),
    (value = q_one \/ value = q_minus_one) /\
    squaredNorm value = 1 /\
    RotationProperty_new 5 value = Done w /\
    quaternion_property_ (rotation w) = value /\
    isApprox (getQuaternion w) value = false.
Proof.
  set (r := compose true [0; 1; 2]%nat (decompose true [0; 1; 2]%nat q_one)).
  assert (Hm : compose true [0; 1; 2]%nat
                 (decompose true [0; 1; 2]%nat q_minus_one) = r).
  { unfold r. now rewrite (decompose_matrix _ _ _ _ matrix_minus_one). }
  destruct (one_or_minus_one r) as [H | H].
  - exists q_one, (constructed_world q_one).
    split; [left; reflexivity |].
    split; [exact q_one_unit |].
    split; [exact (exec_constructed_world 0 q_one) |].
    destruct (world_constructed q_one) as (Hq & Hc).
    split; [exact Hc |].
    unfold getQuaternion. rewrite Hq. fold r.
    rewrite (isApprox_sym q_one r), H. exact H.
  - exists q_minus_one, (constructed_world q_minus_one).
    split; [right; reflexivity |].
    split; [rewrite <- qneg_one, squaredNorm_qneg; exact q_one_unit |].
    split; [exact (exec_constructed_world 0 q_minus_one) |].
    destruct (world_constructed q_minus_one) as (Hq & Hc).
    split; [exact Hc |].
    unfold getQuaternion. rewrite Hq, Hm.
    rewrite (isApprox_sym q_minus_one r), H. exact H.
Qed.

(** ** Setting the same axes again *)

(** X20. [setEulerAxes] with an accepted spec is idempotent: a second call
    with the same string returns at once, with the state and the signals
    as the first call left them. *)
Theorem setEulerAxes_idempotent {RT : Runtime} (n : nat) (w : World)
  (s : string) (r : bool * list nat) :
  (15 <= n)%nat -> consistent (eul w) -> AxisSpec.parse s = inr r ->
  exists w1 : World,
    exec n (E_setEulerAxes s) w = Done w1 /\
    axes_string_ (eul w1) = s /\
    exec n (E_setEulerAxes s) w1 = Done w1.
Proof.
  intros Hn Hc Hp. destruct r as [fixed axes].
  assert (Hr : raises (E_setEulerAxes s) (eul w) = None).
  { cbn [raises]. rewrite Hp. now destruct (String.eqb _ _). }
  destruct (exec_done n (E_setEulerAxes s) w Hn I Hr)
    as (w1 & Hx & _ & _ & Hw & _).
  cbn [E_spec] in Hw.
  destruct (axes_set_fields s (eul w) fixed axes Hc Hp) as (Hs & _).
  rewrite <- Hw in Hs.
  exists w1. split; [exact Hx |]. split; [exact Hs |].
  destruct n as [| n]; [lia |].
  change (exec (S n) (E_setEulerAxes s))
    with (EulerProperty_setEulerAxes (exec n) s).
  unfold EulerProperty_setEulerAxes, read.
  now rewrite Hs, String.eqb_refl.
Qed.

Lemma setEulerAxes_idempotent_witness :
  ((15 <= 15)%nat /\ consistent (eul example_world) /\
   AxisSpec.parse "rzyx" = inr (false, [2; 1; 0]%nat)) /\
  exists w1 : World,
    @exec example_runtime 15 (E_setEulerAxes "rzyx") example_world = Done w1 /\
    axes_string_ (eul w1) = "rzyx"%string /\
    @exec example_runtime 15 (E_setEulerAxes "rzyx") w1 = Done w1.
Proof.
  split; [split; [lia | split; reflexivity] |].
  exact (@setEulerAxes_idempotent example_runtime 15 example_world "rzyx"
           (false, [2; 1; 0]%nat) (le_n 15) eq_refl eq_refl).
Defined.

(** ** What [save] writes *)

(** X21. [save] writes four keys and nothing else: "axes" reads back as
    the axes string and "e1", "e2", "e3" as the values of the three angle
    fields, whatever the configuration held for them before; every other
    key reads back as before.  The quaternion is not saved. *)
Theorem save_writes_four_keys {RT : Runtime} (e : EulerProperty)
  (config : Config) :
  mapGetString (EulerProperty_save e config) "axes" = Some (axes_string_ e) /\
  mapGetFloat (EulerProperty_save e config) "e1" = Some (v0 (euler_ e)) /\
  mapGetFloat (EulerProperty_save e config) "e2" = Some (v1 (euler_ e)) /\
  mapGetFloat (EulerProperty_save e config) "e3" = Some (v2 (euler_ e)) /\
  (forall key : string,
     key <> "axes"%string -> key <> "e1"%string -> key <> "e2"%string ->
     key <> "e3"%string ->
     mapGetValue (EulerProperty_save e config) key = mapGetValue config key) /\
  (forall q : Quaterniond,
     EulerProperty_save (with_quaternion q e) config
     = EulerProperty_save e config).
Proof.
  destruct (saved_values e config) as (H1 & H2 & H3 & H4).
  split; [exact H1 |]. split; [exact H2 |]. split; [exact H3 |].
  split; [exact H4 |]. split; [| reflexivity].
  intros key K1 K2 K3 K4. unfold EulerProperty_save. cbv zeta.
  rewrite !mapGetValue_set_other by (intros E; symmetry in E; contradiction).
  reflexivity.
Qed.

(** ** What the observers are told *)

Section Bracket.

Context {RT : Runtime}.

Lemma angles_bracket (euler : Vector3d) (e : EulerProperty) :
  exists mid : list Signal,
    angles_signals euler e = aboutToChange :: mid ++ [changed] /\
    (mid = [] \/
     exists q : Quaterniond,
       mid = [quaternionChanged q] /\ quaternion_ (angles_applied euler e) = q).
Proof.
  unfold angles_signals. cbv zeta. rewrite quaternion_angles_applied.
  destruct (isApprox _ _).
  - exists []. split; [reflexivity | now left].
  - eexists. split; [reflexivity |]. right. eexists. split; reflexivity.
Qed.

End Bracket.

(** X22. A call of [setQuaternion], [setEulerAngles], [setEulerAxes] or
    [updateAngles] returns, or throws with the state as it was.  When it
    returns it has either changed no field of the Euler property and
    emitted none of its signals, or emitted [aboutToChange] first and
    [changed] last with at most one [quaternionChanged] between them; the
    quaternion that [quaternionChanged] carries is the one the property
    stores when the call returns. *)
Theorem signals_bracket_the_change {RT : Runtime} (n : nat) (o : Operation)
  (w : World) :
  (15 <= n)%nat ->
  (exists msg : string, exec n (call_of o) w = Raised msg w) \/
  (exists w' : World,
     exec n (call_of o) w = Done w' /\
     ((eul w' = eul w /\ euler_signals (news w w') = []) \/
      (exists mid : list Signal,
         euler_signals (news w w') = aboutToChange :: mid ++ [changed] /\
         (mid = [] \/
          exists q : Quaterniond,
            mid = [quaternionChanged q] /\ quaternion_ (eul w') = q)))).
Proof.
  intros Hn.
  assert (He : entry_ok (call_of o) w) by (destruct o; exact I).
  pose proof (exec_total n (call_of o) w Hn He) as S.
  destruct (exec n (call_of o) w) as [w' | msg w' |] eqn:Hx; cbn [sound] in S.
  2: { left. exists msg. destruct S as [_ ->]. reflexivity. }
  2: { contradiction. }
  right. exists w'. split; [reflexivity |].
  destruct S as (_ & _ & _ & Hpost).
  assert (H : eul w' = E_spec (call_of o) (eul w) /\
              euler_signals (news w w') = E_log (call_of o) (eul w)).
  { destruct o; destruct Hpost as [Hw Hl];
      (split; [exact Hw | exact (news_appended _ _ _ Hl)]). }
  destruct H as [-> ->].
  assert (Q : forall q e,
            (quaternion_set q e = e /\ quaternion_signals q e = []) \/
            (exists mid : list Signal,
               quaternion_signals q e = aboutToChange :: mid ++ [changed] /\
               (mid = [] \/
                exists q' : Quaterniond,
                  mid = [quaternionChanged q'] /\
                  quaternion_ (quaternion_set q e) = q'))).
  { intros q e. unfold quaternion_set, quaternion_signals.
    destruct (isApprox _ _); [now left | right].
    apply angles_bracket. }
  destruct o as [q | euler [] | s |]; cbn [call_of E_spec E_log].
  - apply Q.
  - apply Q.
  - right. apply angles_bracket.
  - unfold axes_set, axes_signals.
    destruct (String.eqb _ _); [now left |].
    destruct (AxisSpec.parse s) as [msg | [fixed axes]]; [now left | right].
    apply angles_bracket.
  - right. apply angles_bracket.
Qed.

Lemma signals_bracket_the_change_witness :
  (15 <= 15)%nat /\
  ((exists msg : string,
      @exec example_runtime 15 (call_of (SetAxes "xyq")) example_world
      = Raised msg example_world) \/
   (exists w' : World,
      @exec example_runtime 15 (call_of (SetAxes "xyq")) example_world
      = Done w' /\
      ((eul w' = eul example_world /\
        euler_signals (news example_world w') = []) \/
       (exists mid : list Signal,
          euler_signals (news example_world w')
          = aboutToChange :: mid ++ [changed] /\
          (mid = [] \/
           exists q : Quaterniond,
             mid = [quaternionChanged q] /\ quaternion_ (eul w') = q))))).
Proof.
  split; [lia |].
  exact (@signals_bracket_the_change example_runtime 15 (SetAxes "xyq")
           example_world (le_n 15)).
Defined.

(** ** How the rotation property learns of a change *)

Section Told.

Context {RT : Runtime}.

Lemma news_same_start (w w0 w' : World) :
  emitted w0 = emitted w -> news w w' = news w0 w'.
Proof. intros H. unfold news. now rewrite H. Qed.

Lemma news_none (w : World) : news w w = [].
Proof. apply news_exact. now rewrite app_nil_r. Qed.

Lemma notified_angles_world (euler : Vector3d) (w : World) :
  isApprox (quaternion_ (eul w))
           (compose (fixed_ (eul w)) (axes_ (eul w)) euler) = false ->
  notified (news w (angles_world euler w)) /\
  quaternion_ (eul (angles_world euler w))
  = compose (fixed_ (eul w)) (axes_ (eul w)) euler.
Proof.
  intros Ha.
  destruct (world_post _ _ _ _ (exec_angles_world 0 euler w) I)
    as (_ & _ & Hw & Hl).
  cbn [E_spec E_log] in Hw, Hl. split.
  - apply (notified_news _ _ _ Hl). now apply notified_angles_signals.
  - now rewrite Hw, quaternion_angles_applied, Ha.
Qed.

(** After [setEulerAngles(euler, false)] on a state [w0] that differs from
    [w] in fields of the Euler property only, and not in the summary
    string. *)
Lemma told_by_angles (euler : Vector3d) (w w0 : World) :
  rflag w = false ->
  (exists f, w0 = on_euler f w /\ value_ (f (eul w)) = value_ (eul w)) ->
  let w' := angles_world euler w0 in
  (notified (news w w') /\
   quaternion_property_ (rotation w') = quaternion_ (eul w') /\
   show_euler_string_ (rotation w') = true /\
   rot_value_ (rotation w') = value_ (eul w)) \/
  (~ notified (news w w') /\
   quaternion_property_ (rotation w') = quaternion_property_ (rotation w) /\
   show_euler_string_ (rotation w') = show_euler_string_ (rotation w) /\
   rot_value_ (rotation w') = rot_value_ (rotation w) /\
   rotation_signals (news w w') = []).
Proof.
  intros Hr (f & -> & Hv). cbv zeta.
  set (w0 := on_euler f w).
  assert (Hr0 : rflag w0 = false) by exact Hr.
  rewrite (news_same_start w w0) by reflexivity.
  destruct (rotation_after_angles euler w0 Hr0) as [H1 H2].
  destruct (isApprox (quaternion_ (eul w0))
              (compose (fixed_ (eul w0)) (axes_ (eul w0)) euler)) eqn:Ha.
  - right. destruct (H2 eq_refl) as (A & B & C & D).
    split.
    + destruct (world_post _ _ _ _ (exec_angles_world 0 euler w0) I)
        as (_ & _ & _ & Hl).
      cbn [E_log] in Hl. intros Hn.
      apply (notified_news _ _ _ Hl) in Hn.
      apply notified_angles_signals in Hn. congruence.
    + repeat split; assumption.
  - left. destruct (H1 eq_refl) as (A & B & C).
    destruct (notified_angles_world euler w0 Ha) as [Hn Hq].
    split; [exact Hn |]. split; [now rewrite A, Hq |].
    split; [exact B |]. rewrite C. exact Hv.
Qed.

Lemma untold (w : World) :
  ~ notified (news w w) /\
  quaternion_property_ (rotation w) = quaternion_property_ (rotation w) /\
  show_euler_string_ (rotation w) = show_euler_string_ (rotation w) /\
  rot_value_ (rotation w) = rot_value_ (rotation w) /\
  rotation_signals (news w w) = [].
Proof.
  rewrite news_none. split; [apply not_notified_nil |]. repeat split.
Qed.

End Told.

(** X23. While the rotation property is not ignoring its children, a call
    of [setQuaternion], [setEulerAngles], [setEulerAxes] or [updateAngles]
    on the Euler child that returns reaches it through [quaternionChanged]
    only.  If the signal was emitted, the quaternion child holds the
    quaternion the Euler child stores, the display is the Euler angles and
    the summary string is the Euler child's summary string from before the
    call.  If it was not, the quaternion child, the display flag and the
    summary string of the rotation property are as before and it has
    emitted nothing, whatever changed in the Euler child. *)
Theorem rotation_told_by_quaternionChanged {RT : Runtime} (n : nat)
  (o : Operation) (w : World) :
  (7 <= n)%nat -> rflag w = false ->
  (exists msg : string, exec n (call_of o) w = Raised msg w) \/
  (exists w' : World,
     exec n (call_of o) w = Done w' /\
     ((notified (news w w') /\
       quaternion_property_ (rotation w') = quaternion_ (eul w') /\
       show_euler_string_ (rotation w') = true /\
       rot_value_ (rotation w') = value_ (eul w)) \/
      (~ notified (news w w') /\
       quaternion_property_ (rotation w') = quaternion_property_ (rotation w) /\
       show_euler_string_ (rotation w') = show_euler_string_ (rotation w) /\
       rot_value_ (rotation w') = rot_value_ (rotation w) /\
       rotation_signals (news w w') = []))).
Proof.
  intros Hn Hr.
  assert (Q : forall q,
            exists w' : World,
              quaternion_world q w = w' /\
              ((notified (news w w') /\
                quaternion_property_ (rotation w') = quaternion_ (eul w') /\
                show_euler_string_ (rotation w') = true /\
                rot_value_ (rotation w') = value_ (eul w)) \/
               (~ notified (news w w') /\
                quaternion_property_ (rotation w')
                = quaternion_property_ (rotation w) /\
                show_euler_string_ (rotation w')
                = show_euler_string_ (rotation w) /\
                rot_value_ (rotation w') = rot_value_ (rotation w) /\
                rotation_signals (news w w') = []))).
  { intros q. eexists. split; [reflexivity |]. unfold quaternion_world.
    destruct (isApprox _ _); [right; apply untold |].
    unfold update_world. apply told_by_angles; [exact Hr |].
    eexists. split; reflexivity. }
  destruct o as [q | euler [] | s |]; cbn [call_of].
  - right. destruct (Q q) as (w' & E & H). exists w'. split; [| exact H].
    rewrite <- E. exact (exec_more 6 n _ _ _ ltac:(lia) (exec_quaternion_world 0 q w)).
  - right.
    destruct (Q (compose (fixed_ (eul w)) (axes_ (eul w)) euler))
      as (w' & E & H).
    exists w'. split; [| exact H].
    rewrite <- E.
    exact (exec_more 7 n _ _ _ Hn (exec_normalized_world 0 euler w)).
  - right. eexists. split.
    + exact (exec_more 4 n _ _ _ ltac:(lia) (exec_angles_world 0 euler w)).
    + apply told_by_angles; [exact Hr |].
      exists (fun e => e). split; [now destruct w as [[] ?] | reflexivity].
  - pose proof (exec_axes_world 0 s w) as Hx.
    destruct (String.eqb (axes_string_ (eul w)) s).
    + right. exists w. split; [| right; apply untold].
      exact (exec_more 6 n _ _ _ ltac:(lia) Hx).
    + destruct (AxisSpec.parse s) as [msg | [fixed axes]].
      * left. exists msg.
        exact (exec_more_raised 6 n _ _ _ _ ltac:(lia) Hx).
      * right. eexists. split.
        -- exact (exec_more 6 n _ _ _ ltac:(lia) Hx).
        -- unfold update_world. apply told_by_angles; [exact Hr |].
           eexists. split; reflexivity.
  - right. eexists. split.
    + exact (exec_more 5 n _ _ _ ltac:(lia) (exec_update_world 0 w)).
    + unfold update_world. apply told_by_angles; [exact Hr |].
      exists (fun e => e). split; [now destruct w as [[] ?] | reflexivity].
Qed.

Lemma rotation_told_by_quaternionChanged_witness :
  ((7 <= 7)%nat /\ rflag example_world = false) /\
  ((exists msg : string,
      @exec example_runtime 7 (call_of (SetAxes "rxyz")) example_world
      = Raised msg example_world) \/
   (exists w' : World,
      @exec example_runtime 7 (call_of (SetAxes "rxyz")) example_world
      = Done w' /\
      ((notified (news example_world w') /\
        quaternion_property_ (rotation w') = quaternion_ (eul w') /\
        show_euler_string_ (rotation w') = true /\
        rot_value_ (rotation w') = value_ (eul example_world)) \/
       (~ notified (news example_world w') /\
        quaternion_property_ (rotation w')
        = quaternion_property_ (rotation example_world) /\
        show_euler_string_ (rotation w')
        = show_euler_string_ (rotation example_world) /\
        rot_value_ (rotation w') = rot_value_ (rotation example_world) /\
        rotation_signals (news example_world w') = [])))).
Proof.
  split; [split; [lia | reflexivity] |].
  exact (@rotation_told_by_quaternionChanged example_runtime 7
           (SetAxes "rxyz") example_world (le_n 7) eq_refl).
Defined.

(** ** What leaves the axes alone *)

Section AxesKept.

Context {RT : Runtime}.

Lemma names_angles_applied (euler : Vector3d) (e : EulerProperty) :
  euler_names_ (angles_applied euler e) = euler_names_ e.
Proof.
  unfold angles_applied. cbv zeta.
  destruct (ignore_child_updates_ e); destruct (isApprox _ _); reflexivity.
Qed.

Lemma axes_angles_applied (euler : Vector3d) (e : EulerProperty) :
  axes_string_ (angles_applied euler e) = axes_string_ e /\
  fixed_ (angles_applied euler e) = fixed_ e /\
  axes_ (angles_applied euler e) = axes_ e /\
  euler_names_ (angles_applied euler e) = euler_names_ e.
Proof.
  destruct (frame_fields _ _ (frame_angles_applied euler e)) as (A & B & C & _).
  repeat split; try assumption. apply names_angles_applied.
Qed.

Lemma axes_quaternion_set (q : Quaterniond) (e : EulerProperty) :
  axes_string_ (quaternion_set q e) = axes_string_ e /\
  fixed_ (quaternion_set q e) = fixed_ e /\
  axes_ (quaternion_set q e) = axes_ e /\
  euler_names_ (quaternion_set q e) = euler_names_ e.
Proof.
  unfold quaternion_set. destruct (isApprox _ _); [repeat split |].
  apply (axes_angles_applied _ (with_quaternion q e)).
Qed.

Lemma axes_children_read (e : EulerProperty) :
  axes_string_ (children_read e) = axes_string_ e /\
  fixed_ (children_read e) = fixed_ e /\
  axes_ (children_read e) = axes_ e /\
  euler_names_ (children_read e) = euler_names_ e.
Proof.
  unfold children_read. destruct (ignore_child_updates_ e); [repeat split |].
  apply (axes_angles_applied _ (with_ignore true e)).
Qed.

End AxesKept.

(** X24. Only [setEulerAxes] changes the axes: every other call from
    outside ([setQuaternion] and [setEulerAngles] of either class, an edit
    of an angle field or of the quaternion field) returns and leaves the
    axes string, the frame flag, the axis order and the names of the angle
    fields as they were. *)
Theorem only_setEulerAxes_changes_axes {RT : Runtime} (n : nat) (c : Call)
  (w : World) :
  (15 <= n)%nat -> public c -> rflag w = false ->
  (forall s : string, c <> E_setEulerAxes s /\ c <> R_setEulerAxes s) ->
  exists w' : World,
    exec n c w = Done w' /\
    axes_string_ (eul w') = axes_string_ (eul w) /\
    fixed_ (eul w') = fixed_ (eul w) /\
    axes_ (eul w') = axes_ (eul w) /\
    euler_names_ (eul w') = euler_names_ (eul w).
Proof.
  intros Hn Hp Hr Hc.
  assert (He : entry_ok c w) by (destruct c; try exact I; exact Hr).
  assert (Hno : raises c (eul w) = None).
  { destruct c; try reflexivity; destruct (Hc axes_spec) as [A B];
      contradiction. }
  destruct (exec_done n c w Hn He Hno) as (w' & Hx & _ & _ & Hpost).
  exists w'. split; [exact Hx |].
  destruct Hp; cbn [E_spec] in Hpost.
  - destruct Hpost as [-> _]. apply axes_quaternion_set.
  - destruct Hpost as [-> _].
    destruct normalize; [apply axes_quaternion_set | apply axes_angles_applied].
  - destruct (Hc axes_spec) as [A _]. contradiction.
  - destruct Hpost as [-> _].
    destruct (Req_dec_T _ _); [repeat split |].
    apply (axes_children_read (with_euler (vset (euler_ (eul w)) i v) (eul w))).
  - pose proof (exec_more n (9 + n) _ _ _ (Nat.le_add_l _ _) Hx) as H9.
    rewrite exec_field_world in H9. injection H9 as <-.
    destruct (euler_field_world q w Hr) as [-> | ->];
      [repeat split | apply axes_quaternion_set].
  - destruct Hpost as [-> _]. apply axes_quaternion_set.
  - destruct Hpost as [-> _].
    destruct normalize; [apply axes_quaternion_set | apply axes_angles_applied].
  - destruct (Hc axes_spec) as [_ B]. contradiction.
Qed.

Lemma only_setEulerAxes_changes_axes_witness :
  ((15 <= 15)%nat /\ public (R_setQuaternion q_minus_one) /\
   rflag example_world = false /\
   (forall s : string,
      R_setQuaternion q_minus_one <> E_setEulerAxes s /\
      R_setQuaternion q_minus_one <> R_setEulerAxes s)) /\
  exists w' : World,
    @exec example_runtime 15 (R_setQuaternion q_minus_one) example_world
    = Done w' /\
    axes_string_ (eul w') = axes_string_ (eul example_world) /\
    fixed_ (eul w') = fixed_ (eul example_world) /\
    axes_ (eul w') = axes_ (eul example_world) /\
    euler_names_ (eul w') = euler_names_ (eul example_world).
Proof.
  assert (Hc : forall s : string,
             R_setQuaternion q_minus_one <> E_setEulerAxes s /\
             R_setQuaternion q_minus_one <> R_setEulerAxes s)
    by (intros s; split; discriminate).
  split;
    [split; [lia | split; [apply public_R_setQuaternion
                          | split; [reflexivity | exact Hc]]] |].
  exact (@only_setEulerAxes_changes_axes example_runtime 15
           (R_setQuaternion q_minus_one) example_world (le_n 15)
           (public_R_setQuaternion q_minus_one) eq_refl Hc).
Defined.
(** ** The silent store of setQuaternion *)

Section Silent.

Context {RT : Runtime}.

(** [setQuaternion(q)] with q not approximately equal to the stored
    quaternion, when the angles of q compose back to q within tolerance. *)
Lemma silent_world (q : Quaterniond) (w : World) :
  rflag w = false ->
  isApprox (quaternion_ (eul w)) q = false ->
  isApprox q (recomposed q (eul w)) = true ->
  let w' := quaternion_world q w in
  quaternion_ (eul w') = q /\
  ~ notified (news w w') /\
  quaternion_property_ (rotation w') = quaternion_property_ (rotation w) /\
  show_euler_string_ (rotation w') = show_euler_string_ (rotation w) /\
  rot_value_ (rotation w') = rot_value_ (rotation w) /\
  rotation_signals (news w w') = [].
Proof.
  intros Hr Ha Hq w'.
  assert (Q : quaternion_ (eul w') = q).
  { unfold w'. now rewrite euler_quaternion_world, quaternion_quaternion_set,
                 Ha, Hq. }
  assert (N : ~ notified (news w w')).
  { destruct (world_post _ _ _ _ (exec_quaternion_world 0 q w) I)
      as (_ & _ & Hw & Hl).
    intros Hn. apply (notified_news _ _ _ Hl) in Hn.
    cbn [E_log] in Hn. apply quaternion_notified in Hn.
    destruct Hn as [_ Hn]. cbn [E_spec] in Hw. fold w' in Hw.
    rewrite <- Hw, Q, isApprox_refl in Hn. discriminate. }
  split; [exact Q |]. split; [exact N |].
  assert (T := told_by_angles
                 (decompose (fixed_ (eul w)) (axes_ (eul w)) q) w
                 (on_euler (with_quaternion q) w) Hr).
  cbv zeta in T.
  assert (E : w' = angles_world
                     (decompose (fixed_ (eul w)) (axes_ (eul w)) q)
                     (on_euler (with_quaternion q) w)).
  { unfold w', quaternion_world. rewrite Ha. reflexivity. }
  rewrite <- E in T.
  destruct T as [(Hn & _) | (_ & T)].
  - eexists. split; reflexivity.
  - contradiction.
  - exact T.
Qed.

End Silent.

(** C5: the code does not emit the signal whenever the stored quaternion
    changes.  [setQuaternion(q)] assigns [quaternion_ = q] before it calls
    [updateAngles()], so the test in [setEulerAngles] compares the
    quaternion re-composed from the angles of q with q itself, not with
    the quaternion that was stored.  When q is not approximately equal to
    the stored quaternion and its angles compose back to q within
    tolerance, the call returns with q stored in place of the old
    quaternion and [quaternionChanged] not emitted; the rotation property,
    which learns of a change through that signal only, keeps its
    quaternion field and its summary string.  [setEulerAngles(euler, true)]
    with angles that compose to q, and [load] of such angles, end in the
    same state; [setEulerAngles(euler, false)] with the same angles stores
    q and emits the signal. *)
Theorem setQuaternion_stores_silently {RT : Runtime} (n : nat) (w : World)
  (q : Quaterniond) :
  (15 <= n)%nat -> rflag w = false ->
  isApprox (quaternion_ (eul w)) q = false ->
  isApprox q (recomposed q (eul w)) = true ->
  exists w' : World,
    exec n (E_setQuaternion q) w = Done w' /\
    quaternion_ (eul w') = q /\
    isApprox (quaternion_ (eul w)) (quaternion_ (eul w')) = false /\
    ~ notified (news w w') /\
    quaternion_property_ (rotation w') = quaternion_property_ (rotation w) /\
    rot_value_ (rotation w') = rot_value_ (rotation w) /\
    rotation_signals (news w w') = [] /\
    (forall euler : Vector3d,
       compose (fixed_ (eul w)) (axes_ (eul w)) euler = q ->
       exec n (E_setEulerAngles euler true) w = Done w' /\
       exists w'' : World,
         exec n (E_setEulerAngles euler false) w = Done w'' /\
         quaternion_ (eul w'') = q /\ notified (news w w'')) /\
    (forall (config : Config) (e1 e2 e3 : R),
       mapGetString config "axes" = Some (axes_string_ (eul w)) ->
       mapGetFloat config "e1" = Some e1 ->
       mapGetFloat config "e2" = Some e2 ->
       mapGetFloat config "e3" = Some e3 ->
       compose (fixed_ (eul w)) (axes_ (eul w))
         (Vec3 (angles.from_degrees e1) (angles.from_degrees e2)
               (angles.from_degrees e3)) = q ->
       RotationProperty_load n config w = Done w').
Proof.
  intros Hn Hr Ha Hq.
  destruct (silent_world q w Hr Ha Hq) as (Q & N & P & _ & V & S).
  exists (quaternion_world q w).
  assert (X : forall euler : Vector3d,
             compose (fixed_ (eul w)) (axes_ (eul w)) euler = q ->
             exec n (E_setEulerAngles euler true) w
             = Done (quaternion_world q w)).
  { intros euler Hc. rewrite <- Hc.
    exact (exec_more 7 n _ _ _ ltac:(lia) (exec_normalized_world 0 euler w)). }
  split; [exact (exec_more 6 n _ _ _ ltac:(lia) (exec_quaternion_world 0 q w)) |].
  split; [exact Q |]. split; [now rewrite Q |]. split; [exact N |].
  split; [exact P |]. split; [exact V |]. split; [exact S |]. split.
  - intros euler Hc. split; [exact (X euler Hc) |].
    exists (angles_world euler w).
    split;
      [exact (exec_more 4 n _ _ _ ltac:(lia) (exec_angles_world 0 euler w)) |].
    rewrite <- Hc in Ha.
    destruct (notified_angles_world euler w Ha) as [Hnot Hquat].
    split; [now rewrite Hquat | exact Hnot].
  - intros config e1 e2 e3 G0 G1 G2 G3 Hc.
    unfold RotationProperty_load, EulerProperty_load.
    rewrite G0, G1, G2, G3. unfold andThen.
    assert (A : exec n (E_setEulerAxes (axes_string_ (eul w))) w = Done w).
    { apply (exec_more 6 n); [lia |]. rewrite (exec_axes_world 0).
      now rewrite String.eqb_refl. }
    rewrite A. exact (X _ Hc).
Qed.

Lemma setQuaternion_stores_silently_witness :
  ((15 <= 15)%nat /\ rflag example_world = false /\
   isApprox (quaternion_ (eul example_world)) q_half = false /\
   isApprox q_half (@recomposed turn_runtime q_half (eul example_world))
   = true) /\
  exists w' : World,
    @exec turn_runtime 15 (E_setQuaternion q_half) example_world = Done w' /\
    quaternion_ (eul w') = q_half /\
    ~ notified (news example_world w') /\
    quaternion_property_ (rotation w') = q_one /\
    rot_value_ (rotation w') = "rpy: 0; 0; 0"%string /\
    @exec turn_runtime 15 (E_setEulerAngles (Vec3 PI 0 0) true) example_world
    = Done w' /\
    @RotationProperty_load turn_runtime 15
      [("axes"%string, VString "rpy"); ("e1"%string, VDouble 180);
       ("e2"%string, VDouble 0); ("e3"%string, VDouble 0)] example_world
    = Done w'.
Proof.
  assert (B : isApprox q_half
                (@recomposed turn_runtime q_half (eul example_world)) = true)
    by (rewrite turn_recomposed_half by reflexivity; apply isApprox_refl).
  split; [split; [lia | split; [reflexivity | split;
                                  [exact one_not_half | exact B]]] |].
  destruct (@setQuaternion_stores_silently turn_runtime 15 example_world q_half
              (le_n 15) eq_refl one_not_half B)
    as (w' & X & Q & _ & N & P & V & _ & E & L).
  exists w'. split; [exact X |]. split; [exact Q |]. split; [exact N |].
  split; [exact P |]. split; [exact V |]. split.
  - exact (proj1 (E (Vec3 PI 0 0) (compose_half_turn true))).
  - apply (L _ 180 0 0); try reflexivity.
    change (fixed_ (eul example_world)) with true.
    change (axes_ (eul example_world)) with [0; 1; 2]%nat.
    rewrite <- (compose_half_turn true). f_equal.
    unfold angles.from_degrees. f_equal; field.
Defined.
(** ** setEulerAxes and the rotation *)

Section AxesRotation.

Context {RT : Runtime}.

(** The quaternion [setEulerAxes] leaves, against the one it found. *)
Lemma kept_or_recomposed (fixed : bool) (a0 a1 a2 : nat) (old new : Quaterniond) :
  (a0 < 3)%nat -> (a1 < 3)%nat -> (a2 < 3)%nat ->
  squaredNorm old = 1 ->
  new = (let q' := compose fixed [a0; a1; a2]
                     (decompose fixed [a0; a1; a2] old) in
         if isApprox old q' then old else q') ->
  (decomposition_exact fixed a0 a1 a2 old ->
   matrix new = matrix old /\ (new = old \/ new = qneg old)) /\
  (decomposition_accurate roundtrip_precision fixed a0 a1 a2 old ->
   squaredNorm new = 1 /\
   mdist2 (matrix new) (matrix old)
   <= roundtrip_precision * roundtrip_precision /\
   (isApproxPrec roundtrip_precision new old = true \/
    isApproxPrec roundtrip_precision new (qneg old) = true)).
Proof.
  intros H0 H1 H2 Hu Hnew. cbv zeta in Hnew.
  pose proof roundtrip_precision_small as Hp.
  split.
  - intros Hx.
    destruct (compose_decompose fixed a0 a1 a2 old H0 H1 H2 Hu Hx) as [Hm Hpm].
    cbv zeta in Hm, Hpm. rewrite Hnew.
    destruct (isApprox old _); [split; [reflexivity | now left] |].
    split; assumption.
  - intros Hx.
    destruct (compose_decompose_near roundtrip_precision fixed a0 a1 a2 old
                H0 H1 H2 Hu Hx) as (Ur & Mr & Nr).
    cbv zeta in Ur, Mr, Nr. rewrite Hnew.
    destruct (isApprox old _).
    + split; [exact Hu |]. split; [rewrite mdist2_same; nra |].
      apply isApproxPrec_near; [exact Hu | exact Hu |].
      apply near_same. nra.
    + split; [exact Ur |]. split; [exact Mr |].
      apply isApproxPrec_near; [exact Ur | exact Hu |].
      apply (near_le (roundtrip_precision * roundtrip_precision / 4));
        [nra | exact Nr].
Qed.

End AxesRotation.

(** C7, as the code has it: [setEulerAxes(spec)] returns at once when the
    spec is the current axes string; an invalid spec throws with the state
    as it was; a valid new spec is stored with its frame flag and axis
    order, the angle fields become the angles of the stored quaternion
    under the new axes, and the stored quaternion is kept when the
    quaternion those angles compose to is approximately equal to it, and
    replaced by that quaternion, with [quaternionChanged] emitted,
    otherwise.  The rotation of a stored unit quaternion is preserved as
    far as the decomposition under the new axes is accurate: with an exact
    decomposition the rotation matrix is unchanged and the stored
    quaternion ends as q or -q; with a decomposition accurate within 1e-6
    the matrix is within 1e-6 of the old one and the stored quaternion
    within 1e-6 of q or of -q. *)
Theorem setEulerAxes_effect {RT : Runtime} (n : nat) (w : World) (s : string) :
  (15 <= n)%nat ->
  (axes_string_ (eul w) = s -> exec n (E_setEulerAxes s) w = Done w) /\
  (forall msg : string,
     axes_string_ (eul w) <> s -> AxisSpec.parse s = inl msg ->
     exec n (E_setEulerAxes s) w = Raised msg w) /\
  (forall (fixed : bool) (axes : list nat),
     axes_string_ (eul w) <> s -> AxisSpec.parse s = inr (fixed, axes) ->
     eflag w = false ->
     exists w' : World,
       exec n (E_setEulerAxes s) w = Done w' /\
       axes_string_ (eul w') = s /\ fixed_ (eul w') = fixed /\
       axes_ (eul w') = axes /\
       euler_ (eul w') = degrees (decompose fixed axes (quaternion_ (eul w))) /\
       quaternion_ (eul w') =
       (let q' := compose fixed axes
                    (decompose fixed axes (quaternion_ (eul w))) in
        if isApprox (quaternion_ (eul w)) q' then quaternion_ (eul w) else q') /\
       (notified (news w w') <->
        isApprox (quaternion_ (eul w)) (quaternion_ (eul w')) = false) /\
       (squaredNorm (quaternion_ (eul w)) = 1 ->
        exists a0 a1 a2 : nat,
          axes = [a0; a1; a2] /\
          (decomposition_exact fixed a0 a1 a2 (quaternion_ (eul w)) ->
           matrix (quaternion_ (eul w')) = matrix (quaternion_ (eul w)) /\
           (quaternion_ (eul w') = quaternion_ (eul w) \/
            quaternion_ (eul w') = qneg (quaternion_ (eul w)))) /\
          (decomposition_accurate roundtrip_precision fixed a0 a1 a2
             (quaternion_ (eul w)) ->
           squaredNorm (quaternion_ (eul w')) = 1 /\
           mdist2 (matrix (quaternion_ (eul w'))) (matrix (quaternion_ (eul w)))
           <= roundtrip_precision * roundtrip_precision /\
           (isApproxPrec roundtrip_precision (quaternion_ (eul w'))
              (quaternion_ (eul w)) = true \/
            isApproxPrec roundtrip_precision (quaternion_ (eul w'))
              (qneg (quaternion_ (eul w))) = true)))).
Proof.
  intros Hn. split; [| split].
  - intros Hs. destruct n as [| n]; [lia |]. cbn [exec body].
    unfold EulerProperty_setEulerAxes, read. rewrite Hs, String.eqb_refl.
    reflexivity.
  - intros msg Hs Hp. apply exec_raised; [exact Hn | exact I |].
    simpl. apply String.eqb_neq in Hs. now rewrite Hs, Hp.
  - intros fixed axes Hs Hp He.
    destruct (setEulerAxes_valid n w s fixed axes Hn Hs Hp He)
      as (w' & Hx & A & B & C & D & Q).
    exists w'. split; [exact Hx |]. split; [exact A |]. split; [exact B |].
    split; [exact C |]. split; [exact D |]. split; [exact Q |]. split.
    + destruct (exec_euler n _ w w' Hn Hx I) as (_ & _ & Hw & Hl).
      etransitivity; [exact (notified_news w w' _ Hl) |]. rewrite Hw.
      apply axes_notified.
    + intros Hu.
      destruct (parse_valid _ _ _ Hp) as (a0 & a1 & a2 & E & H0 & H1 & H2 & _).
      exists a0, a1, a2. split; [exact E |].
      rewrite E in Q.
      exact (kept_or_recomposed fixed a0 a1 a2 _ _ H0 H1 H2 Hu Q).
Qed.

Lemma setEulerAxes_effect_witness :
  (15 <= 15)%nat /\
  (axes_string_ (eul example_world_half) = "rpy"%string /\
   @exec turn_runtime 15 (E_setEulerAxes "rpy") example_world_half
   = Done example_world_half) /\
  (axes_string_ (eul example_world_half) <> "xyq"%string /\
   AxisSpec.parse "xyq" = inl "invalid axis char: x (only xyz allowed)"%string /\
   @exec turn_runtime 15 (E_setEulerAxes "xyq") example_world_half
   = Raised "invalid axis char: x (only xyz allowed)" example_world_half) /\
  (axes_string_ (eul example_world_half) <> "rxyz"%string /\
   AxisSpec.parse "rxyz" = inr (false, [0; 1; 2]%nat) /\
   eflag example_world_half = false /\
   squaredNorm (quaternion_ (eul example_world_half)) = 1 /\
   @decomposition_exact turn_runtime false 0 1 2
     (quaternion_ (eul example_world_half)) /\
   exists w' : World,
     @exec turn_runtime 15 (E_setEulerAxes "rxyz") example_world_half
     = Done w' /\
     axes_string_ (eul w') = "rxyz"%string /\ fixed_ (eul w') = false /\
     axes_ (eul w') = [0; 1; 2]%nat /\
     matrix (quaternion_ (eul w')) = matrix q_half /\
     (quaternion_ (eul w') = q_half \/ quaternion_ (eul w') = qneg q_half) /\
     (isApproxPrec roundtrip_precision (quaternion_ (eul w')) q_half = true \/
      isApproxPrec roundtrip_precision (quaternion_ (eul w')) (qneg q_half)
      = true)).
Proof.
  destruct (@setEulerAxes_effect turn_runtime 15 example_world_half "rpy"
              (le_n 15)) as (H1 & _).
  destruct (@setEulerAxes_effect turn_runtime 15 example_world_half "xyq"
              (le_n 15)) as (_ & H2 & _).
  destruct (@setEulerAxes_effect turn_runtime 15 example_world_half "rxyz"
              (le_n 15)) as (_ & _ & H3).
  assert (N1 : axes_string_ (eul example_world_half) <> "xyq"%string)
    by discriminate.
  assert (N2 : axes_string_ (eul example_world_half) <> "rxyz"%string)
    by discriminate.
  split; [lia |].
  split; [split; [reflexivity | exact (H1 eq_refl)] |].
  split; [split; [exact N1 | split; [reflexivity | exact (H2 _ N1 eq_refl)]] |].
  split; [exact N2 |]. split; [reflexivity |]. split; [reflexivity |].
  split; [exact q_half_unit |].
  split; [exact (turn_decomposition_exact false) |].
  destruct (H3 false [0; 1; 2]%nat N2 eq_refl eq_refl)
    as (w' & X & A & B & C & _ & _ & _ & R).
  destruct (R q_half_unit) as (a0 & a1 & a2 & E & Rx & Ra).
  injection E as <- <- <-.
  destruct (Rx (turn_decomposition_exact false)) as [M PM].
  destruct (Ra (exact_accurate _ _ _ _ _ _ (turn_decomposition_exact false)))
    as (_ & _ & AP).
  exists w'. split; [exact X |]. split; [exact A |]. split; [exact B |].
  split; [exact C |]. split; [exact M |]. split; [exact PM | exact AP].
Defined.

(** The rotation is kept by the decomposition, not by [setEulerAxes]: with
    a decomposition that answers (0, 0, 0) for every matrix, the change
    from "rpy" to "rxyz" on a property that holds the half turn about x
    stores the identity. *)
Lemma setEulerAxes_needs_accuracy :
  exists w' : World,
    @exec example_runtime 15 (E_setEulerAxes "rxyz") example_world_half
    = Done w' /\
    quaternion_ (eul w') = q_one /\
    matrix (quaternion_ (eul w')) <> matrix (quaternion_ (eul example_world_half)).
Proof.
  assert (N : axes_string_ (eul example_world_half) <> "rxyz"%string)
    by discriminate.
  destruct (@setEulerAxes_valid example_runtime 15 example_world_half "rxyz"
              false [0; 1; 2]%nat (le_n _) N eq_refl eq_refl)
    as (w' & X & _ & _ & _ & _ & Q).
  exists w'. split; [exact X |].
  assert (Q1 : quaternion_ (eul w') = q_one).
  { rewrite Q. cbv zeta.
    change (quaternion_ (eul example_world_half)) with q_half.
    replace (@decompose example_runtime false [0; 1; 2]%nat q_half)
      with (Vec3 0 0 0) by reflexivity.
    rewrite compose_zero, half_not_one. reflexivity. }
  split; [exact Q1 |]. rewrite Q1.
  change (quaternion_ (eul example_world_half)) with q_half.
  rewrite matrix_half. unfold matrix, q_one. simpl.
  intros H. injection H as _ H _. lra.
Qed.
